(** * json4u: the addressable JSON tree index ([src/lib/parser/tree.ts])

    A shallow embedding of the [Tree] class: the flat node map keyed by
    path-derived identifiers, the offset lookup, the stringifier that
    re-indexes spans while it serialises, the incremental patch pass and the
    structural equality.

    Node objects are mutable and reached through [nodeMap]; the embedding
    keeps the map as the store and passes the key of a node where the
    TypeScript code passes the node object, so that a write to a node is an
    insertion at its key and later reads see it. *)

From stdpp Require Import gmap strings list fin_maps sorting.
From Stdlib Require Import ZArith Lia Ascii DecimalString.

Local Open Scope Z_scope.

(** ** Outcomes of a call

    [Done] is a normal return, [Raise] a thrown [TypeError] (a property read
    on [undefined]) or [Error], [Timeout] marks an exhausted recursion budget
    of the embedding. *)

Inductive res (A : Type) : Type :=
| Done (a : A)
| Raise
| Timeout.

Arguments Done {A} a.
Arguments Raise {A}.
Arguments Timeout {A}.

Definition bind {A B : Type} (c : res A) (f : A -> res B) : res B :=
  match c with
  | Done a => f a
  | Raise => Raise
  | Timeout => Timeout
  end.

Global Instance res_bind : MBind res := fun A B f c => bind c f.
Global Instance res_ret : MRet res := @Done.

(** JavaScript [s.length], as an integer. *)
Definition slen (s : string) : Z := Z.of_nat (String.length s).

(** The line feed and the double quote, as one-character strings. *)
Definition LF : string := String (Ascii.ascii_of_nat 10) EmptyString.
Definition DQ : string := String (Ascii.ascii_of_nat 34) EmptyString.

(** ** The node model ([./node], consumed by [tree.ts]) *)

Inductive NodeType : Type :=
| TObject | TArray | TString | TNumber | TBoolean | TNull.

Global Instance NodeType_eq_dec : EqDecision NodeType.
Proof. solve_decision. Defined.

(** The fields of a node that [tree.ts] reads and writes; [rawValue] stands
    for what the raw token is derived from (the decoded value, which only
    [toJSON] reads, is left out). *)
Module Node.
Record t : Type := mk {
  id : string;
  type : NodeType;
  rawValue : option string;
  childrenKeys : list string;
  offset : Z;
  length : Z;
  boundOffset : Z;
  boundLength : Z
}.

Definition setOffset (v : Z) (n : t) : t :=
  mk (id n) (type n) (rawValue n) (childrenKeys n)
     v (length n) (boundOffset n) (boundLength n).
Definition setLength (v : Z) (n : t) : t :=
  mk (id n) (type n) (rawValue n) (childrenKeys n)
     (offset n) v (boundOffset n) (boundLength n).
Definition setBoundOffset (v : Z) (n : t) : t :=
  mk (id n) (type n) (rawValue n) (childrenKeys n)
     (offset n) (length n) v (boundLength n).
Definition setBoundLength (v : Z) (n : t) : t :=
  mk (id n) (type n) (rawValue n) (childrenKeys n)
     (offset n) (length n) (boundOffset n) v.
Definition setChildrenKeys (v : list string) (n : t) : t :=
  mk (id n) (type n) (rawValue n) v
     (offset n) (length n) (boundOffset n) (boundLength n).

(** The four span fields of a node. *)
Definition spans (n : t) : Z * Z * Z * Z :=
  (offset n, length n, boundOffset n, boundLength n).
End Node.

Abbreviation Node := Node.t.

(** Modelled from the spec: [isIterable] of [./node] is not among the
    sources; true for the object and array types. *)
Definition isIterable (n : Node) : bool :=
  match Node.type n with
  | TObject | TArray => true
  | _ => false
  end.

(** Modelled from the spec: [getChildrenKeys] of [./node] is not among the
    sources; the ordered child keys of the node. *)
Definition getChildrenKeys (n : Node) : list string := Node.childrenKeys n.

(** Modelled from the spec: [hasChildren] of [./node] is not among the
    sources; true iff the child-key list is non-empty. *)
Definition hasChildren (n : Node) : bool :=
  match getChildrenKeys n with
  | [] => false
  | _ :: _ => true
  end.

(** Modelled from the spec: [computeAndSetBoundLength] of [./node] is not
    among the sources; it sets the bound length so that the bound span ends
    where the node's own span ends. *)
Definition computeAndSetBoundLength (n : Node) : Node :=
  Node.setBoundLength (Node.offset n + Node.length n - Node.boundOffset n) n.

(** ** Options and the tree *)

Inductive SortOrder : Type := Asc | Desc.

Record StringifyOptions : Type := mkOptions {
  format : bool;
  sort : option SortOrder;
  tabWidth : option nat;
  pure : bool
}.

Definition defaultOptions : StringifyOptions := mkOptions false None None false.

Record ContextError : Type := mkContextError { message : string }.

Record Tree : Type := mkTree {
  nodeMap : gmap string Node;
  text : string;
  nestNodeMap : option (gmap string Node);
  errors : option (list ContextError);
  version : option nat
}.

Definition setNodeMap (m : gmap string Node) (t : Tree) : Tree :=
  mkTree m (text t) (nestNodeMap t) (errors t) (version t).
Definition setText (s : string) (t : Tree) : Tree :=
  mkTree (nodeMap t) s (nestNodeMap t) (errors t) (version t).

(** [getGenTabsFn]: the returned closure maps a level to [level] copies of
    a tab of [tabWidth] spaces (the cache only memoises this). *)
Fixpoint repeatString (s : string) (n : nat) : string :=
  match n with
  | O => EmptyString
  | S n' => repeatString s n' +:+ s
  end.

Definition getGenTabsFn (tabWidth : nat) : nat -> string :=
  let tab := repeatString " " tabWidth in
  fun level => repeatString tab level.

(** [options.tabWidth || 2] *)
Definition tabWidthOrDefault (options : StringifyOptions) : nat :=
  match tabWidth options with
  | Some (S n) => S n
  | _ => 2%nat
  end.

(** [keys.sort()] and [keys.sort().reverse()] on strings: the default
    comparison orders strings by their code units. *)
Definition sortKeys (o : option SortOrder) (keys : list string) : list string :=
  match o with
  | Some Asc => merge_sort String.le keys
  | Some Desc => reverse (merge_sort String.le keys)
  | None => keys
  end.

(** ** Text edits ([jsonc.Edit], [jsonc.applyEdits]) and [trim] *)

Module Edit.
Record t : Type := mk { offset : Z; length : Z; content : string }.
End Edit.

(** [s.substring(a, b)]: both indices are clamped to the string and swapped
    when out of order. *)
Definition clampIndex (s : string) (i : Z) : nat :=
  Z.to_nat (Z.max 0 (Z.min i (slen s))).

Definition jsSubstring (s : string) (a b : Z) : string :=
  let a' := clampIndex s a in
  let b' := clampIndex s b in
  String.substring (Nat.min a' b') (Nat.max a' b' - Nat.min a' b') s.

(** [s.substring(a)] *)
Definition jsSubstringFrom (s : string) (a : Z) : string :=
  jsSubstring s a (slen s).

Definition applyEdit (text : string) (e : Edit.t) : string :=
  jsSubstring text 0 (Edit.offset e) +:+ Edit.content e
  +:+ jsSubstringFrom text (Edit.offset e + Edit.length e).

(** The comparison [applyEdits] sorts with: by offset, then by length. *)
Definition editLe (a b : Edit.t) : bool :=
  let diff := Edit.offset a - Edit.offset b in
  if diff =? 0 then Edit.length a - Edit.length b <=? 0 else diff <=? 0.

Fixpoint insertEdit (e : Edit.t) (l : list Edit.t) : list Edit.t :=
  match l with
  | [] => [e]
  | x :: r => if editLe x e then x :: insertEdit e r else e :: x :: r
  end.

Definition sortEdits (l : list Edit.t) : list Edit.t :=
  foldr insertEdit [] (reverse l).

(** The backwards loop of [applyEdits] over the sorted edits, given last
    first; an edit that reaches past the last modified offset is an
    overlapping edit, which throws. *)
Fixpoint applyEditsRev (text : string) (lastModifiedOffset : Z)
    (revEdits : list Edit.t) : res string :=
  match revEdits with
  | [] => Done text
  | e :: r =>
      if Edit.offset e + Edit.length e <=? lastModifiedOffset
      then applyEditsRev (applyEdit text e) (Edit.offset e) r
      else Raise
  end.

Definition applyEdits (text : string) (edits : list Edit.t) : res string :=
  applyEditsRev text (slen text) (reverse (sortEdits edits)).

(** White space and line terminators among the code units below 256. *)
Definition isWhiteSpace (c : Ascii.ascii) : bool :=
  let n := Ascii.nat_of_ascii c in
  ((9 <=? n) && (n <=? 13) || (n =? 32) || (n =? 160))%nat.

Fixpoint trimStart (s : string) : string :=
  match s with
  | EmptyString => EmptyString
  | String c r => if isWhiteSpace c then trimStart r else s
  end.

Definition trimEnd (s : string) : string := String.rev (trimStart (String.rev s)).

Definition trim (s : string) : string := trimEnd (trimStart s).

(** [union] of lodash on two key arrays: the distinct values, in the order
    of their first occurrence. *)
Fixpoint uniqFrom (seen : list string) (l : list string) : list string :=
  match l with
  | [] => []
  | x :: r => if bool_decide (x ∈ seen) then uniqFrom seen r
              else x :: uniqFrom (x :: seen) r
  end.

Definition union (a b : list string) : list string := uniqFrom [] (a ++ b).

(** The key an array position is stored under. *)
Definition indexKey (i : nat) : string := NilEmpty.string_of_uint (Nat.to_uint i).

(** What [tree.ts] imports from [@/lib/idgen] and [./node], files that are
    not among the sources: the root identifier, the derivation of a child
    identifier from the parent's identifier and a key, the raw token of a
    node, and whether [getChildrenKeys] hands out the stored array itself
    (so that an in-place [sort] on its result reorders the storage) or a
    copy of it. *)
Class Helpers : Type := {
  rootMarker : string;
  genChildId : string -> string -> string;
  getRawValue : Node -> option string;
  keysShared : bool
}.

Section TreeOps.

Context `{Helpers}.

(** Modelled from the spec: [getChildId] of [./node] is not among the
    sources; a child identifier is computed from the parent node, through
    its identifier, and the key. *)
Definition getChildId (n : Node) (key : string) : string :=
  genChildId (Node.id n) key.

(** Modelled from the spec: [isRoot] of [./node] is not among the sources;
    true iff the identifier is the root marker (as [Tree.isRoot] has it). *)
Definition isRoot (n : Node) : bool := bool_decide (Node.id n = rootMarker).

(** *** Structural access *)

Definition node (t : Tree) (i : string) : option Node := nodeMap t !! i.
Definition root (t : Tree) : option Node := node t rootMarker.

(** [!isEmpty(this.errors)] *)
Definition hasError (t : Tree) : bool :=
  match errors t with
  | Some (_ :: _) => true
  | _ => false
  end.

Definition valid (t : Tree) : bool :=
  match root t with
  | Some _ => negb (hasError t)
  | None => false
  end.

Definition getChild (m : gmap string Node) (n : Node) (key : string)
  : option Node := m !! getChildId n key.

Definition isGraphNode (n : Node) : bool := isRoot n || hasChildren n.

(** *** The stringifier *)

(** The body of the [for] loop of [stringifyNode] over the keys that are
    left; [rec] is the recursive call on a child, given its key in the
    store, its offset and its bound offset. *)
Fixpoint stringifyChildren
    (rec : string -> Z -> Z -> gmap string Node -> res (string * gmap string Node))
    (n : Node) (isFormat isObject : bool) (genTabs : nat -> string)
    (indentLevel : nat) (offset : Z)
    (keys : list string) (stringified : string) (m : gmap string Node)
  : res (string * gmap string Node) :=
  match keys with
  | [] => Done (stringified, m)
  | key :: rest =>
      let s1 := if isFormat
                then stringified +:+ LF +:+ genTabs (S indentLevel)
                else stringified in
      let childBoundOffset := offset + slen s1 in
      let s2 := if isObject
                then s1 +:+ DQ +:+ key +:+ DQ +:+ ":"
                       +:+ (if isFormat then " " else EmptyString)
                else s1 in
      let childOffset := offset + slen s2 in
      '(c, m') ← rec (getChildId n key) childOffset childBoundOffset m;
      let s3 := s2 +:+ c in
      let s4 := match rest with
                | _ :: _ => s3 +:+ ","
                | [] => if isFormat
                        then s3 +:+ LF +:+ genTabs indentLevel
                        else s3
                end in
      stringifyChildren rec n isFormat isObject genTabs indentLevel offset
                        rest s4 m'
  end.

(** [stringifyNode]: [k] is the store key of the node object passed in;
    a key without an entry stands for [undefined]. *)
Fixpoint stringifyNode (fuel : nat) (m : gmap string Node) (k : string)
    (options : StringifyOptions) (indentLevel : nat)
    (offset boundOffset : Z) (genTabs : nat -> string)
  : res (string * gmap string Node) :=
  match fuel with
  | O => Timeout
  | S fuel' =>
      match m !! k with
      | None => Raise
      | Some n =>
          if negb (isIterable n) then
            let stringified := default EmptyString (getRawValue n) in
            if pure options then Done (stringified, m)
            else
              let n' := computeAndSetBoundLength
                          (Node.setBoundOffset boundOffset
                             (Node.setOffset offset
                                (Node.setLength (slen stringified) n))) in
              Done (stringified, <[k := n']> m)
          else
            let m0 := if pure options then m
                      else <[k := Node.setOffset offset
                                    (Node.setBoundOffset boundOffset n)]> m in
            let isFormat := format options in
            let isObject := bool_decide (Node.type n = TObject) in
            let keys := if isObject
                        then sortKeys (sort options) (getChildrenKeys n)
                        else getChildrenKeys n in
            let m1 := if keysShared
                      then alter (Node.setChildrenKeys keys) k m0
                      else m0 in
            '(s, m2) ← stringifyChildren
                 (fun ck co cbo mm =>
                    stringifyNode fuel' mm ck options (S indentLevel) co cbo genTabs)
                 n isFormat isObject genTabs indentLevel offset
                 keys (if isObject then "{" else "[") m1;
            let stringified := s +:+ (if isObject then "}" else "]") in
            if pure options then Done (stringified, m2)
            else
              Done (stringified,
                    alter (fun x => computeAndSetBoundLength
                                      (Node.setLength (slen stringified) x)) k m2)
      end
  end.

(** [stringify]: the default arguments of [stringifyNode] are level 0,
    offset 0, bound offset 0 and the tab generator of the options. *)
Definition stringify (fuel : nat) (t : Tree) (options : StringifyOptions)
  : res (string * Tree) :=
  '(s, m) ← stringifyNode fuel (nodeMap t) rootMarker options 0 0 0
                (getGenTabsFn (tabWidthOrDefault options));
  Done (s, setText s (setNodeMap (alter (Node.setLength (slen s)) rootMarker m) t)).

(** *** Offset lookup *)

(** [inBound]: the cursor sits left of its character, so the interval is
    open on the left and closed on the right. *)
Definition inBound (offset : Z) (n : Node) : bool :=
  (Node.boundOffset n <? offset)
  && (offset <=? Node.boundOffset n + Node.boundLength n).

(** The [while (left <= right)] loop of [doFind]; [rec] is [doFind] on a
    child and [gas] bounds the number of iterations. *)
Fixpoint searchChildren (rec : Node -> res (option Node))
    (m : gmap string Node) (offset : Z) (n : Node) (keys : list string)
    (gas : nat) (left right : Z) : res (option Node) :=
  match gas with
  | O => Timeout
  | S gas' =>
      if left <=? right then
        let mid := (left + right) `div` 2 in
        match keys !! Z.to_nat mid ≫= getChild m n with
        | None => Raise
        | Some child =>
            if inBound offset child then
              item ← rec child;
              Done (Some (default child item))
            else if Node.boundOffset child + Node.boundLength child <? offset
            then searchChildren rec m offset n keys gas' (mid + 1) right
            else searchChildren rec m offset n keys gas' left (mid - 1)
        end
      else Done (Some n)
  end.

Fixpoint doFind (fuel : nat) (m : gmap string Node) (offset : Z) (n : Node)
  : res (option Node) :=
  match fuel with
  | O => Timeout
  | S fuel' =>
      if negb (inBound offset n) then Done None
      else
        let keys := getChildrenKeys n in
        searchChildren (doFind fuel' m offset) m offset n keys
          (S (length keys)) 0 (Z.of_nat (length keys) - 1)
  end.

Inductive HitType : Type := HitNode | HitKey | HitValue.

Definition inSpan (offset : Z) (n : Node) : bool :=
  (Node.offset n <? offset) && (offset <=? Node.offset n + Node.length n).

Definition hitType (offset : Z) (n : Node) : HitType :=
  if isGraphNode n then HitNode
  else if inSpan offset n then HitValue else HitKey.

Definition findNodeAtOffset (fuel : nat) (t : Tree) (offset : Z)
  : res (option (Node * HitType)) :=
  if negb (valid t) then Done None
  else
    match root t with
    | None => Raise
    | Some r =>
        found ← doFind fuel (nodeMap t) offset r;
        match found with
        | None => Done None
        | Some n => Done (Some (n, hitType offset n))
        end
    end.

(** *** The patch engine *)

Definition isNest (nest : option (gmap string Node)) (n : Node) : bool :=
  match nest with
  | Some nm => bool_decide (is_Some (nm !! Node.id n))
  | None => false
  end.

(** What [fixOffset] closes over and updates: the node store, the
    accumulated size delta and the edits recorded so far. *)
Record PatchState : Type := mkPatch {
  store : gmap string Node;
  acc : Z;
  edits : list Edit.t
}.

(** [this.mapChildren(node, fixOffset)] over the keys that are left. *)
Fixpoint fixChildren (rec : string -> PatchState -> res PatchState)
    (n : Node) (keys : list string) (st : PatchState) : res PatchState :=
  match keys with
  | [] => Done st
  | key :: rest =>
      st' ← rec (getChildId n key) st;
      fixChildren rec n rest st'
  end.

Definition shiftStart (d : Z) (n : Node) : Node :=
  Node.setBoundOffset (Node.boundOffset n + d)
    (Node.setOffset (Node.offset n + d) n).

Definition growLength (d : Z) (n : Node) : Node :=
  Node.setBoundLength (Node.boundLength n + d)
    (Node.setLength (Node.length n + d) n).

Fixpoint fixOffset (fuel : nat) (nest : option (gmap string Node))
    (options : StringifyOptions) (k : string) (st : PatchState)
  : res PatchState :=
  match fuel with
  | O => Timeout
  | S fuel' =>
      match store st !! k with
      | None => Raise
      | Some n =>
          if isNest nest n then
            '(content, m') ← stringifyNode fuel' (store st) k options 0
                 (Node.offset n + acc st) (Node.boundOffset n + acc st)
                 (getGenTabsFn (tabWidthOrDefault options));
            let edit := Edit.mk (Node.offset n) (Node.length n) content in
            Done (mkPatch m' (acc st + (slen content - Edit.length edit))
                          (edits st ++ [edit]))
          else
            let m1 := <[k := shiftStart (acc st) n]> (store st) in
            let old := acc st in
            st' ← fixChildren (fixOffset fuel' nest options) n
                       (getChildrenKeys n) (mkPatch m1 (acc st) (edits st));
            Done (mkPatch (alter (growLength (acc st' - old)) k (store st'))
                          (acc st') (edits st'))
      end
  end.

Definition stringifyNestNodes (fuel : nat) (t : Tree)
    (options : StringifyOptions) : res Tree :=
  st ← fixOffset fuel (nestNodeMap t) options rootMarker
            (mkPatch (nodeMap t) 0 []);
  txt ← applyEdits (text t) (edits st);
  Done (setText (trim txt) (setNodeMap (store st) t)).

(** *** Structural equality *)

Fixpoint equalChildren (rec : Node -> Node -> res bool)
    (m1 m2 : gmap string Node) (n1 n2 : Node) (keys : list string)
  : res bool :=
  match keys with
  | [] => Done true
  | key :: rest =>
      match getChild m1 n1 key, getChild m2 n2 key with
      | Some child1, Some child2 =>
          bind (rec child1 child2) (fun b : bool =>
            if b then equalChildren rec m1 m2 n1 n2 rest else Done false)
      | _, _ => Done false
      end
  end.

Fixpoint doIsEquals (fuel : nat) (m1 m2 : gmap string Node) (n1 n2 : Node)
  : res bool :=
  match fuel with
  | O => Timeout
  | S fuel' =>
      if negb (bool_decide (Node.type n1 = Node.type n2)) then Done false
      else
        match union (getChildrenKeys n1) (getChildrenKeys n2) with
        | [] => Done (bool_decide (getRawValue n1 = getRawValue n2))
        | keys => equalChildren (doIsEquals fuel' m1 m2) m1 m2 n1 n2 keys
        end
  end.

Definition isEquals (fuel : nat) (tree1 tree2 : Tree) : res bool :=
  match root tree1, root tree2 with
  | Some r1, Some r2 => doIsEquals fuel (nodeMap tree1) (nodeMap tree2) r1 r2
  | _, _ => Raise
  end.

End TreeOps.

(** ** Well-formedness and the notions the properties are stated with *)

Section TreeSpecs.

Context `{Helpers}.

(** The offset invariant of a node. *)
Definition startOk (n : Node) : Prop := Node.boundOffset n <= Node.offset n.

Definition spanOk (n : Node) : Prop :=
  Node.boundOffset n <= Node.offset n
  /\ Node.boundOffset n + Node.boundLength n = Node.offset n + Node.length n.

(** [reachable m k j]: [j] is the store key of the node at [k] or of a node
    below it, descending from containers along their child keys; these
    are the nodes a [stringifyNode] pass from [k] visits. *)
Inductive reachable (m : gmap string Node) : string -> string -> Prop :=
| reach_refl k : reachable m k k
| reach_child k n key j :
    m !! k = Some n ->
    isIterable n = true ->
    key ∈ getChildrenKeys n ->
    reachable m (getChildId n key) j ->
    reachable m k j.

(** [pending nest m k p]: the patch pass started at [k] arrives at the
    pending node [p], which it serialises anew: descending along child
    keys through nodes that are not pending. *)
Inductive pending (nest : option (gmap string Node)) (m : gmap string Node)
  : string -> string -> Prop :=
| pending_here k n :
    m !! k = Some n -> isNest nest n = true -> pending nest m k k
| pending_child k n key p :
    m !! k = Some n -> isNest nest n = false ->
    key ∈ getChildrenKeys n ->
    pending nest m (getChildId n key) p ->
    pending nest m k p.

(** [complete fuel m k]: the subtree stored at [k] is closed (every child
    key has its node) and less than [fuel] levels deep. *)
Fixpoint complete (fuel : nat) (m : gmap string Node) (k : string) : bool :=
  match fuel with
  | O => false
  | S fuel' =>
      match m !! k with
      | None => false
      | Some n =>
          forallb (fun key => complete fuel' m (getChildId n key))
                  (getChildrenKeys n)
      end
  end.

(** Two nodes, or two stores, that differ in spans and in the order of the
    stored keys only. *)
Definition sameShapeNode (n n' : Node) : Prop :=
  Node.id n = Node.id n' /\ Node.type n = Node.type n'
  /\ Node.childrenKeys n ≡ₚ Node.childrenKeys n'.

Definition sameShape (m m' : gmap string Node) : Prop :=
  forall j, option_Forall2 sameShapeNode (m !! j) (m' !! j).

(** Every node of [m'] comes from one of [m], and is sound in its start,
    or in its whole span, if that one was. *)
Definition keepsOk (m m' : gmap string Node) : Prop :=
  forall j n', m' !! j = Some n' ->
    exists n, m !! j = Some n
              /\ (startOk n -> startOk n') /\ (spanOk n -> spanOk n').

(** The keys [stringifyNode] iterates over at a container, and the store
    as it stands when the loop over them starts. *)
Definition keysOf (options : StringifyOptions) (n : Node) : list string :=
  if bool_decide (Node.type n = TObject)
  then sortKeys (sort options) (getChildrenKeys n)
  else getChildrenKeys n.

Definition prepared (options : StringifyOptions) (off boff : Z) (k : string)
    (n : Node) (m : gmap string Node) : gmap string Node :=
  let m0 := if pure options then m
            else <[k := Node.setOffset off (Node.setBoundOffset boff n)]> m in
  if keysShared then alter (Node.setChildrenKeys (keysOf options n)) k m0
  else m0.

(** Identifiers get a smaller rank from parent to child: the node map has
    no cycle and no infinite descent. *)
Definition ranked (m : gmap string Node) (rk : string -> nat) : Prop :=
  forall parent key c,
    m !! genChildId parent key = Some c -> (rk (Node.id c) < rk parent)%nat.

(** Two nodes, or two trees, that differ in spans and in the order of the
    stored keys only, raw values included in what is the same. *)
Definition keyPermNode (n n' : Node) : Prop :=
  Node.id n = Node.id n' /\ Node.type n = Node.type n'
  /\ getRawValue n = getRawValue n'
  /\ Node.childrenKeys n ≡ₚ Node.childrenKeys n'.

Definition keyPerm (m m' : gmap string Node) : Prop :=
  forall j, option_Forall2 keyPermNode (m !! j) (m' !! j).

(** Structural equality, as [isEquals] decides it: two nodes of the same
    type that, when neither lists a key, have the same raw value, and
    under every key of either of them have a child each, which are equal
    in turn. *)
#[local] Unset Elimination Schemes.
Inductive structEq (m1 m2 : gmap string Node) : Node -> Node -> Prop :=
| structEq_intro n1 n2 :
    Node.type n1 = Node.type n2 ->
    (getChildrenKeys n1 = [] -> getChildrenKeys n2 = [] ->
     getRawValue n1 = getRawValue n2) ->
    (forall key,
        key ∈ getChildrenKeys n1 \/ key ∈ getChildrenKeys n2 ->
        exists c1 c2, getChild m1 n1 key = Some c1 /\ getChild m2 n2 key = Some c2
                      /\ structEq m1 m2 c1 c2) ->
    structEq m1 m2 n1 n2.
#[local] Set Elimination Schemes.

(** [corresponding m1 m2 n1 n2 x1 x2]: [x1] and [x2] are reached from [n1]
    and [n2] along the same keys. *)
Inductive corresponding (m1 m2 : gmap string Node)
  : Node -> Node -> Node -> Node -> Prop :=
| corresponding_here n1 n2 : corresponding m1 m2 n1 n2 n1 n2
| corresponding_child n1 n2 key c1 c2 x1 x2 :
    key ∈ getChildrenKeys n1 \/ key ∈ getChildrenKeys n2 ->
    getChild m1 n1 key = Some c1 -> getChild m2 n2 key = Some c2 ->
    corresponding m1 m2 c1 c2 x1 x2 ->
    corresponding m1 m2 n1 n2 x1 x2.

(** What makes two nodes differ on the spot: their types, a key of either
    under which one of them has no child, or, when neither lists a key,
    their raw values. *)
Definition differHere (m1 m2 : gmap string Node) (x1 x2 : Node) : Prop :=
  Node.type x1 <> Node.type x2
  \/ (exists key,
         (key ∈ getChildrenKeys x1 \/ key ∈ getChildrenKeys x2)
         /\ (getChild m1 x1 key = None \/ getChild m2 x2 key = None))
  \/ (getChildrenKeys x1 = [] /\ getChildrenKeys x2 = []
      /\ getRawValue x1 <> getRawValue x2).

(** The order in which the patch pass visits the nodes from [k] on: source
    order, not descending into a pending node. *)
Fixpoint walk (fuel : nat) (nest : option (gmap string Node))
    (m : gmap string Node) (k : string) : option (list string) :=
  match fuel with
  | O => None
  | S fuel' =>
      match m !! k with
      | None => None
      | Some n =>
          if isNest nest n then Some [k]
          else
            kids ← mapM (fun key => walk fuel' nest m (getChildId n key))
                        (getChildrenKeys n);
            Some (k :: concat kids)
      end
  end.

(** None of the nodes listed is pending. *)
Definition noNest (nest : option (gmap string Node)) (m : gmap string Node)
    (L : list string) : Prop :=
  forall j n, j ∈ L -> m !! j = Some n -> isNest nest n = false.

(** The store after the start of every node listed has moved by [d]. *)
Definition shiftAll (d : Z) (l : list string) (m : gmap string Node)
  : gmap string Node :=
  foldl (fun mm j => alter (shiftStart d) j mm) m l.

(** What the traversals read of a node besides its spans. *)
Definition skeleton (n : Node) : string * list string :=
  (Node.id n, Node.childrenKeys n).

(** The ordering invariant: the children of a node are all present, their
    bound spans are not of negative length, and each ends before the next
    one starts. *)
Definition boundEnd (n : Node) : Z := Node.boundOffset n + Node.boundLength n.

Fixpoint increasing (cs : list Node) : bool :=
  match cs with
  | [] => true
  | c :: rest =>
      (0 <=? Node.boundLength c)
      && match rest with
         | [] => true
         | c' :: _ => boundEnd c <=? Node.boundOffset c'
         end
      && increasing rest
  end.

Definition childrenOf (m : gmap string Node) (n : Node) : option (list Node) :=
  mapM (getChild m n) (getChildrenKeys n).

Definition childrenOrdered (m : gmap string Node) (n : Node) : bool :=
  match childrenOf m n with
  | Some cs => increasing cs
  | None => false
  end.

Definition ordered (m : gmap string Node) : Prop :=
  map_Forall (fun _ n => childrenOrdered m n = true) m.

(** [Innermost m offset n r]: starting at [n], whose bound span contains
    the point, and descending as long as a child's bound span contains it
    too, one arrives at [r], none of whose children contains it. *)
Inductive Innermost (m : gmap string Node) (offset : Z) : Node -> Node -> Prop :=
| inner_here n :
    inBound offset n = true ->
    (forall key c, key ∈ getChildrenKeys n -> getChild m n key = Some c ->
                   inBound offset c = false) ->
    Innermost m offset n n
| inner_step n key c r :
    inBound offset n = true ->
    key ∈ getChildrenKeys n ->
    getChild m n key = Some c ->
    inBound offset c = true ->
    Innermost m offset c r ->
    Innermost m offset n r.


Definition spanOkb (n : Node) : bool :=
  (Node.boundOffset n <=? Node.offset n)
  && (Node.boundOffset n + Node.boundLength n =? Node.offset n + Node.length n).

Definition allSpanOkb (m : gmap string Node) : bool :=
  forallb (fun kn => spanOkb kn.2) (map_to_list m).

Definition noNestb (nest : option (gmap string Node)) (m : gmap string Node)
    (L : list string) : bool :=
  forallb (fun j => match m !! j with
                    | Some n => negb (isNest nest n)
                    | None => true
                    end) L.

(** The keys a [stringifyNode] pass from [k] visits, at most [fuel] levels
    down. *)
Fixpoint reachList (fuel : nat) (m : gmap string Node) (k : string)
  : list string :=
  match fuel with
  | O => [k]
  | S fuel' =>
      match m !! k with
      | Some n =>
          if isIterable n
          then k :: concat ((fun key => reachList fuel' m (getChildId n key))
                              <$> getChildrenKeys n)
          else [k]
      | None => [k]
      end
  end.

(** [below m n x]: [x] is [n] or a node below it. *)
Inductive below (m : gmap string Node) : Node -> Node -> Prop :=
| below_refl n : below m n n
| below_child n key c x :
    key ∈ getChildrenKeys n -> getChild m n key = Some c ->
    below m c x -> below m n x.

(** The bound span of every child lies within the bound span of its
    parent. *)
Definition withinParent (m : gmap string Node) (n : Node) : bool :=
  forallb (fun key => match getChild m n key with
                      | Some c => (Node.boundOffset n <=? Node.boundOffset c)
                                  && (boundEnd c <=? boundEnd n)
                      | None => true
                      end) (getChildrenKeys n).

Definition nested (m : gmap string Node) : Prop :=
  map_Forall (fun _ n => withinParent m n = true) m.





(** Two stores whose nodes agree on what [f] reads of them. *)
Definition agreeOn {A : Type} (f : Node -> A) (m m' : gmap string Node) : Prop :=
  forall j, f <$> m' !! j = f <$> m !! j.

End TreeSpecs.

(** ** The rest of the class: tokens, children, transfer objects *)

(** [s.slice(a, b)]: a negative index counts from the end, both indices
    are clamped to the string, and the result is empty when the end does
    not lie after the start. *)
Definition sliceIndex (s : string) (i : Z) : Z :=
  if i <? 0 then Z.max (slen s + i) 0 else Z.min i (slen s).

Definition jsSlice (s : string) (a b : Z) : string :=
  let from := sliceIndex s a in
  let to := sliceIndex s b in
  String.substring (Z.to_nat from) (Z.to_nat (Z.max (to - from) 0)) s.

Definition getNodeToken (t : Tree) (n : Node) : string :=
  jsSlice (text t) (Node.offset n) (Node.offset n + Node.length n).

(** The closure [getGenTabsFn] returns, with its [cached] array made
    explicit: a call takes the array as it stands and hands it back
    extended.  The loop pushes [cached[i] + tab] for [i] from the last
    index up to [level - 1]; the element read is always the last one. *)
Fixpoint pushTabs (tab : string) (count : nat) (cached : list string)
  : list string :=
  match count with
  | O => cached
  | S count' =>
      pushTabs tab count' (cached ++ [default EmptyString (last cached) +:+ tab])
  end.

Definition genTabsCall (tab : string) (cached : list string) (level : nat)
  : list string * option string :=
  let cached' := pushTabs tab (level - (length cached - 1)) cached in
  (cached', cached' !! level).

(** The array after a series of calls on a fresh closure. *)
Definition genTabsAfter (tabWidth : nat) (levels : list nat) : list string :=
  foldl (fun cached level =>
           (genTabsCall (repeatString " " tabWidth) cached level).1)
        [EmptyString] levels.

(** A [TreeObject] as a JavaScript object: a property that is [None] is
    absent.  The interface requires [nodeMap] and [text]; the temporary
    [{} as TreeObject] of [toObject] has neither yet. *)
Record TreeObject : Type := mkTreeObject {
  objNodeMap : option (gmap string Node);
  objText : option string;
  objErrors : option (list ContextError);
  objVersion : option nat
}.

Definition emptyObject : TreeObject := mkTreeObject None None None None.

(** [new Tree(text)] *)
Definition newTree (text : string) : Tree := mkTree ∅ text None None None.

Definition setNestNodeMap (nest : option (gmap string Node)) (t : Tree) : Tree :=
  mkTree (nodeMap t) (text t) nest (errors t) (version t).

(** What [Tree.assign] needs of its two arguments, a [Tree] or a
    [TreeObject]: reading and writing the four tree properties. *)
Class TreeProperties (A : Type) : Type := {
  getNodeMap : A -> option (gmap string Node);
  getText : A -> option string;
  getErrors : A -> option (list ContextError);
  getVersion : A -> option nat;
  putNodeMap : gmap string Node -> A -> A;
  putText : string -> A -> A;
  putErrors : list ContextError -> A -> A;
  putVersion : nat -> A -> A
}.

Global Instance Tree_properties : TreeProperties Tree := {|
  getNodeMap t := Some (nodeMap t);
  getText t := Some (text t);
  getErrors := errors;
  getVersion := version;
  putNodeMap v t := setNodeMap v t;
  putText v t := setText v t;
  putErrors v t := mkTree (nodeMap t) (text t) (nestNodeMap t) (Some v) (version t);
  putVersion v t := mkTree (nodeMap t) (text t) (nestNodeMap t) (errors t) (Some v)
|}.

Global Instance TreeObject_properties : TreeProperties TreeObject := {|
  getNodeMap := objNodeMap;
  getText := objText;
  getErrors := objErrors;
  getVersion := objVersion;
  putNodeMap v o := mkTreeObject (Some v) (objText o) (objErrors o) (objVersion o);
  putText v o := mkTreeObject (objNodeMap o) (Some v) (objErrors o) (objVersion o);
  putErrors v o := mkTreeObject (objNodeMap o) (objText o) (Some v) (objVersion o);
  putVersion v o := mkTreeObject (objNodeMap o) (objText o) (objErrors o) (Some v)
|}.

(** One round of the loop of [Tree.assign]: the property is copied when it
    is not [undefined] in the source. *)
Definition assignProperty {A V : Type} (value : option V) (put : V -> A -> A)
    (a : A) : A :=
  match value with
  | Some v => put v a
  | None => a
  end.

(** [Tree.assign]: the loop over [treeProperties], in the order of the keys
    of [emptyTree]. *)
Definition assign {A B : Type} `{TreeProperties A, TreeProperties B}
    (a : A) (b : B) : A :=
  assignProperty (getVersion b) putVersion
    (assignProperty (getErrors b) putErrors
       (assignProperty (getText b) putText
          (assignProperty (getNodeMap b) putNodeMap a))).

Definition fromObject (treeObject : TreeObject)
    (nest : option (gmap string Node)) : Tree :=
  setNestNodeMap nest (assign (newTree EmptyString) treeObject).

Definition toObject (t : Tree) : TreeObject := assign emptyObject t.


Section TreeChildren.

Context `{Helpers}.

Definition childrenIds (n : Node) : list string :=
  getChildId n <$> getChildrenKeys n.

(** [childrenNodes]: the non-null assertion is a type annotation only, so
    a child that is missing is an [undefined] entry of the array. *)
Definition childrenNodes (m : gmap string Node) (n : Node) : list (option Node) :=
  getChild m n <$> getChildrenKeys n.

Definition mapChildren {T : Type} (m : gmap string Node) (n : Node)
    (fn : option Node -> string -> nat -> T) : list T :=
  imap (fun i key => fn (getChild m n key) key i) (getChildrenKeys n).

(** What a node holds besides its spans. *)
Definition nonSpan (n : Node) : string * NodeType * option string * list string :=
  (Node.id n, Node.type n, Node.rawValue n, Node.childrenKeys n).

(** The raw token of a node is read off its identifier, type and stored
    raw value, not off its spans or keys. *)
Definition rawStable : Prop :=
  forall n n',
    Node.id n = Node.id n' -> Node.type n = Node.type n' ->
    Node.rawValue n = Node.rawValue n' -> getRawValue n = getRawValue n'.

(** A pass with these options leaves the stored key order alone: either
    the keys it sorts are a copy, or it does not sort. *)
Definition keysKept (options : StringifyOptions) : Prop :=
  keysShared = false \/ sort options = None.

(** Nodes that are not containers list no child. *)
Definition leavesBare (m : gmap string Node) : Prop :=
  map_Forall (fun _ n => isIterable n = false -> getChildrenKeys n = []) m.

Definition leavesBareb (m : gmap string Node) : bool :=
  forallb (fun kn : string * Node =>
             isIterable kn.2 || bool_decide (getChildrenKeys kn.2 = []))
          (map_to_list m).

(** The subtree at [k] is a tree: closed, and a pass from [k] comes to
    each of its nodes once. *)
Definition treeShaped (fuel : nat) (m : gmap string Node) (k : string) : Prop :=
  complete fuel m k = true /\ NoDup (reachList fuel m k).

Definition treeShapedb (fuel : nat) (m : gmap string Node) (k : string) : bool :=
  complete fuel m k && bool_decide (NoDup (reachList fuel m k)).

(** Every node of the map is visited by a pass from [k]. *)
Definition spanning (fuel : nat) (m : gmap string Node) (k : string) : Prop :=
  forall j, is_Some (m !! j) -> j ∈ reachList fuel m k.

Definition spanningb (fuel : nat) (m : gmap string Node) (k : string) : bool :=
  forallb (fun kn : string * Node => bool_decide (kn.1 ∈ reachList fuel m k))
          (map_to_list m).

(** [a] is an initial part of [s]. *)
Definition prefixOf (a s : string) : Prop := exists x, s = a +:+ x.

(** One call on a child as the loop of [stringifyNode] makes it: the
    offset and bound offset passed, the text returned and the store after
    the call. *)
Record Visit : Type := mkVisit {
  vOffset : Z;
  vBound : Z;
  vText : string;
  vStore : gmap string Node
}.

(** The texts of the visits sit in [s], which starts at [off], one after
    the other from [lo] on, each at the offset its call was given and
    behind its bound offset. *)
Fixpoint placed (s : string) (off lo : Z) (vs : list Visit) : Prop :=
  match vs with
  | [] => lo <= off + slen s
  | v :: rest =>
      lo <= vBound v /\ vBound v <= vOffset v
      /\ String.substring (Z.to_nat (vOffset v - off)) (String.length (vText v)) s
         = vText v
      /\ placed s off (vOffset v + slen (vText v)) rest
  end.

(** The options with the tab width replaced. *)
Definition withTabWidth (w : option nat) (options : StringifyOptions)
  : StringifyOptions :=
  mkOptions (format options) (sort options) w (pure options).

(** The compact layout, as the patch pass relies on it.  In a compact text
    the value of a child starts behind its quoted key and the colon in an
    object, and right at the start of its bound span in an array. *)
Definition keyWidth (isObject : bool) (key : string) : Z :=
  if isObject then slen key + 3 else 0.

(** The children under [keys] lie one after the other from [pos] on, with
    one comma between two of them; the result is where the last one
    ends. *)
Fixpoint kidsLaid (m : gmap string Node) (n : Node) (isObject : bool)
    (pos : Z) (keys : list string) : option Z :=
  match keys with
  | [] => Some pos
  | key :: rest =>
      c ← getChild m n key;
      if (Node.boundOffset c =? pos)
         && (Node.offset c =? pos + keyWidth isObject key)
      then match rest with
           | [] => Some (Node.offset c + Node.length c)
           | _ :: _ =>
               kidsLaid m n isObject (Node.offset c + Node.length c + 1) rest
           end
      else None
  end.

(** [laid fuel nest m k]: the spans below [k] are those of a compact text,
    as far as the patch pass reads them.  A pending node is not looked
    into; any other node keeps the offset invariant, a leaf is as long as
    its raw value, and a container is its two brackets around its children
    laid one after the other. *)
Fixpoint laid (fuel : nat) (nest : option (gmap string Node))
    (m : gmap string Node) (k : string) : bool :=
  match fuel with
  | O => false
  | S fuel' =>
      match m !! k with
      | None => false
      | Some n =>
          isNest nest n
          || spanOkb n
             && (if isIterable n then
                   forallb (fun key => laid fuel' nest m (getChildId n key))
                           (getChildrenKeys n)
                   && match kidsLaid m n (bool_decide (Node.type n = TObject))
                              (Node.offset n + 1) (getChildrenKeys n) with
                      | Some e => Node.offset n + Node.length n =? e + 1
                      | None => false
                      end
                 else
                   bool_decide (getChildrenKeys n = [])
                   && (Node.length n
                       =? slen (default EmptyString (getRawValue n))))
      end
  end.

(** What the loop of [stringifyNode] writes in front of the value of a
    child in compact mode. *)
Definition keyPart (isObject : bool) (key : string) : string :=
  if isObject then DQ +:+ key +:+ DQ +:+ ":" else EmptyString.

Fixpoint kidsText (rec : string -> option string) (n : Node) (isObject : bool)
    (keys : list string) : option string :=
  match keys with
  | [] => Some EmptyString
  | key :: rest =>
      c ← rec (getChildId n key);
      r ← kidsText rec n isObject rest;
      Some (keyPart isObject key +:+ c
            +:+ match rest with
                | [] => r
                | _ :: _ => "," +:+ r
                end)
  end.

(** The compact text the spans below [k] stand for: a pending node
    contributes the slice of [txt] at its span, which must lie within
    [txt]; any other node contributes its raw value or its brackets around
    its children. *)
Fixpoint textBefore (fuel : nat) (nest : option (gmap string Node))
    (m : gmap string Node) (txt : string) (k : string) : option string :=
  match fuel with
  | O => None
  | S fuel' =>
      match m !! k with
      | None => None
      | Some n =>
          if isNest nest n then
            if (0 <=? Node.offset n) && (0 <=? Node.length n)
               && (Node.offset n + Node.length n <=? slen txt)
            then Some (jsSlice txt (Node.offset n)
                         (Node.offset n + Node.length n))
            else None
          else if isIterable n then
            let isObject := bool_decide (Node.type n = TObject) in
            body ← kidsText (textBefore fuel' nest m txt) n isObject
                     (getChildrenKeys n);
            Some ((if isObject then "{" else "[") +:+ body
                  +:+ (if isObject then "}" else "]"))
          else Some (default EmptyString (getRawValue n))
      end
  end.

(** The text after the edits, the last one applied first. *)
Definition applyAll (txt : string) (es : list Edit.t) : string :=
  foldr (fun e acc => applyEdit acc e) txt es.

(** The edits come in increasing order, none reaching into the next, all
    inside the stretch from [lo] to [hi]. *)
Fixpoint editsWithin (lo hi : Z) (es : list Edit.t) : Prop :=
  match es with
  | [] => lo <= hi
  | e :: rest =>
      lo <= Edit.offset e /\ 0 <= Edit.length e
      /\ editsWithin (Edit.offset e + Edit.length e) hi rest
  end.

(** Two nodes, or two stores, that hold the same value with the keys of
    objects stored in another order: spans apart, they differ in the order
    of the keys of objects only. *)
Definition reorderedNode (n n' : Node) : Prop :=
  Node.id n = Node.id n' /\ Node.type n = Node.type n'
  /\ Node.rawValue n = Node.rawValue n'
  /\ if bool_decide (Node.type n = TObject)
     then Node.childrenKeys n ≡ₚ Node.childrenKeys n'
     else Node.childrenKeys n = Node.childrenKeys n'.

Definition reordered (m m' : gmap string Node) : Prop :=
  forall j, option_Forall2 reorderedNode (m !! j) (m' !! j).

Definition reorderedNodeb (n n' : Node) : bool :=
  bool_decide (Node.id n = Node.id n')
  && bool_decide (Node.type n = Node.type n')
  && bool_decide (Node.rawValue n = Node.rawValue n')
  && if bool_decide (Node.type n = TObject)
     then bool_decide (merge_sort String.le (Node.childrenKeys n)
                       = merge_sort String.le (Node.childrenKeys n'))
     else bool_decide (Node.childrenKeys n = Node.childrenKeys n').

Definition reorderedb (m m' : gmap string Node) : bool :=
  forallb (fun kn : string * Node =>
             match m' !! kn.1 with
             | Some n' => reorderedNodeb kn.2 n'
             | None => false
             end) (map_to_list m)
  && forallb (fun kn : string * Node => bool_decide (is_Some (m !! kn.1)))
             (map_to_list m').

(** Every node lists the children the store holds for it: a key under
    which [getChild] finds a node is one of its child keys. *)
Definition keysExact (m : gmap string Node) : Prop :=
  forall j n key,
    m !! j = Some n -> is_Some (getChild m n key) -> key ∈ getChildrenKeys n.

End TreeChildren.

(** ** A concrete identifier scheme and sample trees

    Identifiers are serialised paths: the root marker, then one slash and
    key per level.  The raw token of a node is the one stored with it. *)

Module Sample.

(** Modelled from the spec: [@/lib/idgen] and [./node] are not among the
    sources.  Identifiers are serialised paths, the raw token of a node is
    the one stored with it, and [getChildrenKeys] hands out a copy, since
    sorting reorders only the emitted key order, not the stored keys. *)
Definition helpers : Helpers := {|
  rootMarker := "root";
  genChildId parent key := parent +:+ "/" +:+ key;
  getRawValue := Node.rawValue;
  keysShared := false
|}.

#[local] Existing Instance helpers.

(** JSON values, as the parsing front end sees them; a leaf carries its
    type and its raw token. *)
#[local] Unset Elimination Schemes.
Inductive JSON : Type :=
| JLeaf (ty : NodeType) (raw : option string)
| JObject (members : list (string * JSON))
| JArray (items : list JSON).
#[local] Set Elimination Schemes.

Definition JNumber (raw : string) : JSON := JLeaf TNumber (Some raw).
Definition JString (s : string) : JSON := JLeaf TString (Some (DQ +:+ s +:+ DQ)).

(** The node map of a value rooted at identifier [i], spans not yet
    assigned. *)
Fixpoint build (i : string) (j : JSON) (m : gmap string Node)
  : gmap string Node :=
  match j with
  | JLeaf ty raw => <[i := Node.mk i ty raw [] 0 0 0 0]> m
  | JObject members =>
      (fix go (ms : list (string * JSON)) (m : gmap string Node) :=
         match ms with
         | [] => m
         | (k, v) :: r => go r (build (genChildId i k) v m)
         end) members
        (<[i := Node.mk i TObject None (members.*1) 0 0 0 0]> m)
  | JArray items =>
      (fix go (idx : nat) (vs : list JSON) (m : gmap string Node) :=
         match vs with
         | [] => m
         | v :: r => go (S idx) r (build (genChildId i (indexKey idx)) v m)
         end) 0%nat items
        (<[i := Node.mk i TArray None (indexKey <$> seq 0 (length items)) 0 0 0 0]> m)
  end.

Definition unindexed (j : JSON) : Tree :=
  mkTree (build rootMarker j ∅) EmptyString None None None.

(** The tree of a value: its node map, with text and spans as a compact
    [stringify] pass assigns them. *)
Definition treeOf (j : JSON) : Tree :=
  match stringify 100 (unindexed j) defaultOptions with
  | Done (_, t) => t
  | _ => unindexed j
  end.

(** [{"a":1,"b":2}], [{"b":2,"a":1}], [{"a":1}] *)
Definition ab : JSON := JObject [("a", JNumber "1"); ("b", JNumber "2")].
Definition ba : JSON := JObject [("b", JNumber "2"); ("a", JNumber "1")].
Definition a1 : JSON := JObject [("a", JNumber "1")].

(** [{"a":"1"}] *)
Definition a1s : JSON := JObject [("a", JString "1")].

(** [{"b":[1,22],"a":{"x":null}}] *)
Definition mixed : JSON :=
  JObject [("b", JArray [JNumber "1"; JNumber "22"]);
           ("a", JObject [("x", JLeaf TNull (Some "null"))])].

(** [[1,<missing>]]: an array whose second element has no raw value. *)
Definition holed : JSON := JArray [JNumber "1"; JLeaf TNumber None].

(** The outcome of a [stringify] call, when it returns. *)
Definition stringified (t : Tree) (options : StringifyOptions) : string * Tree :=
  match stringify 100 t options with
  | Done r => r
  | _ => (EmptyString, t)
  end.

Definition stringifiedNode (m : gmap string Node) (k : string)
    (options : StringifyOptions) (off boff : Z) : string * gmap string Node :=
  match stringifyNode 100 m k options 0 off boff
          (getGenTabsFn (tabWidthOrDefault options)) with
  | Done r => r
  | _ => (EmptyString, m)
  end.

Definition nodeAt (m : gmap string Node) (k : string) : Node :=
  default (Node.mk EmptyString TNull None [] 0 0 0 0) (m !! k).

Definition compact : StringifyOptions := defaultOptions.
Definition pretty : StringifyOptions := mkOptions true None None false.
Definition sortedAsc : StringifyOptions := mkOptions false (Some Asc) None false.
Definition purely : StringifyOptions := mkOptions false None None true.


(** [a1] as indexed by a pretty-printing pass. *)
Definition a1Pretty : Tree := (stringified (unindexed a1) pretty).2.

(** [a1Pretty] after a compact pass that assigns no spans: the text is
    [{"a":1}], the spans are those of the pretty-printed text but for the
    length of the root. *)
Definition brokenSpan : Tree := (stringified a1Pretty purely).2.


(** [mixed] after the second element of [b] was replaced by [333], the
    array [b] pending, the text still the old one. *)
Definition patched : Tree :=
  mkTree (<["root/b/1" := Node.mk "root/b/1" TNumber (Some "333") [] 8 2 8 2]>
            (nodeMap (treeOf mixed)))
         (text (treeOf mixed))
         (Some {["root/b" := nodeAt (nodeMap (treeOf mixed)) "root/b"]})
         None None.

(** A rank for the identifiers of a node map whose identifiers are
    shorter than 100 characters, and the check that a node map is one. *)
Definition sampleRank (i : string) : nat := Z.to_nat (100 - slen i).

Definition idsOkb (m : gmap string Node) : bool :=
  forallb (fun kn : string * Node =>
             bool_decide (Node.id kn.2 = kn.1) && (slen kn.1 <? 100))
          (map_to_list m).



(** The outcome of the patch pass, when it returns. *)
Definition patchedBy (t : Tree) (options : StringifyOptions) : Tree :=
  match stringifyNestNodes 11 t options with
  | Done t' => t'
  | _ => t
  end.

Definition tabs (options : StringifyOptions) : nat -> string :=
  getGenTabsFn (tabWidthOrDefault options).

(** A tree with a parse error recorded. *)
Definition broken : Tree :=
  mkTree (nodeMap (treeOf a1)) (text (treeOf a1)) None
         (Some [mkContextError "unexpected end of input"]) None.

(** [mixed] as indexed and serialised by a pretty-printing pass. *)
Definition mixedPretty : Tree := (stringified (unindexed mixed) pretty).2.

(** Pretty-printing without assigning spans. *)
Definition prettyPurely : StringifyOptions := mkOptions true None None true.

(** A transfer object with its two required properties only. *)
Definition bareObject : TreeObject :=
  mkTreeObject (Some (nodeMap (treeOf a1))) (Some (text (treeOf a1))) None None.

(** [patched] with the member [x] of [a] replaced by [false] as well, and
    both [b] and [a] pending. *)
Definition patchedTwice : Tree :=
  mkTree (<["root/a/x" := Node.mk "root/a/x" TBoolean (Some "false") [] 0 0 0 0]>
            (nodeMap patched))
         (text patched)
         (Some (<["root/a" := nodeAt (nodeMap patched) "root/a"]>
                  {["root/b" := nodeAt (nodeMap patched) "root/b"]}))
         None None.

(** [mixed] as indexed and serialised by a compact pass. *)
Definition mixedCompact : Tree := (stringified (unindexed mixed) compact).2.

(** What is left of [s] behind [p], if [s] starts with [p]. *)
Fixpoint stripPrefix (p s : string) : option string :=
  match p, s with
  | EmptyString, _ => Some s
  | String a p', String b s' =>
      if bool_decide (a = b) then stripPrefix p' s' else None
  | String _ _, EmptyString => None
  end.

(** The check that a node map lists all the children it holds: an
    identifier that extends the identifier of a node by a key is a child
    of that node. *)
Definition keysExactb (m : gmap string Node) : bool :=
  forallb (fun kn : string * Node =>
             forallb (fun kn' : string * Node =>
                        match stripPrefix (Node.id kn.2 +:+ "/") kn'.1 with
                        | Some key => bool_decide (key ∈ getChildrenKeys kn.2)
                        | None => true
                        end) (map_to_list m))
          (map_to_list m).

End Sample.



(** * Properties *)

Lemma bind_Done {A B : Type} (c : res A) (f : A -> res B) (b : B) :
  c ≫= f = Done b -> exists a, c = Done a /\ f a = Done b.
Proof. destruct c as [a| |]; simpl; intros Hc; [eauto | discriminate..]. Qed.

Lemma Done_bind {A B : Type} (a : A) (f : A -> res B) : Done a ≫= f = f a.
Proof. reflexivity. Qed.

Lemma slen_nonneg (s : string) : 0 <= slen s.
Proof. unfold slen. lia. Qed.

Lemma slen_app (s1 s2 : string) : slen (s1 +:+ s2) = slen s1 + slen s2.
Proof.
  induction s1 as [|a s1 IH]; [reflexivity|].
  change (slen (String a (s1 +:+ s2)) = slen (String a s1) + slen s2).
  unfold slen in *. simpl String.length. lia.
Qed.

Lemma slen_app_le (s1 s2 : string) : slen s1 <= slen (s1 +:+ s2).
Proof. rewrite slen_app. pose proof (slen_nonneg s2). lia. Qed.

Section TreeFacts.

Context `{Helpers}.

(** *** Validity and the lookups on an invalid tree *)

Lemma valid_spec (t : Tree) :
  valid t = true <->
  is_Some (root t) /\ (errors t = None \/ errors t = Some []).
Proof.
  unfold valid, hasError. destruct (root t) as [r|].
  - destruct (errors t) as [[|e l]|]; simpl; split;
      try (intros [_ [?|?]]; congruence); try congruence;
      intros _; (split; [eauto | auto]).
  - split; [discriminate | intros [[? ?] _]; discriminate].
Qed.

(** C8. On a tree that is not valid, [findNodeAtOffset] returns no result
    for every offset and never raises; and a tree is valid exactly when it
    has a root node and no errors. *)
Theorem findNodeAtOffset_invalid (t : Tree) (fuel : nat) (offset : Z) :
  (valid t = true <->
     is_Some (root t) /\ (errors t = None \/ errors t = Some []))
  /\ (valid t = false -> findNodeAtOffset fuel t offset = Done None).
Proof.
  split; [apply valid_spec|].
  intros Hv. unfold findNodeAtOffset. rewrite Hv. reflexivity.
Qed.

(** *** Shapes *)

Lemma sameShapeNode_refl (n : Node) : sameShapeNode n n.
Proof. by split_and!. Qed.

Lemma sameShapeNode_trans (a b c : Node) :
  sameShapeNode a b -> sameShapeNode b c -> sameShapeNode a c.
Proof.
  intros (? & ? & ?) (? & ? & ?). split_and!; [congruence.. | by etrans].
Qed.

Lemma sameShapeNode_sym (a b : Node) : sameShapeNode a b -> sameShapeNode b a.
Proof. intros (? & ? & ?). by split_and!. Qed.

Lemma sameShape_refl (m : gmap string Node) : sameShape m m.
Proof. intros j. destruct (m !! j); constructor. apply sameShapeNode_refl. Qed.

Lemma sameShape_trans (m1 m2 m3 : gmap string Node) :
  sameShape m1 m2 -> sameShape m2 m3 -> sameShape m1 m3.
Proof.
  intros H12 H23 j. specialize (H12 j). specialize (H23 j).
  destruct H12; inversion H23; subst; constructor.
  eauto using sameShapeNode_trans.
Qed.

Lemma sameShape_sym (m1 m2 : gmap string Node) :
  sameShape m1 m2 -> sameShape m2 m1.
Proof.
  intros H12 j. specialize (H12 j).
  destruct H12; constructor. by apply sameShapeNode_sym.
Qed.

Lemma sameShape_insert (m : gmap string Node) (k : string) (n n' : Node) :
  m !! k = Some n -> sameShapeNode n n' -> sameShape m (<[k := n']> m).
Proof.
  intros Hk Hn j. rewrite lookup_insert. case_decide; subst.
  - rewrite Hk. by constructor.
  - apply sameShape_refl.
Qed.

Lemma sameShape_alter (m : gmap string Node) (k : string) (f : Node -> Node) :
  (forall n, m !! k = Some n -> sameShapeNode n (f n)) ->
  sameShape m (alter f k m).
Proof.
  intros Hf j. rewrite lookup_alter. case_decide; subst.
  - destruct (m !! j) as [n|] eqn:Hj; constructor. by apply Hf.
  - apply sameShape_refl.
Qed.

Lemma sameShape_lookup (m m' : gmap string Node) (j : string) (n : Node) :
  sameShape m m' -> m !! j = Some n ->
  exists n', m' !! j = Some n' /\ sameShapeNode n n'.
Proof.
  intros Hs Hj. specialize (Hs j). rewrite Hj in Hs.
  inversion Hs; subst. eauto.
Qed.

Lemma sameShape_getChildId (n n' : Node) (key : string) :
  sameShapeNode n n' -> getChildId n key = getChildId n' key.
Proof. intros (Hid & _). unfold getChildId. by rewrite Hid. Qed.

Lemma reachable_shape (m m' : gmap string Node) (k j : string) :
  sameShape m m' -> reachable m k j -> reachable m' k j.
Proof.
  intros Hs Hr. induction Hr as [k|k n key j Hk Hit Hkey _ IH].
  - constructor.
  - destruct (sameShape_lookup _ _ _ _ Hs Hk) as (n' & Hk' & Hn).
    eapply reach_child; [exact Hk'| | |].
    + destruct Hn as (_ & Hty & _). unfold isIterable in *. by rewrite <- Hty.
    + unfold getChildrenKeys in *. destruct Hn as (_ & _ & Hp).
      by rewrite <- Hp.
    + by rewrite <- (sameShape_getChildId _ _ _ Hn).
Qed.

Lemma reachable_trans (m : gmap string Node) (a b c : string) :
  reachable m a b -> reachable m b c -> reachable m a c.
Proof.
  intros Hab Hbc. induction Hab; [done|].
  eapply reach_child; eauto.
Qed.

Lemma complete_shape (fuel : nat) (m m' : gmap string Node) (k : string) :
  sameShape m m' -> complete fuel m k = true -> complete fuel m' k = true.
Proof.
  intros Hs. revert k. induction fuel as [|fuel IH]; intros k; simpl; [done|].
  destruct (m !! k) as [n|] eqn:Hk; [|done].
  destruct (sameShape_lookup _ _ _ _ Hs Hk) as (n' & Hk' & Hn).
  rewrite Hk'. rewrite !forallb_forall. intros Hall key Hin.
  rewrite <- (sameShape_getChildId _ _ _ Hn). apply IH, Hall.
  unfold getChildrenKeys in *. destruct Hn as (_ & _ & Hp).
  apply list_elem_of_In. rewrite Hp. by apply list_elem_of_In.
Qed.

Lemma complete_mono (fuel : nat) (m : gmap string Node) (k : string) :
  complete fuel m k = true -> complete (S fuel) m k = true.
Proof.
  revert k. induction fuel as [|fuel IH]; intros k; [done|].
  intros Hc. simpl in Hc. change (complete (S (S fuel)) m k) with
    (match m !! k with
     | None => false
     | Some n => forallb (fun key => complete (S fuel) m (getChildId n key))
                   (getChildrenKeys n)
     end).
  destruct (m !! k) as [n|]; [|done].
  rewrite forallb_forall in *. intros key Hin. apply IH, Hc, Hin.
Qed.

Lemma complete_child (fuel : nat) (m : gmap string Node) (k : string)
    (n : Node) (key : string) :
  complete (S fuel) m k = true -> m !! k = Some n ->
  key ∈ getChildrenKeys n -> complete fuel m (getChildId n key) = true.
Proof.
  simpl. intros Hc Hk Hin. rewrite Hk in Hc.
  rewrite forallb_forall in Hc. apply Hc. by apply list_elem_of_In.
Qed.

Lemma complete_lookup (fuel : nat) (m : gmap string Node) (k : string) :
  complete fuel m k = true -> is_Some (m !! k).
Proof. destruct fuel; simpl; [done|]. destruct (m !! k); eauto; done. Qed.

(** A complete subtree does not contain its own root again. *)
Lemma complete_reachable (fuel : nat) (m : gmap string Node) (k j : string) :
  complete fuel m k = true -> reachable m k j -> complete fuel m j = true.
Proof.
  intros Hc Hr. revert fuel Hc.
  induction Hr as [k|k n key j Hk Hit Hkey _ IH]; intros fuel Hc; [done|].
  destruct fuel as [|fuel]; [done|].
  apply complete_mono, IH. eapply complete_child; eauto.
Qed.

Lemma complete_acyclic (fuel : nat) (m : gmap string Node) (k : string)
    (n : Node) (key : string) :
  complete fuel m k = true -> m !! k = Some n ->
  key ∈ getChildrenKeys n -> ~ reachable m (getChildId n key) k.
Proof.
  revert k n key. induction fuel as [|fuel IH]; intros k n key Hc Hk Hkey Hr; [done|].
  pose proof (complete_child _ _ _ _ _ Hc Hk Hkey) as Hchild.
  pose proof (complete_reachable _ _ _ _ Hchild Hr) as Hk'.
  eapply (IH k n key); eauto.
Qed.

(** *** The stringifier: loop rules *)

Lemma sortKeys_Permutation (o : option SortOrder) (keys : list string) :
  sortKeys o keys ≡ₚ keys.
Proof.
  destruct o as [[|]|]; simpl; [| |done].
  - apply merge_sort_Permutation.
  - rewrite reverse_Permutation. apply merge_sort_Permutation.
Qed.

(** A property of the store that each call on a child carries over the
    keys still to come is carried over the whole loop. *)
Lemma stringifyChildren_inv (Inv : list string -> gmap string Node -> Prop)
    (rec : string -> Z -> Z -> gmap string Node -> res (string * gmap string Node))
    (n : Node) (isFormat isObject : bool) (genTabs : nat -> string)
    (lvl : nat) (off : Z) :
  (forall key rest m co cbo c m',
      cbo <= co -> Inv (key :: rest) m ->
      rec (getChildId n key) co cbo m = Done (c, m') -> Inv rest m') ->
  forall keys s m s' m',
    Inv keys m ->
    stringifyChildren rec n isFormat isObject genTabs lvl off keys s m
      = Done (s', m') ->
    Inv [] m'.
Proof.
  intros Hstep keys. induction keys as [|key rest IH]; intros s m s' m' HI Hrun.
  - simpl in Hrun. by simplify_eq.
  - simpl in Hrun. apply bind_Done in Hrun as ([c m1] & Hrec & Hrun).
    eapply IH; [|exact Hrun]. eapply Hstep; [|exact HI|exact Hrec].
    destruct isObject; [|lia].
    pose proof (slen_app_le (if isFormat
                             then s +:+ LF +:+ genTabs (S lvl) else s)
                  (DQ +:+ key +:+ DQ +:+ ":" +:+ (if isFormat then " " else EmptyString))).
    lia.
Qed.

Lemma stringifyChildren_total (Inv : list string -> gmap string Node -> Prop)
    (rec : string -> Z -> Z -> gmap string Node -> res (string * gmap string Node))
    (n : Node) (isFormat isObject : bool) (genTabs : nat -> string)
    (lvl : nat) (off : Z) :
  (forall key rest m co cbo,
      Inv (key :: rest) m ->
      exists c m', rec (getChildId n key) co cbo m = Done (c, m')
                   /\ Inv rest m') ->
  forall keys s m,
    Inv keys m ->
    exists s' m',
      stringifyChildren rec n isFormat isObject genTabs lvl off keys s m
        = Done (s', m') /\ Inv [] m'.
Proof.
  intros Hstep keys. induction keys as [|key rest IH]; intros s m HI.
  - simpl. eauto.
  - simpl.
    edestruct Hstep as (c & m1 & Hrec & HI1); [exact HI|].
    rewrite Hrec. simpl. apply IH, HI1.
Qed.

(** *** The stringifier: shape *)

Lemma stringifyNode_shape (fuel : nat) :
  forall m k options lvl off boff gt s m',
    stringifyNode fuel m k options lvl off boff gt = Done (s, m') ->
    sameShape m m'.
Proof.
  induction fuel as [|fuel IH]; intros m k options lvl off boff gt s m' Hrun;
    [discriminate|].
  simpl in Hrun. destruct (m !! k) as [n|] eqn:Hk; [|discriminate].
  destruct (isIterable n) eqn:Hit; simpl in Hrun.
  - apply bind_Done in Hrun as ([s2 m2] & Hloop & Hfin).
    set (keys := if bool_decide (Node.type n = TObject)
                 then sortKeys (sort options) (getChildrenKeys n)
                 else getChildrenKeys n) in *.
    assert (Hkeys : keys ≡ₚ Node.childrenKeys n).
    { subst keys. case_bool_decide; [apply sortKeys_Permutation|done]. }
    match type of Hloop with
    | stringifyChildren _ _ _ _ _ _ _ _ _ ?m1 = _ =>
        assert (Hs1 : sameShape m m1)
    end.
    { assert (Hs0 : sameShape m
                (if pure options then m
                 else <[k := Node.setOffset off (Node.setBoundOffset boff n)]> m)).
      { destruct (pure options); [apply sameShape_refl|].
        eapply sameShape_insert; [exact Hk|]. by split_and!. }
      destruct keysShared; [|exact Hs0].
      eapply sameShape_trans; [exact Hs0|].
      apply sameShape_alter. intros x Hx. split_and!; try done. simpl.
      rewrite Hkeys. destruct (pure options).
      - by simplify_eq.
      - rewrite lookup_insert_eq in Hx. by simplify_eq. }
    assert (Hs2 : sameShape m m2).
    { eapply (stringifyChildren_inv (fun _ mi => sameShape m mi));
        [|exact Hs1|exact Hloop].
      intros key rest mi co cbo c mi' _ Hmi Hrec.
      eapply sameShape_trans; [exact Hmi|]. eapply IH, Hrec. }
    destruct (pure options); simplify_eq; [done|].
    eapply sameShape_trans; [exact Hs2|].
    apply sameShape_alter. intros x _. by split_and!.
  - destruct (pure options); simplify_eq; [apply sameShape_refl|].
    eapply sameShape_insert; [exact Hk|]. by split_and!.
Qed.

(** *** The stringifier: what a pass leaves alone *)

Lemma agreeOn_refl {A : Type} (f : Node -> A) (m : gmap string Node) :
  agreeOn f m m.
Proof. by intros j. Qed.

Lemma agreeOn_trans {A : Type} (f : Node -> A) (m1 m2 m3 : gmap string Node) :
  agreeOn f m1 m2 -> agreeOn f m2 m3 -> agreeOn f m1 m3.
Proof. intros H12 H23 j. by rewrite H23, H12. Qed.

Lemma agreeOn_insert {A : Type} (f : Node -> A) (m : gmap string Node)
    (k : string) (n n' : Node) :
  m !! k = Some n -> f n' = f n -> agreeOn f m (<[k := n']> m).
Proof.
  intros Hk Hf j. rewrite lookup_insert. case_decide; subst; [|done].
  rewrite Hk. simpl. by rewrite Hf.
Qed.

Lemma agreeOn_alter {A : Type} (f : Node -> A) (m : gmap string Node)
    (k : string) (g : Node -> Node) :
  (forall n, f (g n) = f n) -> agreeOn f m (alter g k m).
Proof.
  intros Hg j. rewrite lookup_alter. case_decide; subst; [|done].
  destruct (m !! j); simpl; [|done]. by rewrite Hg.
Qed.

(** Whatever the span setters leave alone is left alone by a pass that
    assigns spans, and by a pure pass in any case; likewise for the key
    setter and a pass that reorders shared keys. *)
Lemma stringifyNode_agreeOn {A : Type} (f : Node -> A) (options : StringifyOptions) :
  (pure options = false ->
   forall n v, f (Node.setOffset v n) = f n /\ f (Node.setLength v n) = f n
               /\ f (Node.setBoundOffset v n) = f n
               /\ f (Node.setBoundLength v n) = f n) ->
  (keysShared = true -> forall n v, f (Node.setChildrenKeys v n) = f n) ->
  forall fuel m k lvl off boff gt s m',
    stringifyNode fuel m k options lvl off boff gt = Done (s, m') ->
    agreeOn f m m'.
Proof.
  intros Hspan Hkeys fuel.
  assert (Hset : pure options = false ->
            (forall n v, f (Node.setOffset v n) = f n)
            /\ (forall n v, f (Node.setLength v n) = f n)
            /\ (forall n v, f (Node.setBoundOffset v n) = f n)
            /\ (forall n v, f (Node.setBoundLength v n) = f n)).
  { intros Hp. split_and!; intros n v; by apply Hspan. }
  induction fuel as [|fuel IH]; intros m k lvl off boff gt s m' Hrun;
    [discriminate|].
  simpl in Hrun. destruct (m !! k) as [n|] eqn:Hk; [|discriminate].
  destruct (isIterable n) eqn:Hit; simpl in Hrun.
  - apply bind_Done in Hrun as ([s2 m2] & Hloop & Hfin).
    match type of Hloop with
    | stringifyChildren _ _ _ _ _ _ _ _ _ ?m1 = _ =>
        assert (Hs1 : agreeOn f m m1)
    end.
    { eapply agreeOn_trans with
        (m2 := if pure options then m
               else <[k := Node.setOffset off (Node.setBoundOffset boff n)]> m).
      - destruct (pure options) eqn:Hp; [apply agreeOn_refl|].
        destruct (Hset eq_refl) as (H1 & H2 & H3 & H4).
        eapply agreeOn_insert; [exact Hk|]. by rewrite H1, H3.
      - destruct keysShared eqn:Hsh; [|apply agreeOn_refl].
        apply agreeOn_alter. intros x. by apply Hkeys. }
    assert (Hs2 : agreeOn f m m2).
    { eapply (stringifyChildren_inv (fun _ mi => agreeOn f m mi));
        [|exact Hs1|exact Hloop].
      intros key rest mi co cbo c mi' _ Hmi Hrec.
      eapply agreeOn_trans; [exact Hmi|]. eapply IH, Hrec. }
    destruct (pure options) eqn:Hp; simplify_eq; [done|].
    destruct (Hset eq_refl) as (H1 & H2 & H3 & H4).
    eapply agreeOn_trans; [exact Hs2|].
    apply agreeOn_alter. intros x. unfold computeAndSetBoundLength.
    by rewrite H4, H2.
  - destruct (pure options) eqn:Hp; simplify_eq; [apply agreeOn_refl|].
    destruct (Hset eq_refl) as (H1 & H2 & H3 & H4).
    eapply agreeOn_insert; [exact Hk|]. unfold computeAndSetBoundLength.
    by rewrite H4, H3, H1, H2.
Qed.

(** *** The stringifier: unfolding, termination, frame *)

Lemma stringifyNode_container (fuel : nat) (m : gmap string Node) (k : string)
    (n : Node) (options : StringifyOptions) (lvl : nat) (off boff : Z)
    (gt : nat -> string) :
  m !! k = Some n -> isIterable n = true ->
  stringifyNode (S fuel) m k options lvl off boff gt =
  '(s, m2) ← stringifyChildren
       (fun ck co cbo mm => stringifyNode fuel mm ck options (S lvl) co cbo gt)
       n (format options) (bool_decide (Node.type n = TObject)) gt lvl off
       (keysOf options n)
       (if bool_decide (Node.type n = TObject) then "{" else "[")
       (prepared options off boff k n m);
  let stringified :=
    s +:+ (if bool_decide (Node.type n = TObject) then "}" else "]") in
  if pure options then Done (stringified, m2)
  else Done (stringified,
             alter (fun x => computeAndSetBoundLength
                               (Node.setLength (slen stringified) x)) k m2).
Proof. intros Hk Hit. simpl. rewrite Hk, Hit. reflexivity. Qed.

Lemma stringifyNode_leaf (fuel : nat) (m : gmap string Node) (k : string)
    (n : Node) (options : StringifyOptions) (lvl : nat) (off boff : Z)
    (gt : nat -> string) :
  m !! k = Some n -> isIterable n = false ->
  stringifyNode (S fuel) m k options lvl off boff gt =
  let stringified := default EmptyString (getRawValue n) in
  if pure options then Done (stringified, m)
  else Done (stringified,
             <[k := computeAndSetBoundLength
                      (Node.setBoundOffset boff
                         (Node.setOffset off
                            (Node.setLength (slen stringified) n)))]> m).
Proof. intros Hk Hit. simpl. rewrite Hk, Hit. reflexivity. Qed.

Lemma keysOf_Permutation (options : StringifyOptions) (n : Node) :
  keysOf options n ≡ₚ Node.childrenKeys n.
Proof.
  unfold keysOf. case_bool_decide; [apply sortKeys_Permutation|done].
Qed.

Lemma keysOf_elem (options : StringifyOptions) (n : Node) (key : string) :
  key ∈ keysOf options n <-> key ∈ getChildrenKeys n.
Proof. unfold getChildrenKeys. by rewrite keysOf_Permutation. Qed.

Lemma prepared_ne (options : StringifyOptions) (off boff : Z) (k j : string)
    (n : Node) (m : gmap string Node) :
  j <> k -> prepared options off boff k n m !! j = m !! j.
Proof.
  intros Hne. unfold prepared.
  destruct keysShared; [rewrite lookup_alter_ne by done|];
    destruct (pure options); try done; by rewrite lookup_insert_ne.
Qed.

Lemma prepared_eq (options : StringifyOptions) (off boff : Z) (k : string)
    (n : Node) (m : gmap string Node) :
  m !! k = Some n ->
  exists x, prepared options off boff k n m !! k = Some x
            /\ sameShapeNode n x
            /\ (pure options = false ->
                Node.offset x = off /\ Node.boundOffset x = boff)
            /\ (pure options = true -> Node.spans x = Node.spans n).
Proof.
  intros Hk. unfold prepared.
  pose proof (keysOf_Permutation options n) as Hperm.
  destruct keysShared; [rewrite lookup_alter_eq|];
    destruct (pure options); rewrite ?lookup_insert_eq, ?Hk; simpl;
    eexists; (split; [reflexivity|]); split_and!; try done.
Qed.

Lemma prepared_shape (options : StringifyOptions) (off boff : Z) (k : string)
    (n : Node) (m : gmap string Node) :
  m !! k = Some n -> sameShape m (prepared options off boff k n m).
Proof.
  intros Hk j. destruct (decide (j = k)) as [->|Hne].
  - destruct (prepared_eq options off boff k n m Hk) as (x & -> & Hx & _).
    rewrite Hk. by constructor.
  - rewrite prepared_ne by done. apply sameShape_refl.
Qed.

(** On a complete subtree the stringifier returns. *)
Lemma stringifyNode_total (fuel : nat) :
  forall m k options lvl off boff gt,
    complete fuel m k = true ->
    exists s m', stringifyNode fuel m k options lvl off boff gt = Done (s, m').
Proof.
  induction fuel as [|fuel IH]; intros m k options lvl off boff gt Hc;
    [discriminate|].
  destruct (complete_lookup _ _ _ Hc) as [n Hk].
  destruct (isIterable n) eqn:Hit.
  - rewrite (stringifyNode_container _ _ _ n) by done.
    edestruct (stringifyChildren_total
                 (fun rem mi => sameShape m mi
                                /\ forall key, key ∈ rem -> key ∈ getChildrenKeys n))
      as (s2 & m2 & -> & _).
    + intros key rest mi co cbo [Hsh Hsub].
      assert (Hkey : key ∈ getChildrenKeys n) by (apply Hsub; left).
      pose proof (complete_child _ _ _ _ _ Hc Hk Hkey) as Hcc.
      apply (complete_shape _ _ _ _ Hsh) in Hcc.
      destruct (IH mi (getChildId n key) options (S lvl) co cbo gt Hcc)
        as (c & mi' & Hrec).
      exists c, mi'. split; [exact Hrec|]. split.
      * eapply sameShape_trans; [exact Hsh|]. eapply stringifyNode_shape, Hrec.
      * intros key' Hin. apply Hsub. by right.
    + split; [by apply prepared_shape|]. intros key. by rewrite keysOf_elem.
    + simpl. destruct (pure options); eauto.
  - rewrite (stringifyNode_leaf _ _ _ n) by done.
    simpl. destruct (pure options); eauto.
Qed.

(** A pass from [k] writes only to the nodes reachable from [k]. *)
Lemma stringifyNode_frame (fuel : nat) :
  forall m k options lvl off boff gt s m' j,
    stringifyNode fuel m k options lvl off boff gt = Done (s, m') ->
    ~ reachable m k j -> m' !! j = m !! j.
Proof.
  induction fuel as [|fuel IH]; intros m k options lvl off boff gt s m' j Hrun Hnr;
    [discriminate|].
  assert (Hne : j <> k) by (intros ->; apply Hnr; constructor).
  destruct (m !! k) as [n|] eqn:Hk; [|simpl in Hrun; by rewrite Hk in Hrun].
  destruct (isIterable n) eqn:Hit.
  - rewrite (stringifyNode_container _ _ _ n) in Hrun by done.
    apply bind_Done in Hrun as ([s2 m2] & Hloop & Hfin).
    assert (Hinv : sameShape m m2 /\ m2 !! j = m !! j
                   /\ forall key, key ∈ @nil string -> key ∈ getChildrenKeys n).
    { eapply (stringifyChildren_inv
                (fun rem mi => sameShape m mi /\ mi !! j = m !! j
                   /\ forall key, key ∈ rem -> key ∈ getChildrenKeys n));
        [| |exact Hloop].
      - intros key rest mi co cbo c mi' _ (Hsh & Hj & Hsub) Hrec.
        split_and!.
        + eapply sameShape_trans; [exact Hsh|]. eapply stringifyNode_shape, Hrec.
        + rewrite <- Hj. eapply IH; [exact Hrec|].
          intros Hr. apply Hnr.
          eapply reach_child; [exact Hk|exact Hit|apply Hsub; left|].
          eapply reachable_shape; [apply sameShape_sym, Hsh|exact Hr].
        + intros key' Hin. apply Hsub. by right.
      - split_and!; [by apply prepared_shape|by apply prepared_ne|].
        intros key. by rewrite keysOf_elem. }
    destruct Hinv as (_ & Hj & _). simpl in Hfin.
    destruct (pure options); simplify_eq; [done|].
    by rewrite lookup_alter_ne.
  - rewrite (stringifyNode_leaf _ _ _ n) in Hrun by done. simpl in Hrun.
    destruct (pure options); simplify_eq; [done|].
    by rewrite lookup_insert_ne.
Qed.

(** *** The stringifier: the spans it assigns *)

Lemma stringifyNode_root (fuel : nat) (m : gmap string Node) (k : string)
    (options : StringifyOptions) (lvl : nat) (off boff : Z)
    (gt : nat -> string) (s : string) (m' : gmap string Node) :
  pure options = false ->
  stringifyNode fuel m k options lvl off boff gt = Done (s, m') ->
  exists n', m' !! k = Some n' /\ Node.length n' = slen s
    /\ Node.boundOffset n' + Node.boundLength n' = Node.offset n' + Node.length n'
    /\ (complete fuel m k = true ->
        Node.offset n' = off /\ Node.boundOffset n' = boff).
Proof.
  intros Hp Hrun. destruct fuel as [|fuel]; [discriminate|].
  destruct (m !! k) as [n|] eqn:Hk; [|simpl in Hrun; by rewrite Hk in Hrun].
  destruct (isIterable n) eqn:Hit.
  - rewrite (stringifyNode_container _ _ _ n) in Hrun by done.
    apply bind_Done in Hrun as ([s2 m2] & Hloop & Hfin).
    simpl in Hfin. rewrite Hp in Hfin. simplify_eq.
    assert (Hinv : sameShape m m2
              /\ (complete (S fuel) m k = true ->
                  m2 !! k = prepared options off boff k n m !! k)
              /\ forall key, key ∈ @nil string -> key ∈ getChildrenKeys n).
    { eapply (stringifyChildren_inv
                (fun rem mi => sameShape m mi
                   /\ (complete (S fuel) m k = true ->
                       mi !! k = prepared options off boff k n m !! k)
                   /\ forall key, key ∈ rem -> key ∈ getChildrenKeys n));
        [| |exact Hloop].
      - intros key rest mi co cbo c mi' _ (Hsh & Hroot & Hsub) Hrec.
        split_and!.
        + eapply sameShape_trans; [exact Hsh|]. eapply stringifyNode_shape, Hrec.
        + intros Hc. rewrite <- (Hroot Hc).
          eapply stringifyNode_frame; [exact Hrec|].
          intros Hr. eapply (complete_acyclic _ _ _ _ key Hc Hk).
          * apply Hsub. left.
          * eapply reachable_shape; [apply sameShape_sym, Hsh|exact Hr].
        + intros key' Hin. apply Hsub. by right.
      - split_and!; [by apply prepared_shape|done|].
        intros key. by rewrite keysOf_elem. }
    destruct Hinv as (Hsh & Hroot & _).
    destruct (sameShape_lookup _ _ _ _ Hsh Hk) as (x & Hx & _).
    rewrite lookup_alter_eq, Hx. simpl. eexists. split; [reflexivity|].
    simpl. split_and!; [done|lia|].
    intros Hc. specialize (Hroot Hc).
    destruct (prepared_eq options off boff k n m Hk) as (y & Hy & _ & Hoff & _).
    rewrite Hy, Hx in Hroot. simplify_eq. by apply Hoff.
  - rewrite (stringifyNode_leaf _ _ _ n) in Hrun by done. simpl in Hrun.
    rewrite Hp in Hrun. simplify_eq.
    rewrite lookup_insert_eq. eexists. split; [reflexivity|].
    simpl. split_and!; [done|lia|done].
Qed.

Lemma keepsOk_refl (m : gmap string Node) : keepsOk m m.
Proof. intros j n Hj. eauto. Qed.

Lemma keepsOk_trans (m1 m2 m3 : gmap string Node) :
  keepsOk m1 m2 -> keepsOk m2 m3 -> keepsOk m1 m3.
Proof.
  intros H12 H23 j n3 Hj.
  destruct (H23 _ _ Hj) as (n2 & Hj2 & Ha & Hb).
  destruct (H12 _ _ Hj2) as (n1 & Hj1 & Hc & Hd). eauto 10.
Qed.

(** A pass that assigns spans from a start with [boff <= off] keeps the
    offset invariant wherever it held and establishes it at every node it
    visits. *)
Lemma stringifyNode_spanOk (fuel : nat) :
  forall m k options lvl off boff gt s m',
    pure options = false -> boff <= off ->
    stringifyNode fuel m k options lvl off boff gt = Done (s, m') ->
    keepsOk m m'
    /\ forall j n', reachable m k j -> m' !! j = Some n' -> spanOk n'.
Proof.
  induction fuel as [|fuel IH];
    intros m k options lvl off boff gt s m' Hp Hle Hrun; [discriminate|].
  destruct (m !! k) as [n|] eqn:Hk; [|simpl in Hrun; by rewrite Hk in Hrun].
  destruct (isIterable n) eqn:Hit.
  - rewrite (stringifyNode_container _ _ _ n) in Hrun by done.
    apply bind_Done in Hrun as ([s2 m2] & Hloop & Hfin).
    simpl in Hfin. rewrite Hp in Hfin. simplify_eq.
    set (Inv := fun (rem : list string) (mi : gmap string Node) =>
      sameShape m mi
      /\ (forall j ni, mi !! j = Some ni ->
            exists nj, m !! j = Some nj
              /\ (j <> k -> (startOk nj -> startOk ni) /\ (spanOk nj -> spanOk ni)))
      /\ (exists x, mi !! k = Some x /\ startOk x)
      /\ (exists processed, keysOf options n = processed ++ rem
            /\ forall key j ni, key ∈ processed ->
                  reachable m (getChildId n key) j -> j <> k ->
                  mi !! j = Some ni -> spanOk ni)).
    assert (Hinv : Inv [] m2).
    { eapply (stringifyChildren_inv Inv); [| |exact Hloop].
      - intros key rest mi co cbo c mi' Hcle (Hsh & Hkeep & (x & Hx & Hxs) & (pr & Hpr & Hdone)) Hrec.
        destruct (IH _ _ _ _ _ _ _ _ _ Hp Hcle Hrec) as (Hk1 & Hr1).
        pose proof (stringifyNode_shape _ _ _ _ _ _ _ _ _ _ Hrec) as Hsh1.
        split_and!.
        + eapply sameShape_trans; eauto.
        + intros j ni' Hj.
          destruct (Hk1 _ _ Hj) as (ni & Hji & Ha & Hb).
          destruct (Hkeep _ _ Hji) as (nj & Hjm & Hc).
          exists nj. split; [done|]. intros Hne.
          destruct (Hc Hne). split; auto.
        + destruct (sameShape_lookup _ _ _ _ Hsh1 Hx) as (x' & Hx' & _).
          exists x'. split; [done|].
          destruct (Hk1 _ _ Hx') as (x0 & Hx0 & Ha & _).
          rewrite Hx in Hx0. simplify_eq. auto.
        + exists (pr ++ [key]). split; [by rewrite <- app_assoc|].
          intros key' j ni' Hin Hr Hne Hj.
          apply elem_of_app in Hin as [Hin|Hin].
          * destruct (Hk1 _ _ Hj) as (ni & Hji & _ & Hb).
            apply Hb. eapply Hdone; eauto.
          * apply list_elem_of_singleton in Hin as ->.
            eapply Hr1; [|exact Hj].
            eapply reachable_shape; [exact Hsh|exact Hr].
      - destruct (prepared_eq options off boff k n m Hk) as (x & Hx & _ & Hoff & _).
        split_and!.
        + by apply prepared_shape.
        + intros j ni Hj. destruct (decide (j = k)) as [->|Hne].
          * exists n. split; [done|]. by intros [].
          * rewrite prepared_ne in Hj by done. eauto.
        + exists x. split; [done|]. unfold startOk.
          destruct (Hoff Hp) as [-> ->]. done.
        + exists []. split; [done|]. intros key j ni Hin. by apply elem_of_nil in Hin. }
    unfold Inv in Hinv. clear Inv.
    destruct Hinv as (Hsh & Hkeep & (x & Hx & Hxs) & (pr & Hpr & Hdone)).
    assert (Hpr' : keysOf options n = pr) by (rewrite Hpr; apply app_nil_r).
    clear Hpr.
    assert (Hroot : forall n', alter
              (fun x0 => computeAndSetBoundLength
                 (Node.setLength (slen (s2 +:+ (if bool_decide (Node.type n = TObject) then "}" else "]"))) x0))
              k m2 !! k = Some n' -> spanOk n').
    { intros n'. rewrite lookup_alter_eq, Hx. simpl. intros [= <-].
      unfold spanOk, startOk in *. simpl. lia. }
    split.
    + intros j n' Hj. destruct (decide (j = k)) as [->|Hne].
      * exists n. split; [done|]. specialize (Hroot _ Hj).
        split; [intros _; apply Hroot | done].
      * rewrite lookup_alter_ne in Hj by done.
        destruct (Hkeep _ _ Hj) as (nj & Hjm & Hc). exists nj. split; [done|].
        destruct (Hc Hne). auto.
    + intros j n' Hr Hj. destruct (decide (j = k)) as [->|Hne]; [by apply Hroot|].
      rewrite lookup_alter_ne in Hj by done.
      inversion Hr as [|k0 n0 key j0 Hk0 Hit0 Hkey Hr0]; subst; [done|].
      rewrite Hk in Hk0. simplify_eq.
      eapply Hdone; [|exact Hr0|exact Hne|exact Hj].
      by apply keysOf_elem.
  - rewrite (stringifyNode_leaf _ _ _ n) in Hrun by done. simpl in Hrun.
    rewrite Hp in Hrun. simplify_eq.
    assert (Hroot : forall n', <[k := computeAndSetBoundLength
              (Node.setBoundOffset boff
                 (Node.setOffset off
                    (Node.setLength (slen (default EmptyString (getRawValue n))) n)))]> m !! k
              = Some n' -> spanOk n').
    { intros n'. rewrite lookup_insert_eq. intros [= <-].
      unfold spanOk. simpl. lia. }
    split.
    + intros j n' Hj. destruct (decide (j = k)) as [->|Hne].
      * exists n. split; [done|]. specialize (Hroot _ Hj).
        split; [intros _; apply Hroot | done].
      * rewrite lookup_insert_ne in Hj by done. eauto.
    + intros j n' Hr Hj.
      inversion Hr as [|k0 n0 key j0 Hk0 Hit0 Hkey Hr0]; subst; [by apply Hroot|].
      rewrite Hk in Hk0. simplify_eq. congruence.
Qed.

(** *** The patch engine: loop rule and the offset invariant *)

Lemma fixChildren_inv (Inv : list string -> PatchState -> Prop)
    (rec : string -> PatchState -> res PatchState) (n : Node) :
  (forall key rest st st',
      Inv (key :: rest) st -> rec (getChildId n key) st = Done st' ->
      Inv rest st') ->
  forall keys st st',
    Inv keys st -> fixChildren rec n keys st = Done st' -> Inv [] st'.
Proof.
  intros Hstep keys. induction keys as [|key rest IH]; intros st st' HI Hrun.
  - simpl in Hrun. by simplify_eq.
  - simpl in Hrun. apply bind_Done in Hrun as (st1 & Hrec & Hrun).
    eapply IH; [|exact Hrun]. eapply Hstep; eauto.
Qed.

Lemma spanOk_spans (n n' : Node) :
  Node.spans n' = Node.spans n -> spanOk n -> spanOk n'.
Proof.
  unfold Node.spans, spanOk. intros [= -> -> -> ->]. done.
Qed.

Lemma fixOffset_S (fuel : nat) (nest : option (gmap string Node))
    (options : StringifyOptions) (k : string) (st : PatchState) :
  fixOffset (S fuel) nest options k st =
  match store st !! k with
  | None => Raise
  | Some n =>
      if isNest nest n then
        '(content, m') ← stringifyNode fuel (store st) k options 0
             (Node.offset n + acc st) (Node.boundOffset n + acc st)
             (getGenTabsFn (tabWidthOrDefault options));
        let edit := Edit.mk (Node.offset n) (Node.length n) content in
        Done (mkPatch m' (acc st + (slen content - Edit.length edit))
                      (edits st ++ [edit]))
      else
        let m1 := <[k := shiftStart (acc st) n]> (store st) in
        let old := acc st in
        st' ← fixChildren (fixOffset fuel nest options) n
                   (getChildrenKeys n) (mkPatch m1 (acc st) (edits st));
        Done (mkPatch (alter (growLength (acc st' - old)) k (store st'))
                      (acc st') (edits st'))
  end.
Proof. reflexivity. Qed.

Lemma fixOffset_shape (fuel : nat) :
  forall nest options k st st',
    fixOffset fuel nest options k st = Done st' ->
    sameShape (store st) (store st').
Proof.
  induction fuel as [|fuel IH]; intros nest options k st st' Hrun;
    [discriminate|].
  rewrite fixOffset_S in Hrun.
  destruct (store st !! k) as [n|] eqn:Hk; [|discriminate].
  destruct (isNest nest n).
  - apply bind_Done in Hrun as ([content m1] & Hs & Hfin).
    simpl in Hfin. simplify_eq. simpl. eapply stringifyNode_shape, Hs.
  - apply bind_Done in Hrun as (st1 & Hloop & Hfin).
    simpl in Hfin. simplify_eq. simpl.
    assert (Hsh : sameShape (store st) (store st1)).
    { eapply (fixChildren_inv (fun _ sti => sameShape (store st) (store sti)));
        [| |exact Hloop].
      - intros key rest sti sti' Hi Hrec.
        eapply sameShape_trans; [exact Hi|]. eapply IH, Hrec.
      - simpl. eapply sameShape_insert; [exact Hk|]. by split_and!. }
    eapply sameShape_trans; [exact Hsh|].
    apply sameShape_alter. intros x _. by split_and!.
Qed.

Lemma startOk_spans (n n' : Node) :
  Node.spans n' = Node.spans n -> startOk n -> startOk n'.
Proof.
  unfold Node.spans, startOk. intros [= ? ? ? ?]. lia.
Qed.

(** Whatever the start it is called with, a pass keeps the offset
    invariant at every node but the one it is called on. *)
Lemma stringifyNode_keepsOthers (fuel : nat) (m : gmap string Node)
    (k : string) (options : StringifyOptions) (lvl : nat) (off boff : Z)
    (gt : nat -> string) (s : string) (m' : gmap string Node) :
  stringifyNode fuel m k options lvl off boff gt = Done (s, m') ->
  forall j n', m' !! j = Some n' ->
    exists n, m !! j = Some n
      /\ (j <> k -> (startOk n -> startOk n') /\ (spanOk n -> spanOk n')).
Proof.
  intros Hrun. destruct (pure options) eqn:Hp.
  { intros j n' Hj.
    pose proof (stringifyNode_agreeOn Node.spans options) as Hag.
    specialize (Hag ltac:(congruence) ltac:(done) _ _ _ _ _ _ _ _ _ Hrun j).
    rewrite Hj in Hag.
    destruct (m !! j) as [nj|] eqn:Hjs; simpl in Hag; [|discriminate].
    assert (Hsp : Node.spans n' = Node.spans nj) by congruence.
    exists nj. split; [done|]. intros _.
    split; [by apply startOk_spans|by apply spanOk_spans]. }
  destruct fuel as [|fuel]; [discriminate|].
  destruct (m !! k) as [n|] eqn:Hk; [|simpl in Hrun; by rewrite Hk in Hrun].
  destruct (isIterable n) eqn:Hit.
  - rewrite (stringifyNode_container _ _ _ n) in Hrun by done.
    apply bind_Done in Hrun as ([s2 m2] & Hloop & Hfin).
    simpl in Hfin. rewrite Hp in Hfin. simplify_eq.
    assert (Hinv : forall j ni, m2 !! j = Some ni ->
              exists nj, m !! j = Some nj
                /\ (j <> k -> (startOk nj -> startOk ni) /\ (spanOk nj -> spanOk ni))).
    { eapply (stringifyChildren_inv
                (fun _ mi => forall j ni, mi !! j = Some ni ->
                   exists nj, m !! j = Some nj
                     /\ (j <> k -> (startOk nj -> startOk ni)
                                   /\ (spanOk nj -> spanOk ni))));
        [| |exact Hloop].
      - intros key rest mi co cbo c mi' Hcle Hkeep Hrec j ni' Hj.
        destruct (stringifyNode_spanOk _ _ _ _ _ _ _ _ _ _ Hp Hcle Hrec)
          as (Hk1 & _).
        destruct (Hk1 _ _ Hj) as (ni & Hji & Ha & Hb).
        destruct (Hkeep _ _ Hji) as (nj & Hjm & Hc).
        exists nj. split; [done|]. intros Hne.
        destruct (Hc Hne). split; auto.
      - intros j ni Hj. destruct (decide (j = k)) as [->|Hne].
        + exists n. split; [done|]. by intros [].
        + rewrite prepared_ne in Hj by done. eauto. }
    intros j n' Hj. destruct (decide (j = k)) as [->|Hne].
    + exists n. split; [done|]. by intros [].
    + rewrite lookup_alter_ne in Hj by done. by apply Hinv.
  - rewrite (stringifyNode_leaf _ _ _ n) in Hrun by done. simpl in Hrun.
    rewrite Hp in Hrun. simplify_eq.
    intros j n' Hj. destruct (decide (j = k)) as [->|Hne].
    + exists n. split; [done|]. by intros [].
    + rewrite lookup_insert_ne in Hj by done. eauto.
Qed.

Lemma shiftStart_keeps (d : Z) (n : Node) :
  (startOk n -> startOk (shiftStart d n)) /\ (spanOk n -> spanOk (shiftStart d n)).
Proof. unfold startOk, spanOk, shiftStart. simpl. lia. Qed.

Lemma growLength_keeps (d : Z) (n : Node) :
  (startOk n -> startOk (growLength d n)) /\ (spanOk n -> spanOk (growLength d n)).
Proof. unfold startOk, spanOk, growLength. simpl. lia. Qed.

(** The step of the patch pass at a pending node, on the invariant. *)
Lemma stringifyNode_keepsOk_from (fuel : nat) (m : gmap string Node)
    (k : string) (n : Node) (options : StringifyOptions) (lvl : nat) (a : Z)
    (gt : nat -> string) (s : string) (m' : gmap string Node) :
  m !! k = Some n ->
  stringifyNode fuel m k options lvl (Node.offset n + a) (Node.boundOffset n + a) gt
    = Done (s, m') ->
  keepsOk m m'.
Proof.
  intros Hk Hrun j n' Hj.
  destruct (stringifyNode_keepsOthers _ _ _ _ _ _ _ _ _ _ Hrun _ _ Hj)
    as (nj & Hjm & Hkeep).
  exists nj. split; [done|].
  destruct (decide (j = k)) as [->|Hne]; [|by apply Hkeep].
  rewrite Hk in Hjm. simplify_eq.
  destruct (pure options) eqn:Hp.
  - pose proof (stringifyNode_agreeOn Node.spans options) as Hag.
    specialize (Hag ltac:(congruence) ltac:(done) _ _ _ _ _ _ _ _ _ Hrun k).
    rewrite Hj, Hk in Hag. simpl in Hag.
    assert (Hsp : Node.spans n' = Node.spans nj) by congruence.
    split; [by apply startOk_spans|by apply spanOk_spans].
  - assert (Hst : startOk nj -> startOk n' /\ spanOk n').
    { intros Hs.
      assert (Hle : Node.boundOffset nj + a <= Node.offset nj + a)
        by (unfold startOk in Hs; lia).
      destruct (stringifyNode_spanOk _ _ _ _ _ _ _ _ _ _ Hp Hle Hrun)
        as (_ & Hall).
      pose proof (Hall k n' (reach_refl _ _) Hj) as Hok.
      split; [apply Hok|exact Hok]. }
    split; [intros Hs; by apply Hst|intros [Hs _]; by apply Hst].
Qed.

(** The patch pass keeps the offset invariant at every node that has it. *)
Lemma fixOffset_keepsOk (fuel : nat) :
  forall nest options k st st',
    fixOffset fuel nest options k st = Done st' ->
    keepsOk (store st) (store st').
Proof.
  induction fuel as [|fuel IH]; intros nest options k st st' Hrun;
    [discriminate|].
  rewrite fixOffset_S in Hrun.
  destruct (store st !! k) as [n|] eqn:Hk; [|discriminate].
  destruct (isNest nest n).
  - apply bind_Done in Hrun as ([content m1] & Hs & Hfin).
    simpl in Hfin. simplify_eq. simpl.
    by eapply stringifyNode_keepsOk_from.
  - apply bind_Done in Hrun as (st1 & Hloop & Hfin).
    simpl in Hfin. simplify_eq. simpl.
    assert (Hkeep : keepsOk (store st) (store st1)).
    { eapply (fixChildren_inv (fun _ sti => keepsOk (store st) (store sti)));
        [| |exact Hloop].
      - intros key rest sti sti' Hi Hrec.
        eapply keepsOk_trans; [exact Hi|]. eapply IH, Hrec.
      - simpl. intros j nj. rewrite lookup_insert. case_decide; subst.
        + intros [= <-]. exists n. split; [done|]. apply shiftStart_keeps.
        + eauto. }
    intros j nj. rewrite lookup_alter. case_decide; subst; [|by apply Hkeep].
    destruct (store st1 !! j) as [x|] eqn:Hx; [|done]. simpl.
    intros [= <-]. destruct (Hkeep _ _ Hx) as (n0 & Hn0 & Ha & Hb).
    exists n0. split; [done|].
    destruct (growLength_keeps (acc st1 - acc st) x). split; auto.
Qed.

Lemma pending_shape (nest : option (gmap string Node))
    (m m' : gmap string Node) (k p : string) :
  sameShape m m' -> pending nest m k p -> pending nest m' k p.
Proof.
  intros Hsh Hp. induction Hp as [k n Hk Hn|k n key p Hk Hn Hkey _ IH].
  - destruct (sameShape_lookup _ _ _ _ Hsh Hk) as (n' & Hk' & Hid & _).
    eapply pending_here; [exact Hk'|].
    unfold isNest in *. by rewrite <- Hid.
  - destruct (sameShape_lookup _ _ _ _ Hsh Hk) as (n' & Hk' & Hid & Hty & Hperm).
    eapply (pending_child _ _ _ n' key); [exact Hk'| | |].
    + unfold isNest in *. by rewrite <- Hid.
    + unfold getChildrenKeys in *. by rewrite <- Hperm.
    + unfold getChildId in *. by rewrite <- Hid.
Qed.

(** At the pending nodes it arrives at, the patch pass establishes the
    offset invariant on all they hold, provided they start soundly. *)
Lemma fixOffset_pending (fuel : nat) (nest : option (gmap string Node))
    (options : StringifyOptions) (p : string) :
  pure options = false ->
  forall k st st' np,
    fixOffset fuel nest options k st = Done st' ->
    pending nest (store st) k p ->
    store st !! p = Some np -> startOk np ->
    forall j n', reachable (store st) p j -> store st' !! j = Some n' ->
                 spanOk n'.
Proof.
  intros Hpure.
  induction fuel as [|fuel IH]; intros k st st' np Hrun Hpend Hp Hst j n' Hr Hj;
    [discriminate|].
  rewrite fixOffset_S in Hrun.
  destruct (store st !! k) as [n|] eqn:Hk; [|discriminate].
  destruct (isNest nest n) eqn:Hnest.
  - apply bind_Done in Hrun as ([content m1] & Hs & Hfin).
    simpl in Hfin. simplify_eq. simpl in Hj.
    inversion Hpend as [k0 n0 Hk0 Hn0|k0 n0 key p0 Hk0 Hn0 Hkey Hrest]; subst;
      [|congruence].
    rewrite Hk in Hp. simplify_eq.
    assert (Hle : Node.boundOffset np + acc st <= Node.offset np + acc st)
      by (unfold startOk in Hst; lia).
    destruct (stringifyNode_spanOk _ _ _ _ _ _ _ _ _ _ Hpure Hle Hs) as (_ & Hall).
    by eapply Hall.
  - apply bind_Done in Hrun as (st1 & Hloop & Hfin).
    simpl in Hfin. simplify_eq. simpl in Hj.
    inversion Hpend as [k0 n0 Hk0 Hn0|k0 n0 key p0 Hk0 Hn0 Hkey Hrest]; subst;
      [congruence|].
    rewrite Hk in Hk0. simplify_eq.
    set (m1 := <[k := shiftStart (acc st) n0]> (store st)) in *.
    assert (Hsh1 : sameShape (store st) m1).
    { eapply sameShape_insert; [exact Hk|]. by split_and!. }
    assert (Hkeep1 : keepsOk (store st) m1).
    { intros i ni. unfold m1. rewrite lookup_insert. case_decide; subst.
      - intros [= <-]. exists n0. split; [done|]. apply shiftStart_keeps.
      - eauto. }
    assert (Hinv : sameShape (store st) (store st1)
                   /\ keepsOk (store st) (store st1)
                   /\ (key ∈ @nil string
                       \/ forall ni, store st1 !! j = Some ni -> spanOk ni)).
    { eapply (fixChildren_inv
                (fun rem sti =>
                   sameShape (store st) (store sti)
                   /\ keepsOk (store st) (store sti)
                   /\ (key ∈ rem
                       \/ forall ni, store sti !! j = Some ni -> spanOk ni)));
        [| |exact Hloop].
      - intros key' rest sti sti' (Hsh & Hkeep & Hdone) Hrec.
        pose proof (fixOffset_shape _ _ _ _ _ _ Hrec) as Hsh'.
        pose proof (fixOffset_keepsOk _ _ _ _ _ _ Hrec) as Hkeep'.
        split_and!.
        + eapply sameShape_trans; eauto.
        + eapply keepsOk_trans; eauto.
        + destruct Hdone as [Hin|Hdone].
          * destruct (decide (key ∈ rest)) as [Hin'|Hnin]; [by left|].
            right. intros ni Hni.
            assert (key' = key) as ->.
            { apply elem_of_cons in Hin as [->|?]; done. }
            destruct (sameShape_lookup _ _ _ _ Hsh Hp) as (pi & Hpi & _).
            destruct (Hkeep _ _ Hpi) as (np' & Hnp' & Hstart & _).
            rewrite Hp in Hnp'. simplify_eq.
            eapply (IH _ sti sti' pi Hrec); [| |by apply Hstart| |exact Hni].
            -- eapply pending_shape; [exact Hsh|exact Hrest].
            -- exact Hpi.
            -- eapply reachable_shape; [exact Hsh|exact Hr].
          * right. intros ni Hni.
            destruct (Hkeep' _ _ Hni) as (n1 & Hn1 & _ & Hok).
            apply Hok. by apply Hdone.
      - simpl. split_and!; [done|done|by left]. }
    destruct Hinv as (_ & _ & [Hin|Hdone]); [by apply elem_of_nil in Hin|].
    rewrite lookup_alter in Hj. case_decide; subst; [|by apply Hdone].
    destruct (store st1 !! j) as [x|] eqn:Hx; [|done]. simpl in Hj.
    injection Hj as <-. apply growLength_keeps. by apply Hdone.
Qed.

Lemma spanOk_setLength (n : Node) :
  spanOk n -> spanOk (Node.setLength (Node.length n) n).
Proof. by destruct n. Qed.

(** C2. A stringify pass without the pure option, started where the bound
    offset does not exceed the offset (as [stringify] and the patch pass
    start it), leaves every node it visits with the offset invariant, and
    on a complete subtree it returns.  A [stringifyNestNodes] pass keeps
    the invariant at every node that has it, and, without the pure option,
    establishes it on all that is held by a pending node it arrives at,
    provided that node starts at or after its bound. *)
Theorem offset_invariant_after_pass (fuel : nat) (options : StringifyOptions) :
  (forall m k lvl off boff gt s m',
      pure options = false -> boff <= off ->
      stringifyNode fuel m k options lvl off boff gt = Done (s, m') ->
      forall j n', reachable m k j -> m' !! j = Some n' -> spanOk n')
  /\ (forall m k lvl off boff gt,
        complete fuel m k = true ->
        exists s m', stringifyNode fuel m k options lvl off boff gt = Done (s, m'))
  /\ (forall t s t',
        pure options = false ->
        stringify fuel t options = Done (s, t') ->
        forall j n', reachable (nodeMap t) rootMarker j ->
                     nodeMap t' !! j = Some n' -> spanOk n')
  /\ (forall t t',
        stringifyNestNodes fuel t options = Done t' ->
        forall j n', nodeMap t' !! j = Some n' ->
          exists n, nodeMap t !! j = Some n /\ (spanOk n -> spanOk n'))
  /\ (forall t t' p np,
        pure options = false ->
        stringifyNestNodes fuel t options = Done t' ->
        pending (nestNodeMap t) (nodeMap t) rootMarker p ->
        nodeMap t !! p = Some np -> Node.boundOffset np <= Node.offset np ->
        forall j n', reachable (nodeMap t) p j ->
                     nodeMap t' !! j = Some n' -> spanOk n').
Proof.
  split_and!.
  - intros m k lvl off boff gt s m' Hp Hle Hrun.
    by destruct (stringifyNode_spanOk _ _ _ _ _ _ _ _ _ _ Hp Hle Hrun).
  - intros. by apply stringifyNode_total.
  - intros t s t' Hp Hrun j n' Hr Hj. unfold stringify in Hrun.
    apply bind_Done in Hrun as ([s1 m1] & Hstr & Hfin). simpl in Hfin.
    simplify_eq. simpl in Hj.
    destruct (stringifyNode_spanOk _ _ _ _ _ _ _ _ _ _ Hp (Z.le_refl 0) Hstr)
      as (_ & Hok).
    destruct (stringifyNode_root _ _ _ _ _ _ _ _ _ _ Hp Hstr)
      as (r & Hr1 & Hlen & _).
    rewrite lookup_alter in Hj. case_decide; subst.
    + rewrite Hr1 in Hj. simpl in Hj. simplify_eq. rewrite <- Hlen.
      apply spanOk_setLength. eapply Hok; eauto.
    + eapply Hok; eauto.
  - intros t t' Hrun j n' Hj. unfold stringifyNestNodes in Hrun.
    apply bind_Done in Hrun as (st & Hfix & Hrun).
    apply bind_Done in Hrun as (txt & _ & Hfin). simplify_eq. simpl in Hj.
    apply fixOffset_keepsOk in Hfix. simpl in Hfix.
    destruct (Hfix _ _ Hj) as (n & Hn & _ & Hok). eauto.
  - intros t t' p np Hp Hrun Hpend Hnp Hst j n' Hr Hj.
    unfold stringifyNestNodes in Hrun.
    apply bind_Done in Hrun as (st & Hfix & Hrun).
    apply bind_Done in Hrun as (txt & _ & Hfin). simplify_eq. simpl in Hj.
    eapply (fixOffset_pending _ _ _ p Hp _ _ _ np Hfix); eauto.
Qed.

(** C9. A leaf whose raw value is missing is rendered as the empty string
    and nothing is raised; unless the pass is pure the node gets length 0
    (and the start it was called with), and no other node is touched. *)
Theorem stringifyNode_missing_raw (fuel : nat) (m : gmap string Node)
    (k : string) (n : Node) (options : StringifyOptions) (lvl : nat)
    (off boff : Z) (gt : nat -> string) :
  m !! k = Some n -> isIterable n = false -> getRawValue n = None ->
  exists m',
    stringifyNode (S fuel) m k options lvl off boff gt = Done (EmptyString, m')
    /\ (pure options = true -> m' = m)
    /\ (pure options = false ->
        (exists n', m' !! k = Some n' /\ Node.length n' = 0
                    /\ Node.offset n' = off /\ Node.boundOffset n' = boff)
        /\ forall j, j <> k -> m' !! j = m !! j).
Proof.
  intros Hk Hit Hraw. rewrite (stringifyNode_leaf _ _ _ n) by done.
  rewrite Hraw. simpl. destruct (pure options).
  - exists m. by split_and!.
  - eexists. split; [reflexivity|]. split; [done|]. intros _. split.
    + rewrite lookup_insert_eq. eexists. split; [reflexivity|]. done.
    + intros j Hne. by rewrite lookup_insert_ne.
Qed.

(** *** Sorting while emitting and emitting a sorted tree *)






(** C6, as the code has it. In pure mode [stringifyNode] returns the text
    (on a complete subtree it does return) and leaves the span fields of
    every node as they were; [stringify] in pure mode still stores the
    text and sets the length of the root to the length of that text, and
    leaves every other span field as it was. *)
Theorem stringify_pure_spans (fuel : nat) (options : StringifyOptions) :
  pure options = true ->
  (forall m k lvl off boff gt s m',
      stringifyNode fuel m k options lvl off boff gt = Done (s, m') ->
      forall j, Node.spans <$> m' !! j = Node.spans <$> m !! j)
  /\ (forall m k lvl off boff gt,
        complete fuel m k = true ->
        exists s m', stringifyNode fuel m k options lvl off boff gt = Done (s, m'))
  /\ (forall t s t',
        stringify fuel t options = Done (s, t') ->
        text t' = s
        /\ (forall j, j <> rootMarker ->
              Node.spans <$> nodeMap t' !! j = Node.spans <$> nodeMap t !! j)
        /\ exists r, root t = Some r
             /\ Node.spans <$> root t'
                = Some (Node.offset r, slen s, Node.boundOffset r, Node.boundLength r)).
Proof.
  intros Hp.
  assert (Hag : forall m k lvl off boff gt s m',
            stringifyNode fuel m k options lvl off boff gt = Done (s, m') ->
            agreeOn Node.spans m m').
  { intros m k lvl off boff gt s m'.
    apply (stringifyNode_agreeOn Node.spans options); [congruence|done]. }
  split_and!.
  - intros m k lvl off boff gt s m' Hrun. by eapply Hag.
  - intros. by apply stringifyNode_total.
  - intros t s t' Hrun. unfold stringify in Hrun.
    apply bind_Done in Hrun as ([s1 m1] & Hstr & Hfin). simpl in Hfin.
    simplify_eq. simpl. specialize (Hag _ _ _ _ _ _ _ _ Hstr).
    split_and!; [done| |].
    + intros j Hne. rewrite lookup_alter_ne by done. apply Hag.
    + unfold root, node. simpl. rewrite lookup_alter_eq.
      specialize (Hag rootMarker).
      destruct (nodeMap t !! rootMarker) as [r|] eqn:Hr.
      * exists r. split; [done|].
        destruct (m1 !! rootMarker) as [r1|]; simpl in *; [|discriminate].
        assert (Hsp : Node.spans r1 = Node.spans r) by congruence.
        unfold Node.spans in *. injection Hsp as H1 H2 H3 H4.
        simpl. by rewrite H1, H3, H4.
      * destruct fuel; [discriminate|]. simpl in Hstr. by rewrite Hr in Hstr.
Qed.

(** *** Offset lookup *)

Lemma increasing_head (c : Node) (rest : list Node) :
  increasing (c :: rest) = true ->
  0 <= Node.boundLength c /\ increasing rest = true
  /\ forall c', c' ∈ rest -> boundEnd c <= Node.boundOffset c'.
Proof.
  revert c. induction rest as [|d rest IH]; intros c Hinc.
  - simpl in Hinc. rewrite !andb_true_iff in Hinc. destruct Hinc as [[Hc _] _].
    split_and!; [lia|done|]. intros c' Hin. by apply elem_of_nil in Hin.
  - change (increasing (c :: d :: rest)) with
      ((0 <=? Node.boundLength c) && (boundEnd c <=? Node.boundOffset d)
       && increasing (d :: rest)) in Hinc.
    rewrite !andb_true_iff in Hinc. destruct Hinc as [[Hc Hcd] Hrest].
    destruct (IH d Hrest) as (Hd & _ & Hall).
    split_and!; [lia|done|].
    intros c' Hin. apply elem_of_cons in Hin as [->|Hin]; [lia|].
    specialize (Hall _ Hin). unfold boundEnd in *. lia.
Qed.

Lemma increasing_lookup (cs : list Node) (i j : nat) (ci cj : Node) :
  increasing cs = true -> (i < j)%nat ->
  cs !! i = Some ci -> cs !! j = Some cj ->
  boundEnd ci <= Node.boundOffset cj.
Proof.
  revert i j. induction cs as [|c rest IH]; intros i j Hinc Hij Hi Hj; [done|].
  destruct (increasing_head _ _ Hinc) as (_ & Hrest & Hall).
  destruct i as [|i], j as [|j]; try lia; simpl in *.
  - simplify_eq. apply Hall. eapply list_elem_of_lookup_2, Hj.
  - eapply (IH i j); eauto. lia.
Qed.

Lemma increasing_nonneg (cs : list Node) (i : nat) (c : Node) :
  increasing cs = true -> cs !! i = Some c -> 0 <= Node.boundLength c.
Proof.
  revert i. induction cs as [|d rest IH]; intros i Hinc Hi; [done|].
  destruct (increasing_head _ _ Hinc) as (Hd & Hrest & _).
  destruct i as [|i]; simpl in *; [by simplify_eq|eauto].
Qed.

(** The binary search finds the child whose bound span contains the
    point, if there is one, and hands the node itself back otherwise. *)
Lemma searchChildren_spec (rec : Node -> res (option Node))
    (m : gmap string Node) (offset : Z) (n : Node)
    (keys : list string) (cs : list Node) :
  Forall2 (fun key c => getChild m n key = Some c) keys cs ->
  increasing cs = true ->
  forall gas left right,
    0 <= left -> right < Z.of_nat (length cs) ->
    Z.max 0 (right - left + 1) < Z.of_nat gas ->
    (forall i c, cs !! i = Some c -> Z.of_nat i < left -> boundEnd c < offset) ->
    (forall i c, cs !! i = Some c -> right < Z.of_nat i ->
                 offset <= Node.boundOffset c) ->
    (exists c, c ∈ cs /\ inBound offset c = true
               /\ searchChildren rec m offset n keys gas left right
                  = (item ← rec c; Done (Some (default c item))))
    \/ ((forall c, c ∈ cs -> inBound offset c = false)
        /\ searchChildren rec m offset n keys gas left right = Done (Some n)).
Proof.
  intros Hcs Hinc gas.
  induction gas as [|gas IH]; intros left right Hl Hr Hgas Hleft Hright; [lia|].
  simpl. destruct (left <=? right) eqn:Hlr.
  - apply Z.leb_le in Hlr.
    assert (Hmid : left <= (left + right) `div` 2 <= right).
    { split.
      - apply Z.div_le_lower_bound; lia.
      - apply Z.div_le_upper_bound; lia. }
    set (mid := (left + right) `div` 2) in *.
    destruct (lookup_lt_is_Some_2 cs (Z.to_nat mid)) as [child Hchild]; [lia|].
    destruct (Forall2_lookup_r _ _ _ _ _ Hcs Hchild) as (key & Hkey & Hget).
    rewrite Hkey. simpl. rewrite Hget.
    destruct (inBound offset child) eqn:Hin.
    + left. exists child. split_and!; [|done|done].
      eapply list_elem_of_lookup_2, Hchild.
    + pose proof (increasing_nonneg _ _ _ Hinc Hchild) as Hnn.
      destruct (boundEnd child <? offset) eqn:Hend;
        fold (boundEnd child); rewrite Hend.
      * apply Z.ltb_lt in Hend. apply IH; [lia|lia|lia| |exact Hright].
        intros i c Hi Hlt.
        destruct (decide (Z.of_nat i < left)) as [?|Hge]; [eauto|].
        destruct (decide (i = Z.to_nat mid)) as [->|Hne]; [by simplify_eq|].
        pose proof (increasing_lookup cs i (Z.to_nat mid) c child Hinc) as Hord.
        pose proof (increasing_nonneg _ _ _ Hinc Hi) as Hci.
        specialize (Hord ltac:(lia) Hi Hchild).
        unfold boundEnd in *. lia.
      * apply Z.ltb_ge in Hend.
        assert (Hstart : offset <= Node.boundOffset child).
        { unfold inBound in Hin. apply andb_false_iff in Hin as [Hin|Hin].
          - apply Z.ltb_ge in Hin. lia.
          - apply Z.leb_gt in Hin. unfold boundEnd in *. lia. }
        apply IH; [lia|lia|lia|exact Hleft|].
        intros i c Hi Hgt.
        destruct (decide (right < Z.of_nat i)) as [?|Hge]; [eauto|].
        destruct (decide (i = Z.to_nat mid)) as [->|Hne]; [by simplify_eq|].
        pose proof (increasing_lookup cs (Z.to_nat mid) i child c Hinc) as Hord.
        specialize (Hord ltac:(lia) Hchild Hi).
        unfold boundEnd in *. lia.
  - apply Z.leb_gt in Hlr. right. split; [|done].
    intros c Hc. apply list_elem_of_lookup_1 in Hc as [i Hi].
    unfold inBound. apply andb_false_iff.
    destruct (decide (Z.of_nat i < left)) as [Hlt|Hge].
    + right. apply Z.leb_gt. specialize (Hleft _ _ Hi Hlt).
      unfold boundEnd in *. lia.
    + left. apply Z.ltb_ge. apply (Hright _ _ Hi). lia.
Qed.

Lemma doFind_S (fuel : nat) (m : gmap string Node) (offset : Z) (n : Node) :
  doFind (S fuel) m offset n =
  if negb (inBound offset n) then Done None
  else searchChildren (doFind fuel m offset) m offset n (getChildrenKeys n)
         (S (length (getChildrenKeys n)))
         0 (Z.of_nat (length (getChildrenKeys n)) - 1).
Proof. reflexivity. Qed.

Lemma doFind_spec (fuel : nat) (m : gmap string Node) (offset : Z) :
  ordered m ->
  forall k n,
    m !! k = Some n -> complete fuel m k = true ->
    exists found,
      doFind fuel m offset n = Done found
      /\ match found with
         | None => inBound offset n = false
         | Some r => Innermost m offset n r
         end.
Proof.
  intros Hord. induction fuel as [|fuel IH]; intros k n Hk Hc; [discriminate|].
  rewrite doFind_S.
  destruct (inBound offset n) eqn:Hin; cbn [negb]; [|by exists None].
  pose proof (Hord _ _ Hk) as Hco. unfold childrenOrdered, childrenOf in Hco.
  destruct (mapM (getChild m n) (getChildrenKeys n)) as [cs|] eqn:Hcs; [|done].
  apply mapM_Some in Hcs.
  pose proof (Forall2_length _ _ _ Hcs) as Hlen.
  pose proof (searchChildren_spec (doFind fuel m offset) m offset n
              (getChildrenKeys n) cs Hcs Hco (S (length (getChildrenKeys n)))
              0 (Z.of_nat (length (getChildrenKeys n)) - 1)) as Hsearch.
  destruct Hsearch as [(c & Hcin & Hcb & ->)|(Hnone & ->)];
    [lia|lia|lia|intros; lia
    |intros i c Hi Hgt; apply lookup_lt_Some in Hi; lia| |].
  - apply list_elem_of_lookup_1 in Hcin as [i Hi].
    destruct (Forall2_lookup_r _ _ _ _ _ Hcs Hi) as (key & Hkey & Hget).
    assert (Hkin : key ∈ getChildrenKeys n)
      by (eapply list_elem_of_lookup_2, Hkey).
    destruct (IH (getChildId n key) c Hget) as (found & -> & Hfound).
    { eapply complete_child; eauto. }
    simpl. destruct found as [r|]; [|congruence].
    exists (Some r). split; [done|]. eapply inner_step; eauto.
  - exists (Some n). split; [done|]. apply inner_here; [done|].
    intros key c Hkin Hget. apply Hnone.
    apply list_elem_of_lookup_1 in Hkin as [i Hi].
    destruct (Forall2_lookup_l _ _ _ _ _ Hcs Hi) as (c' & Hc' & Hget').
    rewrite Hget in Hget'. simplify_eq. eapply list_elem_of_lookup_2, Hc'.
Qed.




(** C10. On a valid tree whose root has a bound offset that is not
    negative, [findNodeAtOffset] has no result at offset 0; and the root
    of a tree that a stringify pass without the pure option has indexed
    has bound offset 0, so that the lookup at offset 0 on it has none. *)
Theorem findNodeAtOffset_zero (fuel : nat) :
  (forall t r,
      valid t = true -> root t = Some r -> 0 <= Node.boundOffset r ->
      findNodeAtOffset (S fuel) t 0 = Done None)
  /\ (forall fuel0 t0 options s t,
        pure options = false ->
        complete fuel0 (nodeMap t0) rootMarker = true ->
        stringify fuel0 t0 options = Done (s, t) ->
        (exists r, root t = Some r /\ Node.boundOffset r = 0)
        /\ (valid t = true -> findNodeAtOffset (S fuel) t 0 = Done None)).
Proof.
  assert (Hzero : forall t r,
            valid t = true -> root t = Some r -> 0 <= Node.boundOffset r ->
            findNodeAtOffset (S fuel) t 0 = Done None).
  { intros t r Hv Hr Hb. unfold findNodeAtOffset. rewrite Hv, Hr. simpl.
    unfold inBound. destruct (Node.boundOffset r <? 0) eqn:Hlt; [|done].
    apply Z.ltb_lt in Hlt. lia. }
  split; [exact Hzero|].
  intros fuel0 t0 options s t Hp Hc Hrun. unfold stringify in Hrun.
  apply bind_Done in Hrun as ([s1 m1] & Hstr & Hfin). simpl in Hfin.
  injection Hfin as Hs Ht. subst s t.
  destruct (stringifyNode_root _ _ _ _ _ _ _ _ _ _ Hp Hstr)
    as (r & Hr & _ & _ & Hstart).
  destruct (Hstart Hc) as [_ Hb].
  assert (Hroot : root (setText s1 (setNodeMap
                     (alter (Node.setLength (slen s1)) rootMarker m1) t0))
                  = Some (Node.setLength (slen s1) r)).
  { unfold root, node. simpl. by rewrite lookup_alter_eq, Hr. }
  split.
  - eexists. split; [exact Hroot|]. done.
  - intros Hv. eapply Hzero; [exact Hv|exact Hroot|]. simpl. lia.
Qed.

(** *** The patch engine: subtrees without a pending node *)

Lemma shiftStart_zero (n : Node) : shiftStart 0 n = n.
Proof.
  destruct n. unfold shiftStart, Node.setBoundOffset, Node.setOffset. simpl.
  f_equal; lia.
Qed.

Lemma growLength_zero (n : Node) : growLength 0 n = n.
Proof.
  destruct n. unfold growLength, Node.setBoundLength, Node.setLength. simpl.
  f_equal; lia.
Qed.

Lemma alter_id_ext (f : Node -> Node) (k : string) (m : gmap string Node) :
  (forall n, f n = n) -> alter f k m = m.
Proof.
  intros Hf. apply map_eq. intros j. rewrite lookup_alter.
  case_decide; subst; [|done]. destruct (m !! j); simpl; [|done].
  by rewrite Hf.
Qed.

Lemma insert_as_alter (f : Node -> Node) (k : string) (n : Node)
    (m : gmap string Node) :
  m !! k = Some n -> <[k := f n]> m = alter f k m.
Proof.
  intros Hk. apply map_eq. intros j. rewrite lookup_insert, lookup_alter.
  case_decide; subst; [|done]. by rewrite Hk.
Qed.

Lemma shiftAll_zero (l : list string) (m : gmap string Node) :
  shiftAll 0 l m = m.
Proof.
  unfold shiftAll. revert m. induction l as [|j l IH]; intros m; [done|].
  simpl. rewrite (alter_id_ext _ _ _ shiftStart_zero). apply IH.
Qed.

Lemma shiftAll_app (d : Z) (l1 l2 : list string) (m : gmap string Node) :
  shiftAll d (l1 ++ l2) m = shiftAll d l2 (shiftAll d l1 m).
Proof. unfold shiftAll. by rewrite foldl_app. Qed.

Lemma shiftAll_notin (d : Z) (l : list string) (m : gmap string Node) (j : string) :
  j ∉ l -> shiftAll d l m !! j = m !! j.
Proof.
  unfold shiftAll. revert m. induction l as [|i l IH]; intros m Hj; [done|].
  apply not_elem_of_cons in Hj as [Hne Hj]. simpl.
  rewrite IH by done. by rewrite lookup_alter_ne.
Qed.

Lemma shiftAll_in (d : Z) (l : list string) (m : gmap string Node) (j : string) :
  NoDup l -> j ∈ l -> shiftAll d l m !! j = shiftStart d <$> m !! j.
Proof.
  unfold shiftAll. revert m. induction l as [|i l IH]; intros m Hnd Hj.
  - by apply elem_of_nil in Hj.
  - apply NoDup_cons in Hnd as [Hi Hnd]. simpl.
    apply elem_of_cons in Hj as [->|Hj].
    + pose proof (shiftAll_notin d l (alter (shiftStart d) i m) i Hi) as Hn.
      unfold shiftAll in Hn. rewrite Hn. by rewrite lookup_alter_eq.
    + rewrite IH by done. rewrite lookup_alter_ne; [done|].
      intros ->. done.
Qed.

Lemma shiftAll_skeleton (d : Z) (l : list string) (m : gmap string Node) :
  agreeOn skeleton m (shiftAll d l m).
Proof.
  unfold shiftAll. revert m. induction l as [|i l IH]; intros m.
  - apply agreeOn_refl.
  - simpl. eapply agreeOn_trans; [|apply IH].
    by apply agreeOn_alter.
Qed.

Lemma skeleton_isNest (nest : option (gmap string Node)) (n n' : Node) :
  skeleton n' = skeleton n -> isNest nest n' = isNest nest n.
Proof. unfold skeleton, isNest. intros [= -> _]. done. Qed.

Lemma skeleton_getChildId (n n' : Node) (key : string) :
  skeleton n' = skeleton n -> getChildId n' key = getChildId n key.
Proof. unfold skeleton, getChildId. intros [= -> _]. done. Qed.

(** The visit order only depends on the skeletons of the nodes visited. *)
Lemma walk_local (fuel : nat) (nest : option (gmap string Node))
    (m m' : gmap string Node) :
  forall k L,
    walk fuel nest m k = Some L ->
    (forall j, j ∈ L -> skeleton <$> m' !! j = skeleton <$> m !! j) ->
    walk fuel nest m' k = Some L.
Proof.
  induction fuel as [|fuel IH]; intros k L Hw Hag; [discriminate|].
  simpl in Hw. destruct (m !! k) as [n|] eqn:Hk; [|discriminate].
  assert (HkL : k ∈ L).
  { destruct (isNest nest n); [simplify_eq; left|].
    destruct (mapM _ _); simpl in Hw; simplify_eq. left. }
  pose proof (Hag k HkL) as Hkk. rewrite Hk in Hkk.
  destruct (m' !! k) as [n'|] eqn:Hk'; simpl in Hkk; [|discriminate].
  assert (Hsk : skeleton n' = skeleton n) by congruence.
  simpl. rewrite Hk', (skeleton_isNest _ _ _ Hsk).
  destruct (isNest nest n); [done|].
  destruct (mapM _ (getChildrenKeys n)) as [kids|] eqn:Hkids;
    simpl in Hw; [|discriminate].
  injection Hw as <-.
  assert (Hkeys : getChildrenKeys n' = getChildrenKeys n).
  { unfold getChildrenKeys. by injection Hsk. }
  rewrite Hkeys.
  assert (Hkids' : mapM (fun key => walk fuel nest m' (getChildId n' key))
                        (getChildrenKeys n) = Some kids).
  { apply mapM_Some. apply mapM_Some in Hkids.
    assert (Hsub : forall j, j ∈ concat kids ->
              skeleton <$> m' !! j = skeleton <$> m !! j).
    { intros j Hj. apply Hag. by right. }
    clear Hag HkL Hkeys. induction Hkids as [|key Lc keys kids Hc _ IHk];
      constructor.
    - rewrite (skeleton_getChildId _ _ _ Hsk). apply IH; [done|].
      intros j Hj. apply Hsub. simpl. apply elem_of_app. by left.
    - apply IHk. intros j Hj. apply Hsub. simpl. apply elem_of_app. by right. }
  rewrite Hkids'. done.
Qed.

Lemma walk_agree (fuel : nat) (nest : option (gmap string Node))
    (m m' : gmap string Node) (k : string) (L : list string) :
  agreeOn skeleton m m' -> walk fuel nest m k = Some L ->
  walk fuel nest m' k = Some L.
Proof. intros Hag Hw. eapply walk_local; [exact Hw|]. intros j _. apply Hag. Qed.

Lemma noNest_agree (nest : option (gmap string Node))
    (m m' : gmap string Node) (L : list string) :
  agreeOn skeleton m m' -> noNest nest m L -> noNest nest m' L.
Proof.
  intros Hag Hn j n' Hj Hj'. specialize (Hag j). rewrite Hj' in Hag.
  destruct (m !! j) as [n|] eqn:Hjm; simpl in Hag; [|discriminate].
  rewrite (skeleton_isNest nest n n') by congruence. eauto.
Qed.

(** Over a subtree without a pending node the pass moves the start of
    every node by the delta accumulated so far and records nothing. *)
Lemma fixOffset_shift (fuel : nat) (nest : option (gmap string Node))
    (options : StringifyOptions) :
  forall k m a e L,
    walk fuel nest m k = Some L -> noNest nest m L ->
    fixOffset (S fuel) nest options k (mkPatch m a e)
      = Done (mkPatch (shiftAll a L m) a e).
Proof.
  induction fuel as [|fuel IH]; intros k m a e L Hw Hnn; [discriminate|].
  simpl in Hw. destruct (m !! k) as [n|] eqn:Hk; [|discriminate].
  destruct (isNest nest n) eqn:Hnest.
  { simplify_eq. rewrite (Hnn k n) in Hnest; [done|left|done]. }
  destruct (mapM _ (getChildrenKeys n)) as [kids|] eqn:Hkids;
    simpl in Hw; [|discriminate].
  injection Hw as <-. apply mapM_Some in Hkids.
  rewrite fixOffset_S.
cbn [store acc edits]. rewrite Hk, Hnest. cbn zeta.
  rewrite (insert_as_alter (shiftStart a) k n m Hk).
  assert (Hloop : forall mc,
            agreeOn skeleton m mc ->
            fixChildren (fixOffset (S fuel) nest options) n
              (getChildrenKeys n) (mkPatch mc a e)
            = Done (mkPatch (shiftAll a (concat kids) mc) a e)).
  { assert (Hsub : noNest nest m (concat kids)).
    { intros j nj Hj. apply Hnn. by right. }
    clear Hnn Hk. induction Hkids as [|key Lc keys kids Hc _ IHk]; intros mc Hag.
    - done.
    - cbn [fixChildren]. rewrite (IH _ mc a e Lc).
      + simpl. rewrite shiftAll_app. apply IHk.
        * intros j nj Hj. apply Hsub. simpl. apply elem_of_app. by right.
        * eapply agreeOn_trans; [exact Hag|apply shiftAll_skeleton].
      + eapply walk_agree; eauto.
      + eapply noNest_agree; [exact Hag|].
        intros j nj Hj. apply Hsub. simpl. apply elem_of_app. by left. }
  rewrite Hloop by (by apply agreeOn_alter).
  simpl. rewrite Z.sub_diag.
  rewrite (alter_id_ext _ _ _ growLength_zero). done.
Qed.

(** *** The patch engine: one pending node *)

Lemma fixChildren_app (rec : string -> PatchState -> res PatchState)
    (n : Node) (l1 l2 : list string) (st : PatchState) :
  fixChildren rec n (l1 ++ l2) st =
  (st' ← fixChildren rec n l1 st; fixChildren rec n l2 st').
Proof.
  revert st. induction l1 as [|key l1 IH]; intros st; [done|].
  cbn [fixChildren app]. destruct (rec (getChildId n key) st); simpl; [apply IH|done..].
Qed.

Lemma fixChildren_shift (fuel : nat) (nest : option (gmap string Node))
    (options : StringifyOptions) (n : Node) (m : gmap string Node)
    (a : Z) (e : list Edit.t) (keys : list string) (kids : list (list string)) :
  Forall2 (fun key Lc => walk fuel nest m (getChildId n key) = Some Lc) keys kids ->
  noNest nest m (concat kids) ->
  forall mc,
    agreeOn skeleton m mc ->
    fixChildren (fixOffset (S fuel) nest options) n keys (mkPatch mc a e)
    = Done (mkPatch (shiftAll a (concat kids) mc) a e).
Proof.
  intros Hkids. induction Hkids as [|key Lc keys kids Hc _ IHk]; intros Hsub mc Hag.
  - done.
  - cbn [fixChildren]. rewrite (fixOffset_shift fuel nest options _ mc a e Lc).
    + simpl. rewrite shiftAll_app. apply IHk.
      * intros j nj Hj. apply Hsub. simpl. apply elem_of_app. by right.
      * eapply agreeOn_trans; [exact Hag|apply shiftAll_skeleton].
    + eapply walk_agree; eauto.
    + eapply noNest_agree; [exact Hag|].
      intros j nj Hj. apply Hsub. simpl. apply elem_of_app. by left.
Qed.

Lemma concat_split (kids : list (list string)) :
  forall l1 p l3,
    concat kids = l1 ++ p :: l3 ->
    exists pre Lc post a b,
      kids = pre ++ Lc :: post /\ Lc = a ++ p :: b
      /\ l1 = concat pre ++ a /\ l3 = b ++ concat post.
Proof.
  induction kids as [|L0 kids IH]; intros l1 p l3 Heq.
  - by destruct l1.
  - simpl in Heq. apply app_eq_inv in Heq as [(k' & H1 & H2)|(k' & H1 & H2)].
    + destruct k' as [|x k'].
      * rewrite app_nil_r in H1. simpl in H2. subst L0.
        destruct (IH [] p l3 (eq_sym H2)) as (pre & Lc & post & a & b & -> & -> & Hl & ->).
        exists (l1 :: pre), (a ++ p :: b), post, a, b.
        split_and!; try done. simpl. by rewrite <- app_assoc, <- Hl, app_nil_r.
      * simpl in H2. injection H2 as <- ->. subst L0.
        exists [], (l1 ++ p :: k'), kids, l1, k'. by split_and!.
    + destruct (IH k' p l3 H2) as (pre & Lc & post & a & b & -> & -> & -> & ->).
      exists (L0 :: pre), (a ++ p :: b), post, a, b.
      split_and!; try done. simpl. by rewrite H1, app_assoc.
Qed.

Lemma elem_of_concat_2 (kids : list (list string)) (L : list string) (j : string) :
  L ∈ kids -> j ∈ L -> j ∈ concat kids.
Proof.
  induction kids as [|L0 kids IH]; intros HL Hj.
  - by apply elem_of_nil in HL.
  - simpl. apply elem_of_app. apply elem_of_cons in HL as [->|HL]; auto.
Qed.

Lemma Forall2_impl_elem {A B : Type} (P Q : A -> B -> Prop)
    (l : list A) (k : list B) :
  Forall2 P l k -> (forall x y, y ∈ k -> P x y -> Q x y) -> Forall2 Q l k.
Proof.
  intros HF. induction HF as [|x y l k Hxy _ IH]; intros Himp; constructor.
  - apply Himp; [left|done].
  - apply IH. intros x' y' Hy'. apply Himp. by right.
Qed.

Ltac solve_elem :=
  simpl;
  repeat first [rewrite not_elem_of_cons | rewrite not_elem_of_app];
  repeat first [rewrite elem_of_cons | rewrite elem_of_app];
  tauto.

Lemma noNest_sub (nest : option (gmap string Node)) (m : gmap string Node)
    (L L' : list string) :
  (forall j, j ∈ L' -> j ∈ L) -> noNest nest m L -> noNest nest m L'.
Proof. intros Hsub Hn j n Hj. apply Hn. by apply Hsub. Qed.

(** With one pending node [p] among the nodes the pass visits from [k],
    starting with no delta: the pass records the one edit for [p], and the
    start of every node it visits after [p] moves by the size delta of
    that edit. *)
Lemma fixOffset_one (nest : option (gmap string Node))
    (options : StringifyOptions) (m : gmap string Node)
    (p : string) (np : Node) :
  m !! p = Some np -> isNest nest np = true ->
  forall fuel k e l1 l3,
    complete fuel m k = true ->
    walk fuel nest m k = Some (l1 ++ p :: l3) ->
    NoDup (l1 ++ p :: l3) ->
    noNest nest m (l1 ++ l3) ->
    (forall j, j ∈ l3 -> ~ reachable m p j) ->
    exists f content mp m',
      stringifyNode f m p options 0 (Node.offset np) (Node.boundOffset np)
                    (getGenTabsFn (tabWidthOrDefault options))
        = Done (content, mp)
      /\ fixOffset (S fuel) nest options k (mkPatch m 0 e)
         = Done (mkPatch m' (slen content - Node.length np)
                   (e ++ [Edit.mk (Node.offset np) (Node.length np) content]))
      /\ (forall j, j ∈ l3 ->
            m' !! j = shiftStart (slen content - Node.length np) <$> m !! j)
      /\ (forall j, j ∉ l1 ++ p :: l3 -> ~ reachable m p j -> m' !! j = m !! j).
Proof.
  intros Hp Hpn. induction fuel as [|fuel IH];
    intros k e l1 l3 Hc Hw Hnd Hnn Hreach; [discriminate|].
  simpl in Hw. destruct (m !! k) as [n|] eqn:Hk; [|discriminate].
  destruct (isNest nest n) eqn:Hnest.
  - (* the node at [k] is the pending one *)
    assert (l1 = [] /\ p = k /\ l3 = []) as (-> & -> & ->).
    { destruct l1 as [|x l1]; simpl in Hw; injection Hw as Hx Hrest.
      - by subst.
      - by destruct l1. }
    rewrite Hp in Hk. injection Hk as ->.
    destruct (stringifyNode_total (S fuel) m k options 0
                (Node.offset n) (Node.boundOffset n)
                (getGenTabsFn (tabWidthOrDefault options)) Hc)
      as (content & mp & Hstr).
    exists (S fuel), content, mp, mp. split_and!.
    + exact Hstr.
    + rewrite fixOffset_S. cbn [store acc edits]. rewrite Hp, Hnest.
      rewrite !Z.add_0_r, Hstr. simpl. done.
    + intros j Hj. by apply elem_of_nil in Hj.
    + intros j _ Hnr. eapply stringifyNode_frame; eauto.
  - (* the pending node is below one of the children *)
    destruct (mapM _ (getChildrenKeys n)) as [kids|] eqn:Hkids;
      simpl in Hw; [|discriminate].
    injection Hw as Hw. apply mapM_Some in Hkids.
    destruct l1 as [|x l1']; simpl in Hw; injection Hw as Hx Hrest.
    { subst p. rewrite Hp in Hk. injection Hk as ->. congruence. }
    subst x.
    destruct (concat_split _ _ _ _ Hrest)
      as (pre & Lc & post & a & b & -> & -> & -> & ->).
    apply Forall2_app_inv_r in Hkids as (kpre & krest & Hpre & Hrest' & Hkeys).
    apply Forall2_cons_inv_r in Hrest' as (key & kpost & Hkey & Hpost & ->).
    assert (Hlist : (k :: concat pre ++ a) ++ p :: b ++ concat post
                    = k :: concat pre ++ (a ++ p :: b) ++ concat post).
    { simpl. by rewrite <- !app_assoc. }
    rewrite Hlist in Hnd.
    apply NoDup_cons in Hnd as [Hkn Hnd].
    apply NoDup_app in Hnd as (_ & _ & Hnd).
    apply NoDup_app in Hnd as (HndLc & Hdisj & Hndpost).
    assert (Hkin : key ∈ getChildrenKeys n).
    { rewrite Hkeys. apply elem_of_app. right. left. }
    destruct (IH (getChildId n key) e a b) as (f & content & mp & m1 & Hstr & Hfix & Hb & Hframe).
    { eapply complete_child; eauto. }
    { exact Hkey. }
    { exact HndLc. }
    { eapply noNest_sub; [|exact Hnn]. intros j. solve_elem. }
    { intros j Hj. apply Hreach. apply elem_of_app. by left. }
    set (delta := slen content - Node.length np) in *.
    assert (Hpostm1 : forall j, j ∈ concat post -> m1 !! j = m !! j).
    { intros j Hj. apply Hframe.
      - intros Hin. by apply (Hdisj j).
      - apply Hreach. apply elem_of_app. by right. }
    exists f, content, mp,
      (alter (growLength delta) k (shiftAll delta (concat post) m1)).
    split_and!.
    + exact Hstr.
    + rewrite fixOffset_S. cbn [store acc edits]. rewrite Hk, Hnest. cbn zeta.
      rewrite shiftStart_zero, (insert_id _ _ _ Hk), Hkeys.
      rewrite fixChildren_app.
      rewrite (fixChildren_shift fuel nest options n m 0 e kpre pre Hpre);
        [|eapply noNest_sub; [|exact Hnn]; intros j; solve_elem
         |apply agreeOn_refl].
      rewrite shiftAll_zero, Done_bind. cbn [fixChildren].
      rewrite Hfix, Done_bind.
      rewrite (fixChildren_shift fuel nest options n m1 delta _ kpost post).
      * rewrite Done_bind. cbn [store acc edits]. by rewrite Z.sub_0_r.
      * eapply Forall2_impl_elem; [exact Hpost|]. simpl.
        intros key' L' HL' Hw'. eapply walk_local; [exact Hw'|].
        intros j Hj. rewrite Hpostm1; [done|].
        eapply elem_of_concat_2; eauto.
      * intros j nj Hj Hj1. rewrite Hpostm1 in Hj1 by done.
        eapply Hnn; [|exact Hj1]. revert Hj. solve_elem.
      * apply agreeOn_refl.
    + intros j Hj. apply elem_of_app in Hj as [Hj|Hj].
      * rewrite lookup_alter_ne.
        2:{ intros ->. apply Hkn. revert Hj. solve_elem. }
        rewrite shiftAll_notin; [by apply Hb|].
        intros Hin. apply (Hdisj j); [|done].
        revert Hj. solve_elem.
      * rewrite lookup_alter_ne.
        2:{ intros ->. apply Hkn. revert Hj. solve_elem. }
        rewrite shiftAll_in by done. by rewrite Hpostm1.
    + intros j Hj Hnr. rewrite Hlist in Hj.
      rewrite not_elem_of_cons, !not_elem_of_app in Hj.
      destruct Hj as (Hjk & _ & HjLc & Hjpost).
      rewrite lookup_alter_ne by done. rewrite shiftAll_notin by done.
      apply Hframe; [|done]. by rewrite not_elem_of_app.
Qed.

Lemma applyEdits_nil (txt : string) : applyEdits txt [] = Done txt.
Proof. reflexivity. Qed.

Lemma applyEdits_one (txt : string) (e : Edit.t) :
  Edit.offset e + Edit.length e <= slen txt ->
  applyEdits txt [e] = Done (applyEdit txt e).
Proof.
  intros Hle. unfold applyEdits, sortEdits. simpl.
  destruct (Edit.offset e + Edit.length e <=? slen txt) eqn:Hcmp; [done|].
  apply Z.leb_gt in Hcmp. lia.
Qed.

(** C3. On a tree in which no node the pass visits is pending, the patch
    pass returns, the text is the old text trimmed, and the node map is
    the old one.  With exactly one pending node [p] in a tree-shaped node
    map, the pass returns; the text is the old text with the span of [p]
    replaced by its new serialisation, trimmed; and every node that comes
    after [p] in source order has its offset and bound offset moved by the
    size delta, the new content length minus the old span length, and its
    lengths kept. *)
Theorem stringifyNestNodes_patch (fuel : nat) (t : Tree)
    (options : StringifyOptions) :
  (forall L,
      walk fuel (nestNodeMap t) (nodeMap t) rootMarker = Some L ->
      noNest (nestNodeMap t) (nodeMap t) L ->
      exists t',
        stringifyNestNodes (S fuel) t options = Done t'
        /\ text t' = trim (text t) /\ nodeMap t' = nodeMap t)
  /\ (forall p np l1 l3,
        nodeMap t !! p = Some np ->
        isNest (nestNodeMap t) np = true ->
        complete fuel (nodeMap t) rootMarker = true ->
        walk fuel (nestNodeMap t) (nodeMap t) rootMarker = Some (l1 ++ p :: l3) ->
        NoDup (l1 ++ p :: l3) ->
        noNest (nestNodeMap t) (nodeMap t) (l1 ++ l3) ->
        (forall j, j ∈ l3 -> ~ reachable (nodeMap t) p j) ->
        Node.offset np + Node.length np <= slen (text t) ->
        exists f content mp t',
          stringifyNode f (nodeMap t) p options 0
                        (Node.offset np) (Node.boundOffset np)
                        (getGenTabsFn (tabWidthOrDefault options))
            = Done (content, mp)
          /\ stringifyNestNodes (S fuel) t options = Done t'
          /\ text t' = trim (jsSubstring (text t) 0 (Node.offset np)
                             +:+ content
                             +:+ jsSubstringFrom (text t)
                                   (Node.offset np + Node.length np))
          /\ forall j n,
               j ∈ l3 -> nodeMap t !! j = Some n ->
               exists n',
                 nodeMap t' !! j = Some n'
                 /\ Node.offset n' = Node.offset n + (slen content - Node.length np)
                 /\ Node.boundOffset n'
                    = Node.boundOffset n + (slen content - Node.length np)
                 /\ Node.length n' = Node.length n
                 /\ Node.boundLength n' = Node.boundLength n).
Proof.
  split.
  - intros L Hw Hnn. unfold stringifyNestNodes.
    rewrite (fixOffset_shift fuel _ options _ _ 0 [] L Hw Hnn).
    rewrite shiftAll_zero, Done_bind. cbn [store edits].
    rewrite applyEdits_nil, Done_bind. eexists. split; [reflexivity|]. done.
  - intros p np l1 l3 Hp Hnest Hc Hw Hnd Hnn Hreach Hfit.
    destruct (fixOffset_one _ options _ p np Hp Hnest fuel rootMarker []
                l1 l3 Hc Hw Hnd Hnn Hreach)
      as (f & content & mp & m' & Hstr & Hfix & Hafter & _).
    exists f, content, mp. unfold stringifyNestNodes.
    rewrite Hfix, Done_bind. cbn [store edits app].
    rewrite applyEdits_one by done. rewrite Done_bind.
    eexists. split_and!; [exact Hstr|reflexivity|done|].
    intros j n Hj Hjn. cbn [nodeMap setText setNodeMap].
    rewrite (Hafter j Hj), Hjn. simpl. eexists. split; [reflexivity|]. done.
Qed.

(** *** Structural equality *)

Lemma uniqFrom_elem (l seen : list string) (x : string) :
  x ∈ uniqFrom seen l <-> x ∈ l /\ x ∉ seen.
Proof.
  revert seen. induction l as [|y l IH]; intros seen; simpl.
  - rewrite elem_of_nil. tauto.
  - case_bool_decide as Hy.
    + rewrite IH, elem_of_cons. split; [tauto|].
      intros [[->|Hx] Hn]; [done|tauto].
    + rewrite elem_of_cons, IH, not_elem_of_cons, elem_of_cons.
      destruct (decide (x = y)) as [->|Hne]; tauto.
Qed.

Lemma union_elem (a b : list string) (x : string) :
  x ∈ union a b <-> x ∈ a \/ x ∈ b.
Proof.
  unfold union. rewrite uniqFrom_elem, elem_of_app, elem_of_nil. tauto.
Qed.

Lemma equalChildren_true (rec : Node -> Node -> res bool)
    (m1 m2 : gmap string Node) (n1 n2 : Node) (keys : list string) :
  equalChildren rec m1 m2 n1 n2 keys = Done true <->
  forall key, key ∈ keys ->
    exists c1 c2, getChild m1 n1 key = Some c1 /\ getChild m2 n2 key = Some c2
                  /\ rec c1 c2 = Done true.
Proof.
  induction keys as [|key keys IH]; simpl.
  - split; [|done]. intros _ key Hin. by apply elem_of_nil in Hin.
  - destruct (getChild m1 n1 key) as [c1|] eqn:H1;
      [destruct (getChild m2 n2 key) as [c2|] eqn:H2|].
    + destruct (rec c1 c2) as [[|]| |] eqn:Hrec; simpl.
      * rewrite IH. split.
        -- intros Hall key' Hin. apply elem_of_cons in Hin as [->|Hin]; eauto.
        -- intros Hall key' Hin. apply Hall. by right.
      * split; [done|]. intros Hall.
        destruct (Hall key ltac:(left)) as (? & ? & ? & ? & ?). congruence.
      * split; [done|]. intros Hall.
        destruct (Hall key ltac:(left)) as (? & ? & ? & ? & ?). congruence.
      * split; [done|]. intros Hall.
        destruct (Hall key ltac:(left)) as (? & ? & ? & ? & ?). congruence.
    + split; [done|]. intros Hall.
      destruct (Hall key ltac:(left)) as (? & ? & ? & ? & ?). congruence.
    + split; [done|]. intros Hall.
      destruct (Hall key ltac:(left)) as (? & ? & ? & ? & ?). congruence.
Qed.

Lemma equalChildren_total (rec : Node -> Node -> res bool)
    (m1 m2 : gmap string Node) (n1 n2 : Node) (keys : list string) :
  (forall key c1 c2, key ∈ keys ->
      getChild m1 n1 key = Some c1 -> getChild m2 n2 key = Some c2 ->
      exists b, rec c1 c2 = Done b) ->
  exists b, equalChildren rec m1 m2 n1 n2 keys = Done b.
Proof.
  induction keys as [|key keys IH]; intros Hrec; simpl; [eauto|].
  destruct (getChild m1 n1 key) as [c1|] eqn:H1; [|eauto].
  destruct (getChild m2 n2 key) as [c2|] eqn:H2; [|eauto].
  destruct (Hrec key c1 c2 ltac:(left) H1 H2) as [b ->]. simpl.
  destruct b; [|eauto]. apply IH. intros key' c1' c2' Hin. apply Hrec. by right.
Qed.

Lemma doIsEquals_S (fuel : nat) (m1 m2 : gmap string Node) (n1 n2 : Node) :
  doIsEquals (S fuel) m1 m2 n1 n2 =
  if negb (bool_decide (Node.type n1 = Node.type n2)) then Done false
  else
    match union (getChildrenKeys n1) (getChildrenKeys n2) with
    | [] => Done (bool_decide (getRawValue n1 = getRawValue n2))
    | keys => equalChildren (doIsEquals fuel m1 m2) m1 m2 n1 n2 keys
    end.
Proof. reflexivity. Qed.

(** When the comparison answers yes: same type; for two nodes without
    child keys, equal raw values; and for every key of either side, both
    children present and equal in turn.  Only membership in the key lists
    enters, not their order. *)
Lemma doIsEquals_true (fuel : nat) (m1 m2 : gmap string Node) (n1 n2 : Node) :
  doIsEquals (S fuel) m1 m2 n1 n2 = Done true <->
  Node.type n1 = Node.type n2
  /\ (getChildrenKeys n1 = [] -> getChildrenKeys n2 = [] ->
      getRawValue n1 = getRawValue n2)
  /\ (forall key, key ∈ getChildrenKeys n1 \/ key ∈ getChildrenKeys n2 ->
        exists c1 c2, getChild m1 n1 key = Some c1
                      /\ getChild m2 n2 key = Some c2
                      /\ doIsEquals fuel m1 m2 c1 c2 = Done true).
Proof.
  rewrite doIsEquals_S. case_bool_decide as Hty; simpl.
  2:{ split; [done|]. by intros [? _]. }
  destruct (union (getChildrenKeys n1) (getChildrenKeys n2)) as [|key0 keys] eqn:Hu.
  - assert (Hempty : getChildrenKeys n1 = [] /\ getChildrenKeys n2 = []).
    { split.
      - destruct (getChildrenKeys n1) as [|x l] eqn:Hx; [done|].
        assert (Hin : x ∈ union (x :: l) (getChildrenKeys n2))
          by (apply union_elem; left; left).
        rewrite Hu in Hin. by apply elem_of_nil in Hin.
      - destruct (getChildrenKeys n2) as [|x l] eqn:Hx; [done|].
        assert (Hin : x ∈ union (getChildrenKeys n1) (x :: l))
          by (apply union_elem; right; left).
        rewrite Hu in Hin. by apply elem_of_nil in Hin. }
    destruct Hempty as [He1 He2]. rewrite He1, He2. split.
    + intros [= Hraw%bool_decide_eq_true]. split_and!; [done|done|].
      intros key [Hin|Hin]; by apply elem_of_nil in Hin.
    + intros (_ & Hraw & _). f_equal. apply bool_decide_eq_true. by apply Hraw.
  - match goal with
    | |- _ <-> ?R =>
        change (equalChildren (doIsEquals fuel m1 m2) m1 m2 n1 n2 (key0 :: keys)
                = Done true <-> R)
    end.
    rewrite equalChildren_true. rewrite <- Hu.
    setoid_rewrite union_elem. split.
    + intros Hall. split_and!; [done| |done].
      intros He1 He2. rewrite He1, He2 in Hu. discriminate.
    + by intros (_ & _ & Hall).
Qed.

Lemma doIsEquals_total (m1 m2 : gmap string Node) (rk : string -> nat) :
  ranked m1 rk ->
  forall fuel n1 n2,
    (rk (Node.id n1) < fuel)%nat ->
    exists b, doIsEquals fuel m1 m2 n1 n2 = Done b.
Proof.
  intros Hrk. induction fuel as [|fuel IH]; intros n1 n2 Hlt; [lia|].
  rewrite doIsEquals_S. destruct (negb _); [eauto|].
  destruct (union _ _) as [|key0 keys]; [eauto|].
  apply equalChildren_total. intros key c1 c2 _ H1 _.
  apply IH. specialize (Hrk _ _ _ H1). lia.
Qed.

Lemma keyPerm_sym (m m' : gmap string Node) : keyPerm m m' -> keyPerm m' m.
Proof.
  intros Hp j. specialize (Hp j). destruct Hp as [n n' (? & ? & ? & ?)|];
    constructor. by split_and!.
Qed.

Lemma keyPerm_getChild (m m' : gmap string Node) (n n' : Node)
    (key : string) (c : Node) :
  keyPerm m m' -> keyPermNode n n' -> getChild m n key = Some c ->
  exists c', getChild m' n' key = Some c' /\ keyPermNode c c'.
Proof.
  intros Hm (Hid & _) Hc. unfold getChild, getChildId in *.
  rewrite <- Hid. specialize (Hm (genChildId (Node.id n) key)).
  rewrite Hc in Hm. inversion Hm; subst. eauto.
Qed.

Lemma doIsEquals_perm (fuel : nat) :
  forall m1 m2 m1' m2' n1 n2 n1' n2',
    keyPerm m1 m1' -> keyPerm m2 m2' ->
    keyPermNode n1 n1' -> keyPermNode n2 n2' ->
    doIsEquals fuel m1 m2 n1 n2 = Done true ->
    doIsEquals fuel m1' m2' n1' n2' = Done true.
Proof.
  induction fuel as [|fuel IH];
    intros m1 m2 m1' m2' n1 n2 n1' n2' Hm1 Hm2 Hn1 Hn2; [done|].
  rewrite !doIsEquals_true. intros (Hty & Hraw & Hkids).
  pose proof Hn1 as (_ & Hty1 & Hraw1 & Hk1).
  pose proof Hn2 as (_ & Hty2 & Hraw2 & Hk2).
  unfold getChildrenKeys in *. split_and!.
  - congruence.
  - intros He1 He2. rewrite <- Hraw1, <- Hraw2. apply Hraw.
    + apply Permutation_nil_r. by rewrite Hk1, He1.
    + apply Permutation_nil_r. by rewrite Hk2, He2.
  - intros key Hkey. rewrite <- Hk1, <- Hk2 in Hkey.
    destruct (Hkids key Hkey) as (c1 & c2 & H1 & H2 & Heq).
    destruct (keyPerm_getChild _ _ _ _ _ _ Hm1 Hn1 H1) as (c1' & H1' & Hc1).
    destruct (keyPerm_getChild _ _ _ _ _ _ Hm2 Hn2 H2) as (c2' & H2' & Hc2).
    exists c1', c2'. split_and!; [done|done|]. eapply IH; eauto.
Qed.

Lemma ranked_perm (m m' : gmap string Node) (rk : string -> nat) :
  keyPerm m m' -> ranked m rk -> ranked m' rk.
Proof.
  intros Hp Hrk parent key c' Hc'. specialize (Hp (genChildId parent key)).
  rewrite Hc' in Hp. inversion Hp as [c ? (Hid & _) Hc|]; subst.
  rewrite <- Hid. eapply Hrk. by symmetry.
Qed.

(** The comparison on corresponding nodes, as a whole. *)
Lemma doIsEquals_facts (fuel : nat) (m1 m2 : gmap string Node) (n1 n2 : Node) :
  (Node.type n1 <> Node.type n2 ->
     doIsEquals (S fuel) m1 m2 n1 n2 = Done false)
  /\ (forall rk key,
        ranked m1 rk -> (rk (Node.id n1) < S fuel)%nat ->
        key ∈ getChildrenKeys n1 \/ key ∈ getChildrenKeys n2 ->
        getChild m1 n1 key = None \/ getChild m2 n2 key = None ->
        doIsEquals (S fuel) m1 m2 n1 n2 = Done false)
  /\ (getChildrenKeys n1 = [] -> getChildrenKeys n2 = [] ->
      Node.type n1 = Node.type n2 ->
      doIsEquals (S fuel) m1 m2 n1 n2
        = Done (bool_decide (getRawValue n1 = getRawValue n2)))
  /\ (forall rk m1' m2' n1' n2',
        ranked m1 rk -> (rk (Node.id n1) < S fuel)%nat ->
        keyPerm m1 m1' -> keyPerm m2 m2' ->
        keyPermNode n1 n1' -> keyPermNode n2 n2' ->
        doIsEquals (S fuel) m1' m2' n1' n2' = doIsEquals (S fuel) m1 m2 n1 n2).
Proof.
  split_and!.
  - intros Hty. rewrite doIsEquals_S. by rewrite bool_decide_false.
  - intros rk key Hrk Hlt Hkey Hmiss.
    destruct (doIsEquals_total m1 m2 rk Hrk (S fuel) n1 n2 Hlt) as [[|] Hb];
      [|done].
    apply doIsEquals_true in Hb as (_ & _ & Hkids).
    destruct (Hkids key Hkey) as (c1 & c2 & H1 & H2 & _).
    destruct Hmiss; congruence.
  - intros He1 He2 Hty. rewrite doIsEquals_S, He1, He2.
    by rewrite bool_decide_true.
  - intros rk m1' m2' n1' n2' Hrk Hlt Hm1 Hm2 Hn1 Hn2.
    destruct (doIsEquals_total m1 m2 rk Hrk (S fuel) n1 n2 Hlt) as [b Hb].
    assert (Hlt' : (rk (Node.id n1') < S fuel)%nat).
    { destruct Hn1 as (<- & _). done. }
    destruct (doIsEquals_total m1' m2' rk (ranked_perm _ _ _ Hm1 Hrk)
                (S fuel) n1' n2' Hlt') as [b' Hb'].
    rewrite Hb, Hb'. f_equal.
    destruct b, b'; try done.
    + eapply doIsEquals_perm in Hb; eauto. congruence.
    + eapply (doIsEquals_perm _ m1' m2' m1 m2 n1' n2' n1 n2) in Hb'.
      * congruence.
      * by apply keyPerm_sym.
      * by apply keyPerm_sym.
      * destruct Hn1 as (? & ? & ? & ?). by split_and!.
      * destruct Hn2 as (? & ? & ? & ?). by split_and!.
Qed.

Lemma doIsEquals_structEq (fuel : nat) (m1 m2 : gmap string Node) :
  forall n1 n2,
    doIsEquals fuel m1 m2 n1 n2 = Done true -> structEq m1 m2 n1 n2.
Proof.
  induction fuel as [|fuel IH]; intros n1 n2 Heq; [discriminate|].
  apply doIsEquals_true in Heq as (Hty & Hraw & Hkids).
  constructor; [done|done|].
  intros key Hkey. destruct (Hkids key Hkey) as (c1 & c2 & H1 & H2 & Hc).
  exists c1, c2. split_and!; [done..|]. by apply IH.
Qed.

Lemma structEq_doIsEquals (m1 m2 : gmap string Node) (rk : string -> nat) :
  ranked m1 rk ->
  forall fuel n1 n2,
    (rk (Node.id n1) < fuel)%nat ->
    structEq m1 m2 n1 n2 -> doIsEquals fuel m1 m2 n1 n2 = Done true.
Proof.
  intros Hrk. induction fuel as [|fuel IH]; intros n1 n2 Hlt Heq; [lia|].
  inversion Heq as [? ? Hty Hraw Hkids]; subst.
  apply doIsEquals_true. split_and!; [done..|].
  intros key Hkey. destruct (Hkids key Hkey) as (c1 & c2 & H1 & H2 & Hc).
  exists c1, c2. split_and!; [done..|].
  apply IH; [|done]. specialize (Hrk _ _ _ H1). lia.
Qed.

Lemma structEq_corresponding (m1 m2 : gmap string Node) (n1 n2 x1 x2 : Node) :
  corresponding m1 m2 n1 n2 x1 x2 ->
  structEq m1 m2 n1 n2 -> structEq m1 m2 x1 x2.
Proof.
  induction 1 as [|n1 n2 key c1 c2 x1 x2 Hkey H1 H2 _ IH]; intros Heq; [done|].
  apply IH. inversion Heq as [? ? _ _ Hkids]; subst.
  destruct (Hkids key Hkey) as (c1' & c2' & H1' & H2' & Hc). congruence.
Qed.

Lemma structEq_differHere (m1 m2 : gmap string Node) (x1 x2 : Node) :
  structEq m1 m2 x1 x2 -> ~ differHere m1 m2 x1 x2.
Proof.
  intros Heq Hd. inversion Heq as [? ? Hty Hraw Hkids]; subst.
  destruct Hd as [Hd|[(key & Hkey & Hnone)|(He1 & He2 & Hd)]].
  - done.
  - destruct (Hkids key Hkey) as (c1 & c2 & H1 & H2 & _).
    destruct Hnone; congruence.
  - by apply Hd, Hraw.
Qed.

(** What [isEquals] answers on two trees, the first of which has no cycle
    and is less than [fuel] levels deep. *)
Lemma isEquals_spec (fuel : nat) (t1 t2 : Tree) (r1 r2 : Node)
    (rk : string -> nat) :
  root t1 = Some r1 -> root t2 = Some r2 ->
  ranked (nodeMap t1) rk -> (rk (Node.id r1) < fuel)%nat ->
  (exists b, isEquals fuel t1 t2 = Done b
             /\ (b = true <-> structEq (nodeMap t1) (nodeMap t2) r1 r2))
  /\ (forall x1 x2,
        corresponding (nodeMap t1) (nodeMap t2) r1 r2 x1 x2 ->
        differHere (nodeMap t1) (nodeMap t2) x1 x2 ->
        isEquals fuel t1 t2 = Done false)
  /\ (forall x1 x2,
        corresponding (nodeMap t1) (nodeMap t2) r1 r2 x1 x2 ->
        getChildrenKeys x1 = [] -> getChildrenKeys x2 = [] ->
        Node.type x1 = Node.type x2 ->
        forall f, doIsEquals (S f) (nodeMap t1) (nodeMap t2) x1 x2
                  = Done (bool_decide (getRawValue x1 = getRawValue x2)))
  /\ (forall t1' t2',
        keyPerm (nodeMap t1) (nodeMap t1') -> keyPerm (nodeMap t2) (nodeMap t2') ->
        isEquals fuel t1' t2' = isEquals fuel t1 t2).
Proof.
  intros Hr1 Hr2 Hrk Hlt.
  assert (Hrun : isEquals fuel t1 t2
                 = doIsEquals fuel (nodeMap t1) (nodeMap t2) r1 r2)
    by (unfold isEquals; by rewrite Hr1, Hr2).
  destruct (doIsEquals_total _ (nodeMap t2) _ Hrk fuel r1 r2 Hlt) as [b Hb].
  assert (Hiff : b = true <-> structEq (nodeMap t1) (nodeMap t2) r1 r2).
  { split.
    - intros ->. by apply (doIsEquals_structEq fuel).
    - intros Heq. rewrite (structEq_doIsEquals _ _ rk Hrk fuel _ _ Hlt Heq) in Hb.
      congruence. }
  split_and!.
  - exists b. by rewrite Hrun.
  - intros x1 x2 Hcorr Hd. rewrite Hrun, Hb. f_equal.
    destruct b; [|done]. exfalso.
    apply (structEq_differHere _ _ _ _
             (structEq_corresponding _ _ _ _ _ _ Hcorr (proj1 Hiff eq_refl)) Hd).
  - intros x1 x2 _ He1 He2 Hty f.
    by apply (proj1 (proj2 (proj2 (doIsEquals_facts f _ _ x1 x2)))).
  - intros t1' t2' Hp1 Hp2. unfold isEquals, root, node in *.
    pose proof (Hp1 rootMarker) as Hq1. pose proof (Hp2 rootMarker) as Hq2.
    rewrite Hr1 in Hq1. rewrite Hr2 in Hq2.
    inversion Hq1 as [? r1' Hn1 E1 E1'|]; subst.
    inversion Hq2 as [? r2' Hn2 E2 E2'|]; subst.
    rewrite Hr1, Hr2. destruct fuel as [|f]; [lia|].
    by apply (proj2 (proj2 (proj2 (doIsEquals_facts f _ _ r1 r2))) rk).
Qed.

(** *** The executable checks are sound *)

Lemma forallb_map_Forall (P : Node -> Prop) (b : Node -> bool)
    (m : gmap string Node) :
  (forall n, b n = true -> P n) ->
  forallb (fun kn : string * Node => b kn.2) (map_to_list m) = true ->
  map_Forall (fun _ n => P n) m.
Proof.
  intros Hb Hall k n Hk. rewrite forallb_forall in Hall.
  apply Hb. apply (Hall (k, n)). apply list_elem_of_In.
  by apply elem_of_map_to_list.
Qed.



Lemma spanOkb_spec (n : Node) : spanOkb n = true -> spanOk n.
Proof.
  unfold spanOkb, spanOk. rewrite andb_true_iff, Z.leb_le, Z.eqb_eq. done.
Qed.

Lemma allSpanOkb_spec (m : gmap string Node) :
  allSpanOkb m = true -> map_Forall (fun _ n => spanOk n) m.
Proof. apply forallb_map_Forall, spanOkb_spec. Qed.

Lemma noNestb_spec (nest : option (gmap string Node)) (m : gmap string Node)
    (L : list string) :
  noNestb nest m L = true -> noNest nest m L.
Proof.
  unfold noNestb. rewrite forallb_forall. intros Hall j n Hj Hjn.
  specialize (Hall j). rewrite Hjn in Hall.
  apply negb_true_iff, Hall. by apply list_elem_of_In.
Qed.

Lemma reachable_reachList (m : gmap string Node) (k j : string) :
  reachable m k j ->
  forall fuel, complete fuel m k = true -> j ∈ reachList fuel m k.
Proof.
  induction 1 as [k|k n key j Hk Hit Hkey _ IH]; intros fuel Hc.
  - destruct fuel as [|fuel]; [done|]. simpl.
    destruct (m !! k) as [n|]; [|left]. destruct (isIterable n); left.
  - destruct fuel as [|fuel]; [done|].
    pose proof (complete_child _ _ _ _ _ Hc Hk Hkey) as Hcc.
    simpl. rewrite Hk, Hit. right.
    eapply elem_of_concat_2; [|apply IH, Hcc].
    apply list_elem_of_fmap. eauto.
Qed.

Lemma keyPerm_refl (m : gmap string Node) : keyPerm m m.
Proof. intros j. destruct (m !! j); constructor. by split_and!. Qed.

End TreeFacts.

(** ** The sample scheme: its node maps have no cycle *)

Section SampleFacts.

#[local] Existing Instance Sample.helpers.

Lemma sample_ranked (m : gmap string Node) :
  Sample.idsOkb m = true -> ranked m Sample.sampleRank.
Proof.
  unfold Sample.idsOkb. rewrite forallb_forall. intros Hall parent key c Hc.
  specialize (Hall (genChildId parent key, c)).
  rewrite andb_true_iff in Hall. destruct Hall as [Hid Hlen].
  { apply list_elem_of_In. by apply elem_of_map_to_list. }
  apply bool_decide_eq_true in Hid. apply Z.ltb_lt in Hlen. simpl in Hid, Hlen.
  rewrite Hid. unfold Sample.sampleRank. simpl in *.
  rewrite !slen_app in *. pose proof (slen_nonneg parent).
  pose proof (slen_nonneg key). change (slen "/") with 1 in *. lia.
Qed.

Import Sample.

(** C4. On two trees with a root each, the first without a cycle,
    [isEquals] returns, and it answers yes exactly when the roots are
    structurally equal: same type, equal raw values when neither lists a
    key, and under every key of either side (the union of both key lists)
    a child on both sides, equal in turn.  So it answers no whenever two
    corresponding nodes, at the roots or anywhere below, differ in type,
    have a key of either under which one has no child, or are two nodes
    without keys whose raw values differ; on two corresponding nodes
    without keys of the same type the comparison is that of the raw
    values; and the answer does not depend on the order of the stored
    keys.  The two objects with keys [a], [b] in either order are equal,
    the object with key [a] alone is not equal to the one with [a] and
    [b], and [{"a":1}] is not equal to [{"a":"1"}]. *)
Theorem isEquals_structural :
  (forall (H : Helpers) fuel t1 t2 r1 r2 rk,
      @root H t1 = Some r1 -> @root H t2 = Some r2 ->
      @ranked H (nodeMap t1) rk -> (rk (Node.id r1) < fuel)%nat ->
      (exists b, @isEquals H fuel t1 t2 = Done b
                 /\ (b = true <-> @structEq H (nodeMap t1) (nodeMap t2) r1 r2))
      /\ (forall x1 x2,
            @corresponding H (nodeMap t1) (nodeMap t2) r1 r2 x1 x2 ->
            @differHere H (nodeMap t1) (nodeMap t2) x1 x2 ->
            @isEquals H fuel t1 t2 = Done false)
      /\ (forall x1 x2,
            @corresponding H (nodeMap t1) (nodeMap t2) r1 r2 x1 x2 ->
            getChildrenKeys x1 = [] -> getChildrenKeys x2 = [] ->
            Node.type x1 = Node.type x2 ->
            forall f, @doIsEquals H (S f) (nodeMap t1) (nodeMap t2) x1 x2
                      = Done (bool_decide (@getRawValue H x1 = @getRawValue H x2)))
      /\ (forall t1' t2',
            @keyPerm H (nodeMap t1) (nodeMap t1') ->
            @keyPerm H (nodeMap t2) (nodeMap t2') ->
            @isEquals H fuel t1' t2' = @isEquals H fuel t1 t2))
  /\ isEquals 10 (treeOf ab) (treeOf ba) = Done true
  /\ isEquals 10 (treeOf a1) (treeOf ab) = Done false
  /\ isEquals 10 (treeOf a1) (treeOf a1s) = Done false.
Proof.
  split_and!.
  - intros H' fuel t1 t2 r1 r2 rk. apply isEquals_spec.
  - vm_compute. reflexivity.
  - vm_compute. reflexivity.
  - vm_compute. reflexivity.
Qed.

Lemma isEquals_structural_witness :
  isEquals 100 (treeOf a1) (treeOf a1s) = Done false.
Proof.
  assert (Hrk : ranked (nodeMap (treeOf a1)) sampleRank)
    by (apply sample_ranked; vm_compute; reflexivity).
  apply (proj1 (proj2 (proj1 isEquals_structural helpers 100%nat
                         (treeOf a1) (treeOf a1s)
                         (nodeAt (nodeMap (treeOf a1)) "root")
                         (nodeAt (nodeMap (treeOf a1s)) "root") sampleRank
                         eq_refl eq_refl Hrk ltac:(vm_compute; lia)))
           (nodeAt (nodeMap (treeOf a1)) "root/a")
           (nodeAt (nodeMap (treeOf a1s)) "root/a")).
  - eapply (corresponding_child _ _ _ _ "a");
      [left; vm_compute; left|vm_compute; reflexivity|vm_compute; reflexivity|].
    apply corresponding_here.
  - left. vm_compute. discriminate.
Defined.

(** *** The properties at the sample trees *)



Lemma offset_invariant_after_pass_witness :
  spanOk (nodeAt (nodeMap (stringified (unindexed mixed) pretty).2) "root/a/x")
  /\ map_Forall (fun _ n => spanOk n) (nodeMap (patchedBy patched compact))
  /\ exists n', nodeMap (patchedBy patched compact) !! "root/b/1" = Some n'
                /\ Node.length n' = 3 /\ spanOk n'.
Proof.
  assert (Hrun : stringifyNestNodes 11 patched compact
                 = Done (patchedBy patched compact)) by (vm_compute; reflexivity).
  split_and!.
  - eapply (proj1 (proj2 (proj2 (offset_invariant_after_pass 100 pretty)))
              (unindexed mixed) (stringified (unindexed mixed) pretty).1
              (stringified (unindexed mixed) pretty).2 eq_refl).
    + vm_compute. reflexivity.
    + eapply (reach_child _ "root" _ "a"); [vm_compute; reflexivity|reflexivity| |].
      * vm_compute. right. left.
      * eapply (reach_child _ _ _ "x"); [vm_compute; reflexivity|reflexivity| |].
        -- vm_compute. left.
        -- apply reach_refl.
    + vm_compute. reflexivity.
  - intros j n' Hj.
    destruct (proj1 (proj2 (proj2 (proj2 (offset_invariant_after_pass 11 compact))))
                patched (patchedBy patched compact) Hrun j n' Hj)
      as (n & Hn & Hok).
    apply Hok.
    assert (Hall : map_Forall (fun _ n => spanOk n) (nodeMap patched))
      by (apply allSpanOkb_spec; vm_compute; reflexivity).
    by eapply Hall.
  - assert (Hpend : pending (nestNodeMap patched) (nodeMap patched)
                            rootMarker "root/b").
    { eapply (pending_child _ _ "root" _ "b");
        [vm_compute; reflexivity|vm_compute; reflexivity|vm_compute; left|].
      eapply pending_here; vm_compute; reflexivity. }
    assert (Hreach : reachable (nodeMap patched) "root/b" "root/b/1").
    { eapply (reach_child _ "root/b" _ "1");
        [vm_compute; reflexivity|reflexivity|vm_compute; right; left|].
      apply reach_refl. }
    assert (Hp : nodeMap patched !! "root/b"
                 = Some (nodeAt (nodeMap patched) "root/b"))
      by (vm_compute; reflexivity).
    assert (Hj : nodeMap (patchedBy patched compact) !! "root/b/1"
                 = Some (nodeAt (nodeMap (patchedBy patched compact)) "root/b/1"))
      by (vm_compute; reflexivity).
    exists (nodeAt (nodeMap (patchedBy patched compact)) "root/b/1").
    split; [exact Hj|]. split; [vm_compute; reflexivity|].
    apply (proj2 (proj2 (proj2 (proj2 (offset_invariant_after_pass 11 compact))))
             patched (patchedBy patched compact) "root/b"
             (nodeAt (nodeMap patched) "root/b") eq_refl Hrun Hpend Hp
             ltac:(vm_compute; discriminate) "root/b/1" _ Hreach Hj).
Defined.

(** A pass started with a bound offset beyond the offset leaves the node
    it is called on with it; and the patch pass leaves the root of
    [brokenSpan], which it visits and does not serialise anew, with the
    bound span that ends at 12 and the span that ends at 7 it had. *)
Lemma offset_invariant_not_established :
  (stringifyNode 100 (nodeMap (treeOf a1)) rootMarker compact 0 0 5 (tabs compact)
   = Done (stringifiedNode (nodeMap (treeOf a1)) rootMarker compact 0 5)
   /\ exists n',
        (stringifiedNode (nodeMap (treeOf a1)) rootMarker compact 0 5).2 !! rootMarker
        = Some n'
        /\ ~ Node.boundOffset n' <= Node.offset n')
  /\ (stringifyNestNodes 11 brokenSpan compact = Done (patchedBy brokenSpan compact)
      /\ exists r,
           root (patchedBy brokenSpan compact) = Some r
           /\ Node.boundOffset r + Node.boundLength r = 12
           /\ Node.offset r + Node.length r = 7
           /\ ~ spanOk r).
Proof.
  split.
  - split; [vm_compute; reflexivity|].
    exists (nodeAt (stringifiedNode (nodeMap (treeOf a1)) rootMarker compact 0 5).2
                   rootMarker).
    split; [vm_compute; reflexivity|].
    vm_compute. intros Hle. by apply Hle.
  - split; [vm_compute; reflexivity|].
    exists (nodeAt (nodeMap (patchedBy brokenSpan compact)) rootMarker).
    split_and!; [vm_compute; reflexivity..|].
    intros [_ Heq]. vm_compute in Heq. discriminate.
Qed.

Lemma stringifyNestNodes_patch_witness :
  (exists t',
      stringifyNestNodes 11 (treeOf mixed) compact = Done t'
      /\ text t' = trim (text (treeOf mixed))
      /\ nodeMap t' = nodeMap (treeOf mixed))
  /\ (exists f content mp t',
        stringifyNode f (nodeMap patched) "root/b" compact 0
                      (Node.offset (nodeAt (nodeMap patched) "root/b"))
                      (Node.boundOffset (nodeAt (nodeMap patched) "root/b"))
                      (getGenTabsFn (tabWidthOrDefault compact))
          = Done (content, mp)
        /\ stringifyNestNodes 11 patched compact = Done t'
        /\ text t' = trim (jsSubstring (text patched) 0
                              (Node.offset (nodeAt (nodeMap patched) "root/b"))
                           +:+ content
                           +:+ jsSubstringFrom (text patched)
                                 (Node.offset (nodeAt (nodeMap patched) "root/b")
                                  + Node.length (nodeAt (nodeMap patched) "root/b")))
        /\ forall j n,
             j ∈ ["root/a"; "root/a/x"] -> nodeMap patched !! j = Some n ->
             exists n',
               nodeMap t' !! j = Some n'
               /\ Node.offset n'
                  = Node.offset n
                    + (slen content - Node.length (nodeAt (nodeMap patched) "root/b"))
               /\ Node.boundOffset n'
                  = Node.boundOffset n
                    + (slen content - Node.length (nodeAt (nodeMap patched) "root/b"))
               /\ Node.length n' = Node.length n
               /\ Node.boundLength n' = Node.boundLength n).
Proof.
  split.
  - apply (proj1 (stringifyNestNodes_patch 10 (treeOf mixed) compact)
             ["root"; "root/b"; "root/b/0"; "root/b/1"; "root/a"; "root/a/x"]).
    + vm_compute. reflexivity.
    + apply noNestb_spec. vm_compute. reflexivity.
  - apply (proj2 (stringifyNestNodes_patch 10 patched compact)
             "root/b" (nodeAt (nodeMap patched) "root/b")
             ["root"] ["root/a"; "root/a/x"]).
    + vm_compute. reflexivity.
    + vm_compute. reflexivity.
    + vm_compute. reflexivity.
    + vm_compute. reflexivity.
    + apply (bool_decide_unpack _). vm_compute. exact I.
    + apply noNestb_spec. vm_compute. reflexivity.
    + intros j Hj Hr.
      assert (Hin : j ∈ reachList 10 (nodeMap patched) "root/b").
      { apply (reachable_reachList _ _ _ Hr 10%nat). vm_compute. reflexivity. }
      vm_compute in Hin.
      apply list_elem_of_In in Hj. apply list_elem_of_In in Hin.
      simpl in Hj, Hin.
      destruct Hj as [<-|[<-|[]]];
        destruct Hin as [Hin|[Hin|[Hin|[]]]]; discriminate Hin.
    + vm_compute. discriminate.
Defined.



Lemma stringify_pure_spans_witness :
  (forall j,
      Node.spans <$> (stringifiedNode (nodeMap a1Pretty) "root" purely 0 0).2 !! j
      = Node.spans <$> nodeMap a1Pretty !! j)
  /\ text (stringified a1Pretty purely).2 = (stringified a1Pretty purely).1
  /\ Node.spans <$> root (stringified a1Pretty purely).2
     = Some (0, slen (stringified a1Pretty purely).1, 0, 12).
Proof.
  pose proof (stringify_pure_spans 100 purely eq_refl) as (Hnode & _ & Htree).
  split.
  - apply (Hnode (nodeMap a1Pretty) "root" 0%nat 0 0 (tabs purely)
             (stringifiedNode (nodeMap a1Pretty) "root" purely 0 0).1).
    vm_compute. reflexivity.
  - destruct (Htree a1Pretty (stringified a1Pretty purely).1
                (stringified a1Pretty purely).2) as (Htxt & _ & r & Hr & Hsp).
    + vm_compute. reflexivity.
    + split; [exact Htxt|]. rewrite Hsp. vm_compute in Hr.
      injection Hr as <-. reflexivity.
Defined.

(** C6 does not hold of [stringify]: in pure mode it still overwrites the
    length of the root.  The object with key [a], indexed
    by a pretty-printing pass, has a root of length 12; a pure compact
    [stringify] leaves it with length 7. *)
Lemma stringify_pure_rewrites_root_length :
  ~ (forall (t : Tree) (options : StringifyOptions) (s : string) (t' : Tree),
        pure options = true ->
        stringify 100 t options = Done (s, t') ->
        forall j, Node.spans <$> nodeMap t' !! j = Node.spans <$> nodeMap t !! j).
Proof.
  intros Hclaim.
  specialize (Hclaim a1Pretty purely (stringified a1Pretty purely).1
                (stringified a1Pretty purely).2 eq_refl).
  assert (Hrun : stringify 100 a1Pretty purely
                 = Done ((stringified a1Pretty purely).1,
                         (stringified a1Pretty purely).2))
    by (vm_compute; reflexivity).
  specialize (Hclaim Hrun "root"). vm_compute in Hclaim. discriminate Hclaim.
Qed.

Lemma findNodeAtOffset_invalid_witness :
  findNodeAtOffset 5 broken 3 = Done None.
Proof.
  apply (proj2 (findNodeAtOffset_invalid broken 5 3)). vm_compute. reflexivity.
Defined.

Lemma stringifyNode_missing_raw_witness :
  exists m',
    stringifyNode 1 (nodeMap (unindexed holed)) "root/1" compact 0 3 3 (tabs compact)
      = Done (EmptyString, m')
    /\ (pure compact = true -> m' = nodeMap (unindexed holed))
    /\ (pure compact = false ->
        (exists n', m' !! "root/1" = Some n' /\ Node.length n' = 0
                    /\ Node.offset n' = 3 /\ Node.boundOffset n' = 3)
        /\ forall j, j <> "root/1" -> m' !! j = nodeMap (unindexed holed) !! j).
Proof.
  apply (stringifyNode_missing_raw 0 (nodeMap (unindexed holed)) "root/1"
           (nodeAt (nodeMap (unindexed holed)) "root/1") compact 0 3 3 (tabs compact)).
  - vm_compute. reflexivity.
  - vm_compute. reflexivity.
  - vm_compute. reflexivity.
Defined.

Lemma findNodeAtOffset_zero_witness :
  findNodeAtOffset 1 (treeOf mixed) 0 = Done None
  /\ findNodeAtOffset 1 (stringified (unindexed a1) pretty).2 0 = Done None.
Proof.
  split.
  - apply (proj1 (findNodeAtOffset_zero 0) (treeOf mixed)
             (nodeAt (nodeMap (treeOf mixed)) "root")).
    + vm_compute. reflexivity.
    + vm_compute. reflexivity.
    + vm_compute. discriminate.
  - apply (proj2 (findNodeAtOffset_zero 0) 100%nat (unindexed a1) pretty
             (stringified (unindexed a1) pretty).1
             (stringified (unindexed a1) pretty).2).
    + reflexivity.
    + vm_compute. reflexivity.
    + vm_compute. reflexivity.
    + vm_compute. reflexivity.
Defined.

(** *** The examples of the spec *)

(** The boundary example of the spec: in the object with key [a] and
    value 1, the offset just after the value resolves to the node of [a]
    as a value, and offset 1, just after the opening brace, to the root as
    a node. *)
Lemma findNodeAtOffset_boundary :
  (exists n, findNodeAtOffset 10 (treeOf a1) 6 = Done (Some (n, HitValue))
             /\ Node.id n = "root/a")
  /\ (exists n, findNodeAtOffset 10 (treeOf a1) 1 = Done (Some (n, HitNode))
               /\ Node.id n = "root").
Proof.
  split; eexists; (split; [vm_compute; reflexivity|reflexivity]).
Qed.

End SampleFacts.

(** ** The tab generator, transfer objects *)

Lemma slen_repeatString (s : string) (n : nat) :
  slen (repeatString s n) = Z.of_nat n * slen s.
Proof.
  induction n as [|n IH]; [reflexivity|].
  change (repeatString s (S n)) with (repeatString s n +:+ s).
  rewrite slen_app, IH. lia.
Qed.

Lemma pushTabs_seq (tab : string) (count n : nat) :
  pushTabs tab count (repeatString tab <$> seq 0 (S n))
  = repeatString tab <$> seq 0 (S (n + count)).
Proof.
  revert n. induction count as [|count IH]; intros n.
  - by rewrite Nat.add_0_r.
  - cbn [pushTabs].
    replace (last (repeatString tab <$> seq 0 (S n)))
      with (Some (repeatString tab n)).
    + cbn [default].
      change (repeatString tab n +:+ tab) with (repeatString tab (S n)).
      replace ((repeatString tab <$> seq 0 (S n)) ++ [repeatString tab (S n)])
        with (repeatString tab <$> seq 0 (S (S n))).
      * rewrite IH. do 3 f_equal. lia.
      * rewrite (seq_S (S n)), fmap_app. reflexivity.
    + rewrite fmap_last, seq_S, last_snoc. reflexivity.
Qed.

Lemma genTabsAfter_seq (tabWidth : nat) (levels : list nat) :
  exists n, genTabsAfter tabWidth levels
            = repeatString (repeatString " " tabWidth) <$> seq 0 (S n).
Proof.
  unfold genTabsAfter.
  assert (Hgen : forall cached n,
             cached = repeatString (repeatString " " tabWidth) <$> seq 0 (S n) ->
             exists n', foldl (fun cached level =>
                                 (genTabsCall (repeatString " " tabWidth) cached level).1)
                              cached levels
                        = repeatString (repeatString " " tabWidth) <$> seq 0 (S n')).
  { induction levels as [|level levels IH]; intros cached n ->; [by exists n|].
    cbn [foldl]. unfold genTabsCall at 2. cbn [fst].
    rewrite pushTabs_seq. eapply IH. reflexivity. }
  apply (Hgen _ 0%nat). reflexivity.
Qed.

(** X1. However the closure returned by [getGenTabsFn] has been called
    before, a call with [level] returns [level] copies of the tab, that is
    [tabWidth * level] characters: the cache never changes an answer. *)
Theorem getGenTabsFn_cache (tabWidth : nat) (levels : list nat) (level : nat) :
  (genTabsCall (repeatString " " tabWidth) (genTabsAfter tabWidth levels) level).2
  = Some (getGenTabsFn tabWidth level)
  /\ slen (getGenTabsFn tabWidth level) = Z.of_nat (tabWidth * level).
Proof.
  split.
  - destruct (genTabsAfter_seq tabWidth levels) as [n ->].
    unfold genTabsCall. cbn [snd]. rewrite length_fmap, length_seq.
    rewrite pushTabs_seq, list_lookup_fmap, lookup_seq_lt by lia.
    reflexivity.
  - unfold getGenTabsFn. rewrite !slen_repeatString.
    change (slen " ") with 1. lia.
Qed.

(** X2. A tree sent through [toObject] and rebuilt by [fromObject] is the
    same tree, except that the pending-node map is the one handed to
    [fromObject]: [toObject] does not carry it. *)
Theorem fromObject_toObject (t : Tree) (nest nest' : option (gmap string Node)) :
  fromObject (toObject t) nest = setNestNodeMap nest t
  /\ toObject (setNestNodeMap nest' t) = toObject t
  /\ fromObject (toObject t) (nestNodeMap t) = t.
Proof.
  destruct t as [m s n [e|] [v|]]; split_and!; reflexivity.
Qed.

(** X3. A transfer object rebuilt into a tree and sent back is the same
    object exactly when it has a node map and a text; a missing node map
    comes back as the empty map and a missing text as the empty string,
    the defaults of the constructor. *)
Theorem toObject_fromObject (o : TreeObject) (nest : option (gmap string Node)) :
  (toObject (fromObject o nest) = o
   <-> is_Some (objNodeMap o) /\ is_Some (objText o))
  /\ nodeMap (fromObject o nest) = default ∅ (objNodeMap o)
  /\ text (fromObject o nest) = default EmptyString (objText o)
  /\ errors (fromObject o nest) = objErrors o
  /\ version (fromObject o nest) = objVersion o
  /\ nestNodeMap (fromObject o nest) = nest.
Proof.
  destruct o as [[m|] [s|] [e|] [v|]]; (split; [|by split_and!]);
    (split; [intros Heq | intros [[? ?] [? ?]]]);
    try discriminate; try reflexivity;
    cbv in Heq; try discriminate; split; eauto.
Qed.

Section BehaviourFacts.

Context `{Helpers}.

(** *** The stringifier in compact mode *)

Lemma stringifyChildren_compact
    (rec rec' : string -> Z -> Z -> gmap string Node -> res (string * gmap string Node))
    (n : Node) (isObject : bool) (gt gt' : nat -> string) (lvl lvl' : nat)
    (off : Z) :
  (forall ck co cbo mm, rec ck co cbo mm = rec' ck co cbo mm) ->
  forall keys s m,
    stringifyChildren rec n false isObject gt lvl off keys s m
    = stringifyChildren rec' n false isObject gt' lvl' off keys s m.
Proof.
  intros Hrec keys. induction keys as [|key rest IH]; intros s m; [reflexivity|].
  cbn [stringifyChildren]. rewrite Hrec.
  destruct (rec' _ _ _ m) as [[c m1]| |]; [|reflexivity..].
  rewrite !Done_bind. destruct rest; apply IH.
Qed.

Lemma stringifyNode_compact_any (fuel : nat) (o o' : StringifyOptions) :
  format o = false -> format o' = false ->
  sort o' = sort o -> pure o' = pure o ->
  forall m k lvl lvl' off boff gt gt',
    stringifyNode fuel m k o lvl off boff gt
    = stringifyNode fuel m k o' lvl' off boff gt'.
Proof.
  intros Hf Hf' Hs Hp.
  induction fuel as [|fuel IH]; intros m k lvl lvl' off boff gt gt'; [reflexivity|].
  destruct (m !! k) as [n|] eqn:Hk; [|simpl; by rewrite Hk].
  destruct (isIterable n) eqn:Hit.
  - rewrite !(stringifyNode_container _ _ _ n) by done. rewrite Hf, Hf', Hp.
    assert (keysOf o' n = keysOf o n) as -> by (unfold keysOf; by rewrite Hs).
    assert (prepared o' off boff k n m = prepared o off boff k n m) as ->
      by (unfold prepared, keysOf; by rewrite Hs, Hp).
    rewrite (stringifyChildren_compact _
               (fun ck co cbo mm =>
                  stringifyNode fuel mm ck o' (S lvl') co cbo gt')
               n _ gt gt' lvl lvl'); [reflexivity|].
    intros ck co cbo mm. apply IH.
  - rewrite !(stringifyNode_leaf _ _ _ n) by done. by rewrite Hp.
Qed.

(** X4. Without [format], neither the indent level nor the tab generator
    is used: a compact pass gives the same text and the same spans
    whatever they are, and [stringify] gives the same result whatever the
    tab width of the options is. *)
Theorem stringifyNode_compact_ignores_indent (fuel : nat)
    (options : StringifyOptions) :
  format options = false ->
  (forall m k lvl lvl' off boff gt gt',
      stringifyNode fuel m k options lvl off boff gt
      = stringifyNode fuel m k options lvl' off boff gt')
  /\ (forall t w,
        stringify fuel t (withTabWidth w options) = stringify fuel t options).
Proof.
  intros Hf. split.
  - intros m k lvl lvl' off boff gt gt'.
    by apply stringifyNode_compact_any.
  - intros t w. unfold stringify.
    by rewrite (stringifyNode_compact_any fuel (withTabWidth w options) options
                  Hf Hf eq_refl eq_refl (nodeMap t) rootMarker 0%nat 0%nat 0 0
                  (getGenTabsFn (tabWidthOrDefault (withTabWidth w options)))
                  (getGenTabsFn (tabWidthOrDefault options))).
Qed.

(** *** A pass returns only on a closed subtree *)

(** X5. [stringifyNode] returns normally only if every node it has to
    visit is in the node map; a child key without its node makes the call
    throw. *)
Theorem stringifyNode_needs_children (fuel : nat) :
  forall m k options lvl off boff gt s m',
    stringifyNode fuel m k options lvl off boff gt = Done (s, m') ->
    forall j, reachable m k j -> is_Some (m !! j).
Proof.
  induction fuel as [|fuel IH]; intros m k options lvl off boff gt s m' Hrun;
    [discriminate|].
  destruct (m !! k) as [n|] eqn:Hk; [|simpl in Hrun; by rewrite Hk in Hrun].
  destruct (isIterable n) eqn:Hit.
  - rewrite (stringifyNode_container _ _ _ n) in Hrun by done.
    apply bind_Done in Hrun as ([s2 m2] & Hloop & _).
    set (fine := fun key => forall j, reachable m (getChildId n key) j ->
                                      is_Some (m !! j)).
    assert (Hall : sameShape m m2
                   /\ ((forall key, key ∈ @nil string -> fine key) ->
                       forall key, key ∈ keysOf options n -> fine key)).
    { eapply (stringifyChildren_inv
                (fun rem mi => sameShape m mi
                   /\ ((forall key, key ∈ rem -> fine key) ->
                       forall key, key ∈ keysOf options n -> fine key)));
        [| |exact Hloop].
      - intros key rest mi co cbo c mi' _ [Hsh Hfine] Hrec. split.
        + eapply sameShape_trans; [exact Hsh|]. eapply stringifyNode_shape, Hrec.
        + intros Hrest. apply Hfine. intros key' [->|Hin]%elem_of_cons;
            [|by apply Hrest].
          intros j Hj.
          destruct (IH _ _ _ _ _ _ _ _ _ Hrec j) as [x Hx].
          { eapply reachable_shape; [exact Hsh|exact Hj]. }
          destruct (sameShape_lookup _ _ _ _ (sameShape_sym _ _ Hsh) Hx)
            as (y & Hy & _). eauto.
      - split; [by apply prepared_shape|]. intros Hx. exact Hx. }
    destruct Hall as [_ Hall].
    intros j Hr. inversion Hr as [|? n0 key ? Hk0 Hit0 Hkey Hrest]; subst.
    + eauto.
    + rewrite Hk in Hk0. simplify_eq.
      apply (Hall ltac:(by intros ? ?%elem_of_nil) key); [|exact Hrest].
      by apply keysOf_elem.
  - intros j Hr. inversion Hr as [|? n0 key ? Hk0 Hit0 Hkey Hrest]; subst.
    + eauto.
    + rewrite Hk in Hk0. simplify_eq. congruence.
Qed.

(** *** What the passes never change *)

Lemma sameShape_is_Some (m m' : gmap string Node) (j : string) :
  sameShape m m' -> is_Some (m' !! j) <-> is_Some (m !! j).
Proof.
  intros Hsh. specialize (Hsh j).
  destruct Hsh; split; intros [? ?]; try discriminate; eauto.
Qed.

(** X17. The patch pass changes spans and the text only: when it returns,
    the node map has the same identifiers, each node its identifier, type
    and child keys (up to their order), the errors and the version are the
    same, and so is the set of pending nodes, which the pass does not
    clear. *)
Theorem stringifyNestNodes_keeps_shape (fuel : nat) (t t' : Tree)
    (options : StringifyOptions) :
  stringifyNestNodes fuel t options = Done t' ->
  sameShape (nodeMap t) (nodeMap t')
  /\ (forall j, is_Some (nodeMap t' !! j) <-> is_Some (nodeMap t !! j))
  /\ nestNodeMap t' = nestNodeMap t
  /\ errors t' = errors t /\ version t' = version t
  /\ valid t' = valid t.
Proof.
  intros Hrun. unfold stringifyNestNodes in Hrun.
  apply bind_Done in Hrun as (st & Hfix & Hrun).
  apply bind_Done in Hrun as (txt & _ & Hfin). simplify_eq.
  apply fixOffset_shape in Hfix. simpl in Hfix.
  split_and!; try done.
  - intros j. by apply sameShape_is_Some.
  - unfold valid, root, node, hasError. simpl.
    pose proof (sameShape_is_Some _ _ rootMarker Hfix) as Hr.
    destruct (store st !! rootMarker), (nodeMap t !! rootMarker);
      try done.
    + destruct Hr as [Hr _]. destruct Hr; [eauto|discriminate].
    + destruct Hr as [_ Hr]. destruct Hr; [eauto|discriminate].
Qed.

(** X8. [stringify], in either mode, changes spans and the text only
    (and the order of stored keys, if those are shared): the tree it
    leaves has the returned text as its text, the same identifiers, types
    and child keys up to order, the same errors, version and pending
    nodes, and is valid iff the tree was. *)
Theorem stringify_keeps_shape (fuel : nat) (t t' : Tree)
    (options : StringifyOptions) (s : string) :
  stringify fuel t options = Done (s, t') ->
  text t' = s
  /\ sameShape (nodeMap t) (nodeMap t')
  /\ (forall j, is_Some (nodeMap t' !! j) <-> is_Some (nodeMap t !! j))
  /\ nestNodeMap t' = nestNodeMap t
  /\ errors t' = errors t /\ version t' = version t
  /\ valid t' = valid t.
Proof.
  intros Hrun. unfold stringify in Hrun.
  apply bind_Done in Hrun as ([s1 m1] & Hs & Hfin). simplify_eq.
  apply stringifyNode_shape in Hs.
  assert (Hsh : sameShape (nodeMap t)
                  (alter (Node.setLength (slen s)) rootMarker m1)).
  { eapply sameShape_trans; [exact Hs|].
    apply sameShape_alter. intros x _. by split_and!. }
  split_and!; try done.
  - intros j. by apply sameShape_is_Some.
  - unfold valid, root, node, hasError. cbn [nodeMap errors setText setNodeMap].
    pose proof (sameShape_is_Some _ _ rootMarker Hsh) as Hr.
    destruct (alter (Node.setLength (slen s)) rootMarker m1 !! rootMarker),
      (nodeMap t !! rootMarker); try done.
    + destruct Hr as [Hr _]. destruct Hr; [eauto|discriminate].
    + destruct Hr as [_ Hr]. destruct Hr; [eauto|discriminate].
Qed.

(** *** Structural equality is an equivalence on closed trees *)

Lemma doIsEquals_refl (fuel : nat) :
  forall m k n,
    complete fuel m k = true -> m !! k = Some n ->
    doIsEquals fuel m m n n = Done true.
Proof.
  induction fuel as [|fuel IH]; intros m k n Hc Hk; [discriminate|].
  apply doIsEquals_true. split_and!; [done..|].
  intros key Hkey.
  assert (Hin : key ∈ getChildrenKeys n) by tauto.
  pose proof (complete_child _ _ _ _ _ Hc Hk Hin) as Hcc.
  destruct (complete_lookup _ _ _ Hcc) as [c Hcl].
  exists c, c. split_and!; [exact Hcl..|]. eapply IH; eauto.
Qed.

Lemma doIsEquals_sym (fuel : nat) :
  forall m1 m2 n1 n2,
    doIsEquals fuel m1 m2 n1 n2 = Done true ->
    doIsEquals fuel m2 m1 n2 n1 = Done true.
Proof.
  induction fuel as [|fuel IH]; intros m1 m2 n1 n2 Heq; [discriminate|].
  apply doIsEquals_true in Heq as (Hty & Hraw & Hkids).
  apply doIsEquals_true. split_and!; [done|by intros; symmetry; apply Hraw|].
  intros key Hkey.
  destruct (Hkids key) as (c1 & c2 & H1 & H2 & Hc); [tauto|].
  exists c2, c1. split_and!; [done..|]. by apply IH.
Qed.

(** X14. A tree whose root subtree is closed equals itself: [isEquals]
    returns [true] on it. *)
Theorem isEquals_reflexive (fuel : nat) (t : Tree) :
  complete fuel (nodeMap t) rootMarker = true ->
  isEquals fuel t t = Done true.
Proof.
  intros Hc. destruct (complete_lookup _ _ _ Hc) as [r Hr].
  unfold isEquals, root, node. rewrite Hr. eapply doIsEquals_refl; eauto.
Qed.

(** X15. [isEquals] does not depend on the order of its arguments: it
    returns [true] one way round iff it does the other way round, and on
    trees without cycles (identifiers ranked) and with enough recursion
    budget the two calls agree altogether. *)
Theorem isEquals_symmetric (fuel : nat) (t1 t2 : Tree) :
  (isEquals fuel t1 t2 = Done true <-> isEquals fuel t2 t1 = Done true)
  /\ (forall rk1 rk2,
        ranked (nodeMap t1) rk1 -> ranked (nodeMap t2) rk2 ->
        (forall r, root t1 = Some r -> (rk1 (Node.id r) < fuel)%nat) ->
        (forall r, root t2 = Some r -> (rk2 (Node.id r) < fuel)%nat) ->
        isEquals fuel t1 t2 = isEquals fuel t2 t1).
Proof.
  assert (Hiff : forall a b, isEquals fuel a b = Done true ->
                             isEquals fuel b a = Done true).
  { intros a b. unfold isEquals.
    destruct (root a) as [ra|], (root b) as [rb|]; try discriminate.
    apply doIsEquals_sym. }
  split; [split; apply Hiff|].
  intros rk1 rk2 Hrk1 Hrk2 Hf1 Hf2.
  destruct (root t1) as [r1|] eqn:Hr1, (root t2) as [r2|] eqn:Hr2;
    try (unfold isEquals; rewrite Hr1, Hr2; reflexivity).
  destruct (doIsEquals_total _ (nodeMap t2) _ Hrk1 fuel r1 r2 (Hf1 _ eq_refl))
    as [b1 Hb1].
  destruct (doIsEquals_total _ (nodeMap t1) _ Hrk2 fuel r2 r1 (Hf2 _ eq_refl))
    as [b2 Hb2].
  assert (H12 : isEquals fuel t1 t2 = Done b1)
    by (unfold isEquals; by rewrite Hr1, Hr2).
  assert (H21 : isEquals fuel t2 t1 = Done b2)
    by (unfold isEquals; by rewrite Hr1, Hr2).
  rewrite H12, H21. f_equal.
  destruct b1, b2; try reflexivity.
  - apply Hiff in H12. congruence.
  - apply Hiff in H21. congruence.
Qed.

(** *** Offset lookup without the ordering invariant *)

Lemma searchChildren_hit (rec : Node -> res (option Node))
    (m : gmap string Node) (offset : Z) (n : Node) (keys : list string) :
  forall gas left right x,
    searchChildren rec m offset n keys gas left right = Done (Some x) ->
    x = n
    \/ exists key c item,
         key ∈ keys /\ getChild m n key = Some c
         /\ inBound offset c = true /\ rec c = Done item
         /\ x = default c item.
Proof.
  induction gas as [|gas IH]; intros left right x Hrun; [discriminate|].
  cbn [searchChildren] in Hrun.
  destruct (left <=? right); [|left; by simplify_eq].
  destruct (keys !! Z.to_nat ((left + right) `div` 2)) as [key|] eqn:Hkey;
    [|discriminate].
  cbn [mbind option_bind] in Hrun.
  destruct (getChild m n key) as [c|] eqn:Hc; [|discriminate].
  destruct (inBound offset c) eqn:Hin.
  - apply bind_Done in Hrun as (item & Hrec & Hfin). simplify_eq.
    right. exists key, c, item. split_and!; try done.
    eapply list_elem_of_lookup_2, Hkey.
  - destruct (_ <? offset); eapply IH, Hrun.
Qed.

Lemma doFind_hit (fuel : nat) (m : gmap string Node) (offset : Z) :
  forall n r,
    doFind fuel m offset n = Done (Some r) ->
    inBound offset r = true /\ below m n r.
Proof.
  induction fuel as [|fuel IH]; intros n r Hrun; [discriminate|].
  rewrite doFind_S in Hrun.
  destruct (inBound offset n) eqn:Hin; [|discriminate].
  cbn [negb] in Hrun.
  apply searchChildren_hit in Hrun as [->|(key & c & item & Hkey & Hc & Hcin & Hrec & ->)].
  - split; [done|constructor].
  - destruct item as [r'|]; cbn [default].
    + destruct (IH _ _ Hrec) as [Hr Hb]. split; [done|].
      eapply below_child; eauto.
    + split; [done|]. eapply below_child; eauto. constructor.
Qed.

Lemma searchChildren_returns (rec : Node -> res (option Node))
    (m : gmap string Node) (offset : Z) (n : Node) (keys : list string) :
  (forall key, key ∈ keys ->
     exists c, getChild m n key = Some c /\ exists item, rec c = Done item) ->
  forall gas left right,
    0 <= left -> right < Z.of_nat (length keys) ->
    Z.max 0 (right - left + 1) < Z.of_nat gas ->
    exists found, searchChildren rec m offset n keys gas left right = Done found.
Proof.
  intros Hkids. induction gas as [|gas IH]; intros left right Hl Hr Hgas; [lia|].
  cbn [searchChildren].
  destruct (left <=? right) eqn:Hle; [|eauto].
  apply Z.leb_le in Hle.
  assert (Hmid : left <= (left + right) `div` 2 <= right).
  { split; [apply Z.div_le_lower_bound|apply Z.div_le_upper_bound]; lia. }
  destruct (lookup_lt_is_Some_2 keys (Z.to_nat ((left + right) `div` 2)))
    as [key Hkey]; [lia|].
  rewrite Hkey. cbn [mbind option_bind].
  destruct (Hkids key) as (c & -> & item & Hrec);
    [eapply list_elem_of_lookup_2, Hkey|].
  destruct (inBound offset c).
  - rewrite Hrec, Done_bind. eauto.
  - destruct (_ <? offset); apply IH; lia.
Qed.

Lemma doFind_returns (fuel : nat) (m : gmap string Node) (offset : Z) :
  forall k n,
    complete fuel m k = true -> m !! k = Some n ->
    exists found, doFind fuel m offset n = Done found.
Proof.
  induction fuel as [|fuel IH]; intros k n Hc Hk; [discriminate|].
  rewrite doFind_S. destruct (inBound offset n); cbn [negb]; [|eauto].
  apply searchChildren_returns; [|lia..].
  intros key Hkey.
  pose proof (complete_child _ _ _ _ _ Hc Hk Hkey) as Hcc.
  destruct (complete_lookup _ _ _ Hcc) as [c Hcl].
  exists c. split; [exact Hcl|]. eapply IH; eauto.
Qed.

(** X13. Also on a tree whose children are not ordered by position,
    [findNodeAtOffset] returns whenever the root subtree is closed, and a
    node it returns lies at or below the root, has the offset in its bound
    span, and is tagged as [hitType] says; it returns none on an invalid
    tree. *)
Theorem findNodeAtOffset_sound (fuel : nat) (t : Tree) (offset : Z) :
  (complete fuel (nodeMap t) rootMarker = true ->
   exists found, findNodeAtOffset fuel t offset = Done found)
  /\ (forall n ty,
        findNodeAtOffset fuel t offset = Done (Some (n, ty)) ->
        valid t = true
        /\ inBound offset n = true
        /\ (exists r, root t = Some r /\ below (nodeMap t) r n)
        /\ ty = hitType offset n).
Proof.
  unfold findNodeAtOffset. split.
  - intros Hc. destruct (valid t); cbn [negb]; [|eauto].
    destruct (complete_lookup _ _ _ Hc) as [r Hr].
    unfold root, node. rewrite Hr.
    destruct (doFind_returns fuel (nodeMap t) offset _ _ Hc Hr) as [found ->].
    rewrite Done_bind. destruct found; eauto.
  - intros n ty Hrun. destruct (valid t); cbn [negb] in Hrun; [|discriminate].
    destruct (root t) as [r|] eqn:Hr; [|discriminate].
    apply bind_Done in Hrun as (found & Hfind & Hfin).
    destruct found as [x|]; [|discriminate]. simplify_eq.
    destruct (doFind_hit _ _ _ _ _ Hfind) as [Hin Hb].
    split_and!; eauto.
Qed.

End BehaviourFacts.

Section PassFacts.

Context `{Helpers}.

(** *** Two passes over stores that differ in spans only *)

Lemma agreeOn_sym {A : Type} (f : Node -> A) (m1 m2 : gmap string Node) :
  agreeOn f m1 m2 -> agreeOn f m2 m1.
Proof. intros H12 j. by rewrite H12. Qed.

Lemma nonSpan_eq (n1 n2 : Node) :
  nonSpan n1 = nonSpan n2 -> Node.spans n1 = Node.spans n2 -> n1 = n2.
Proof.
  destruct n1, n2. unfold nonSpan, Node.spans. simpl. congruence.
Qed.

Lemma agree_lookup (m1 m2 : gmap string Node) (k : string) (n1 : Node) :
  agreeOn nonSpan m1 m2 -> m1 !! k = Some n1 ->
  exists n2, m2 !! k = Some n2 /\ nonSpan n2 = nonSpan n1.
Proof.
  intros Ha Hk. specialize (Ha k). rewrite Hk in Ha.
  destruct (m2 !! k) as [n2|]; [|discriminate].
  exists n2. split; [done|]. simpl in Ha. congruence.
Qed.

Lemma agree_sameShape (m1 m2 : gmap string Node) :
  agreeOn nonSpan m1 m2 -> sameShape m1 m2.
Proof.
  intros Ha j. specialize (Ha j).
  destruct (m1 !! j) as [n1|], (m2 !! j) as [n2|]; try discriminate;
    constructor.
  simpl in Ha. unfold nonSpan in Ha. simplify_eq.
  split_and!; try done. by match goal with E : Node.childrenKeys _ = _ |- _ => rewrite E end.
Qed.

Lemma keysOf_nonSpan (o1 o2 : StringifyOptions) (n1 n2 : Node) :
  sort o1 = sort o2 -> nonSpan n2 = nonSpan n1 -> keysOf o2 n2 = keysOf o1 n1.
Proof.
  unfold keysOf, getChildrenKeys. intros Hs Hn.
  assert (Hty : Node.type n2 = Node.type n1) by (unfold nonSpan in Hn; congruence).
  assert (Hkeys : Node.childrenKeys n2 = Node.childrenKeys n1)
    by (unfold nonSpan in Hn; congruence).
  by rewrite Hty, Hkeys, Hs.
Qed.

Lemma keysOf_unsorted (options : StringifyOptions) (n : Node) :
  sort options = None -> keysOf options n = getChildrenKeys n.
Proof. unfold keysOf. intros ->. by case_bool_decide. Qed.

Lemma prepared_rel (o1 o2 : StringifyOptions) (off1 boff1 off2 boff2 : Z)
    (k : string) (n1 n2 : Node) (m1 m2 : gmap string Node) :
  sort o1 = sort o2 -> agreeOn nonSpan m1 m2 ->
  m1 !! k = Some n1 -> m2 !! k = Some n2 ->
  agreeOn nonSpan (prepared o1 off1 boff1 k n1 m1)
                  (prepared o2 off2 boff2 k n2 m2).
Proof.
  intros Hs Ha Hk1 Hk2 j.
  assert (Hn : nonSpan n2 = nonSpan n1).
  { destruct (agree_lookup _ _ _ _ Ha Hk1) as (x & Hx & Hnx). congruence. }
  destruct (decide (j = k)) as [->|Hne]; [|by rewrite !prepared_ne].
  pose proof (keysOf_nonSpan _ _ _ _ Hs Hn) as Hkeys.
  unfold prepared.
  destruct keysShared, (pure o1), (pure o2);
    rewrite ?lookup_alter_eq, ?lookup_insert_eq, ?Hk1, ?Hk2; simpl;
    unfold nonSpan in *; simpl; simplify_eq; congruence.
Qed.

Lemma prepared_nonSpan (options : StringifyOptions) (off boff : Z)
    (k : string) (n : Node) (m : gmap string Node) :
  keysKept options -> m !! k = Some n ->
  agreeOn nonSpan m (prepared options off boff k n m).
Proof.
  intros Hkept Hk j.
  destruct (decide (j = k)) as [->|Hne]; [|by rewrite !prepared_ne].
  unfold prepared.
  destruct keysShared eqn:Hsh.
  - destruct Hkept as [Hno|Hsort]; [congruence|].
    rewrite (keysOf_unsorted _ _ Hsort).
    destruct (pure options);
      rewrite ?lookup_alter_eq, ?lookup_insert_eq, ?Hk; reflexivity.
  - destruct (pure options); rewrite ?lookup_insert_eq, ?Hk; reflexivity.
Qed.

(** A pass with options that leave the stored keys alone changes spans
    only. *)
Lemma stringifyNode_nonSpan (fuel : nat) :
  forall m k options lvl off boff gt s m',
    keysKept options ->
    stringifyNode fuel m k options lvl off boff gt = Done (s, m') ->
    agreeOn nonSpan m m'.
Proof.
  induction fuel as [|fuel IH]; intros m k options lvl off boff gt s m' Hkept Hrun;
    [discriminate|].
  destruct (m !! k) as [n|] eqn:Hk; [|simpl in Hrun; by rewrite Hk in Hrun].
  destruct (isIterable n) eqn:Hit.
  - rewrite (stringifyNode_container _ _ _ n) in Hrun by done.
    apply bind_Done in Hrun as ([s2 m2] & Hloop & Hfin).
    assert (Hs2 : agreeOn nonSpan m m2).
    { eapply (stringifyChildren_inv (fun _ mi => agreeOn nonSpan m mi));
        [| |exact Hloop].
      - intros key rest mi co cbo c mi' _ Hmi Hrec.
        eapply agreeOn_trans; [exact Hmi|]. eapply IH; [exact Hkept|exact Hrec].
      - by apply prepared_nonSpan. }
    simpl in Hfin. destruct (pure options); simplify_eq; [done|].
    eapply agreeOn_trans; [exact Hs2|]. by apply agreeOn_alter.
  - rewrite (stringifyNode_leaf _ _ _ n) in Hrun by done. simpl in Hrun.
    destruct (pure options); simplify_eq; [apply agreeOn_refl|].
    by eapply agreeOn_insert.
Qed.

Lemma stringifyChildren_rel
    (rec1 rec2 : string -> Z -> Z -> gmap string Node -> res (string * gmap string Node))
    (n1 n2 : Node) (isFormat isObject : bool) (gt : nat -> string)
    (lvl : nat) (off1 off2 : Z) (same : Prop) :
  Node.id n1 = Node.id n2 ->
  (forall ck co1 cbo1 co2 cbo2 mm1 mm2 c mm1',
      agreeOn nonSpan mm1 mm2 ->
      rec1 ck co1 cbo1 mm1 = Done (c, mm1') ->
      exists mm2',
        rec2 ck co2 cbo2 mm2 = Done (c, mm2')
        /\ agreeOn nonSpan mm1' mm2'
        /\ (same -> co1 = co2 -> cbo1 = cbo2 ->
            forall j, mm1' !! j = mm2' !! j
                      \/ (mm1' !! j = mm1 !! j /\ mm2' !! j = mm2 !! j))) ->
  forall keys st mm1 mm2 s' mm1',
    agreeOn nonSpan mm1 mm2 ->
    stringifyChildren rec1 n1 isFormat isObject gt lvl off1 keys st mm1
      = Done (s', mm1') ->
    exists mm2',
      stringifyChildren rec2 n2 isFormat isObject gt lvl off2 keys st mm2
        = Done (s', mm2')
      /\ agreeOn nonSpan mm1' mm2'
      /\ (same -> off1 = off2 ->
          forall j, mm1' !! j = mm2' !! j
                    \/ (mm1' !! j = mm1 !! j /\ mm2' !! j = mm2 !! j)).
Proof.
  intros Hid Hrec keys.
  induction keys as [|key rest IH]; intros st mm1 mm2 s' mm1' Ha Hrun.
  - simpl in Hrun. simplify_eq. exists mm2. split_and!; [done..|].
    intros _ _ j. by right.
  - cbn [stringifyChildren] in Hrun.
    apply bind_Done in Hrun as ([c ma] & Hc & Hrun).
    cbn [stringifyChildren].
    replace (getChildId n2 key) with (getChildId n1 key)
      by (unfold getChildId; by rewrite Hid).
    edestruct (Hrec (getChildId n1 key)) as (mb & Hc2 & Hab & Hd1);
      [exact Ha|exact Hc|].
    rewrite Hc2, Done_bind.
    destruct (IH _ _ _ _ _ Hab Hrun) as (mm2' & Hrun2 & Ha' & Hd2).
    exists mm2'. split_and!; [exact Hrun2|exact Ha'|].
    intros Hsame Hoff j. subst off2.
    destruct (Hd2 Hsame eq_refl j) as [Heq|[Hl Hr]]; [by left|].
    destruct (Hd1 Hsame eq_refl eq_refl j) as [Heq|[Hl1 Hr1]].
    + left. congruence.
    + right. split; congruence.
Qed.

(** Two passes from the same key over stores that differ in spans only,
    with options that agree on [format] and [sort], return the same text;
    if both assign spans from the same start, every node is either
    written alike by both or left alone by both. *)
Lemma stringifyNode_rel (fuel : nat) :
  rawStable ->
  forall m1 m2 k o1 o2 lvl off1 boff1 off2 boff2 gt s m1',
    format o1 = format o2 -> sort o1 = sort o2 ->
    agreeOn nonSpan m1 m2 ->
    stringifyNode fuel m1 k o1 lvl off1 boff1 gt = Done (s, m1') ->
    exists m2',
      stringifyNode fuel m2 k o2 lvl off2 boff2 gt = Done (s, m2')
      /\ agreeOn nonSpan m1' m2'
      /\ (pure o1 = false /\ pure o2 = false -> off1 = off2 -> boff1 = boff2 ->
          forall j, m1' !! j = m2' !! j
                    \/ (m1' !! j = m1 !! j /\ m2' !! j = m2 !! j)).
Proof.
  intros Hraw. induction fuel as [|fuel IH];
    intros m1 m2 k o1 o2 lvl off1 boff1 off2 boff2 gt s m1' Hfmt Hsort Ha Hrun;
    [discriminate|].
  destruct (m1 !! k) as [n1|] eqn:Hk1; [|simpl in Hrun; by rewrite Hk1 in Hrun].
  destruct (agree_lookup _ _ _ _ Ha Hk1) as (n2 & Hk2 & Hn).
  assert (Hid : Node.id n1 = Node.id n2) by (unfold nonSpan in Hn; congruence).
  assert (Hty : Node.type n2 = Node.type n1) by (unfold nonSpan in Hn; congruence).
  assert (Hrv : getRawValue n2 = getRawValue n1).
  { apply Hraw; unfold nonSpan in Hn; congruence. }
  assert (Hit2 : isIterable n2 = isIterable n1) by (unfold isIterable; by rewrite Hty).
  destruct (isIterable n1) eqn:Hit.
  - rewrite (stringifyNode_container _ _ _ n1) in Hrun by done.
    apply bind_Done in Hrun as ([s2 ma] & Hloop & Hfin).
    rewrite (stringifyNode_container _ _ _ n2) by done.
    rewrite Hty, <- Hfmt, (keysOf_nonSpan o1 o2 n1 n2 Hsort Hn).
    pose proof (prepared_rel o1 o2 off1 boff1 off2 boff2 k n1 n2 m1 m2
                  Hsort Ha Hk1 Hk2) as Hprep.
    destruct (stringifyChildren_rel
                (fun ck co cbo mm => stringifyNode fuel mm ck o1 (S lvl) co cbo gt)
                (fun ck co cbo mm => stringifyNode fuel mm ck o2 (S lvl) co cbo gt)
                n1 n2 (format o1) (bool_decide (Node.type n1 = TObject)) gt lvl
                off1 off2 (pure o1 = false /\ pure o2 = false) Hid
                ltac:(intros; eapply IH; eauto)
                _ _ _ _ _ _ Hprep Hloop)
      as (mb & Hloop2 & Hab & Hd).
    rewrite Hloop2, Done_bind.
    set (g := fun x : Node =>
                computeAndSetBoundLength
                  (Node.setLength
                     (slen (s2 +:+ (if bool_decide (Node.type n1 = TObject)
                                    then "}" else "]"))) x)) in *.
    assert (Hg : forall x, nonSpan (g x) = nonSpan x) by done.
    cbn zeta in Hfin |- *.
    assert (Hfinal : exists m2',
               (if pure o2
                then Done (s2 +:+ (if bool_decide (Node.type n1 = TObject)
                                   then "}" else "]"), mb)
                else Done (s2 +:+ (if bool_decide (Node.type n1 = TObject)
                                   then "}" else "]"), alter g k mb))
               = Done (s, m2')
               /\ agreeOn nonSpan m1' m2'
               /\ (pure o1 = false /\ pure o2 = false -> off1 = off2 ->
                   boff1 = boff2 ->
                   forall j, m1' !! j = m2' !! j
                             \/ (m1' !! j = m1 !! j /\ m2' !! j = m2 !! j))).
    { destruct (pure o1) eqn:Hp1, (pure o2) eqn:Hp2; simplify_eq;
        eexists; (split; [reflexivity|]); split.
      - done.
      - by intros [? ?].
      - eapply agreeOn_trans; [exact Hab|]. by apply agreeOn_alter.
      - by intros [? ?].
      - eapply agreeOn_trans; [|exact Hab].
        apply agreeOn_sym. by apply agreeOn_alter.
      - by intros [? ?].
      - eapply agreeOn_trans; [|eapply agreeOn_trans; [exact Hab|]].
        + apply agreeOn_sym. by apply agreeOn_alter.
        + by apply agreeOn_alter.
      - intros Hsame -> -> j.
        destruct (decide (j = k)) as [->|Hne].
        + left. rewrite !lookup_alter_eq.
          destruct (Hd Hsame eq_refl k) as [->|[Hl Hr]]; [done|].
          rewrite Hl, Hr.
          destruct (prepared_eq o1 off2 boff2 k n1 m1 Hk1)
            as (x1 & Hx1 & _ & Hoff1 & _).
          destruct (prepared_eq o2 off2 boff2 k n2 m2 Hk2)
            as (x2 & Hx2 & _ & Hoff2 & _).
          destruct (agree_lookup _ _ _ _ Hprep Hx1) as (x2' & Hx2' & Hnx).
          rewrite Hx2 in Hx2'. injection Hx2' as <-.
          destruct (Hoff1 Hp1) as [Ho1 Hb1]. destruct (Hoff2 Hp2) as [Ho2 Hb2].
          assert (E : g x1 = g x2).
          { apply nonSpan_eq; [rewrite !Hg; congruence|].
            unfold g, computeAndSetBoundLength, Node.spans. simpl.
            by rewrite Ho1, Ho2, Hb1, Hb2. }
          rewrite Hx1, Hx2. exact (f_equal Some E).
        + rewrite !lookup_alter_ne by done.
          destruct (Hd Hsame eq_refl j) as [Heq|[Hl Hr]]; [by left|].
          right. rewrite Hl, Hr. by rewrite !prepared_ne. }
    exact Hfinal.
  - rewrite (stringifyNode_leaf _ _ _ n1) in Hrun by done.
    rewrite (stringifyNode_leaf _ _ _ n2) by done.
    rewrite Hrv. cbn zeta in Hrun |- *.
    destruct (pure o1) eqn:Hp1, (pure o2) eqn:Hp2; simplify_eq;
      eexists; (split; [reflexivity|]); split.
    + done.
    + by intros [? ?].
    + eapply agreeOn_trans; [exact Ha|]. by eapply agreeOn_insert.
    + by intros [? ?].
    + eapply agreeOn_trans; [|exact Ha].
      apply agreeOn_sym. by eapply agreeOn_insert.
    + by intros [? ?].
    + eapply agreeOn_trans; [|eapply agreeOn_trans; [exact Ha|]].
      * apply agreeOn_sym. by eapply agreeOn_insert.
      * by eapply agreeOn_insert.
    + intros _ -> -> j. destruct (decide (j = k)) as [->|Hne].
      * left. rewrite !lookup_insert_eq. f_equal.
        apply nonSpan_eq; [unfold nonSpan in *; simpl; congruence|].
        unfold computeAndSetBoundLength, Node.spans. simpl. reflexivity.
      * right. by rewrite !lookup_insert_ne.
Qed.

(** A pure pass over keys that are not shared leaves the store as it is. *)
Lemma stringifyNode_pure_id (fuel : nat) :
  keysShared = false ->
  forall m k options lvl off boff gt s m',
    pure options = true ->
    stringifyNode fuel m k options lvl off boff gt = Done (s, m') -> m' = m.
Proof.
  intros Hsh. induction fuel as [|fuel IH];
    intros m k options lvl off boff gt s m' Hp Hrun; [discriminate|].
  destruct (m !! k) as [n|] eqn:Hk; [|simpl in Hrun; by rewrite Hk in Hrun].
  destruct (isIterable n) eqn:Hit.
  - rewrite (stringifyNode_container _ _ _ n) in Hrun by done.
    apply bind_Done in Hrun as ([s2 m2] & Hloop & Hfin).
    simpl in Hfin. rewrite Hp in Hfin. simplify_eq.
    eapply (stringifyChildren_inv (fun _ mi => mi = m)); [| |exact Hloop].
    + intros key rest mi co cbo c mi' _ -> Hrec. eapply IH; eauto.
    + unfold prepared. by rewrite Hsh, Hp.
  - rewrite (stringifyNode_leaf _ _ _ n) in Hrun by done. simpl in Hrun.
    rewrite Hp in Hrun. by simplify_eq.
Qed.

(** X7. The text [stringifyNode] returns does not depend on the mode or
    on the offsets it is started with: a call that differs in [pure],
    offset and bound offset only returns the same text, and a pure call
    over keys that are not shared leaves the node map untouched. *)
Theorem stringifyNode_text_independent (fuel : nat) (m : gmap string Node)
    (k : string) (options o' : StringifyOptions) (lvl : nat)
    (off boff off' boff' : Z) (gt : nat -> string) (s : string)
    (m' : gmap string Node) :
  rawStable ->
  format o' = format options -> sort o' = sort options ->
  stringifyNode fuel m k options lvl off boff gt = Done (s, m') ->
  exists m'',
    stringifyNode fuel m k o' lvl off' boff' gt = Done (s, m'')
    /\ (pure o' = true -> keysShared = false -> m'' = m).
Proof.
  intros Hraw Hfmt Hsort Hrun.
  destruct (stringifyNode_rel fuel Hraw m m k options o' lvl off boff off' boff'
              gt s m' (eq_sym Hfmt) (eq_sym Hsort) (agreeOn_refl _ _) Hrun)
    as (m'' & Hrun' & _).
  exists m''. split; [exact Hrun'|].
  intros Hp Hsh. eapply stringifyNode_pure_id; eauto.
Qed.

Lemma alter_fix (f : Node -> Node) (k : string) (x : Node) (m : gmap string Node) :
  m !! k = Some x -> f x = x -> alter f k m = m.
Proof.
  intros Hk Hf. apply map_eq. intros j. rewrite lookup_alter.
  case_decide; subst; [|done]. by rewrite Hk; simpl; rewrite Hf.
Qed.

Lemma setLength_same (x : Node) (v : Z) :
  Node.length x = v -> Node.setLength v x = x.
Proof. intros <-. by destruct x. Qed.

(** X9. [stringify] is idempotent: with keys that are not shared, a second
    call with the same options on the tree the first one left returns the
    same text and leaves the very same tree. *)
Theorem stringify_idempotent (fuel : nat) (t t' : Tree)
    (options : StringifyOptions) (s : string) :
  rawStable -> keysShared = false -> pure options = false ->
  stringify fuel t options = Done (s, t') ->
  stringify fuel t' options = Done (s, t').
Proof.
  intros Hraw Hsh Hp Hrun. unfold stringify in *.
  apply bind_Done in Hrun as ([s1 m1] & Hs & Hfin). simplify_eq.
  destruct (stringifyNode_root _ _ _ _ _ _ _ _ _ _ Hp Hs)
    as (r & Hr & Hlen & _).
  assert (Hm : alter (Node.setLength (slen s)) rootMarker m1 = m1)
    by (eapply alter_fix; [exact Hr|by apply setLength_same]).
  cbn [nodeMap setText setNodeMap]. rewrite Hm.
  assert (Ha : agreeOn nonSpan (nodeMap t) m1)
    by (eapply stringifyNode_nonSpan; [by left|exact Hs]).
  destruct (stringifyNode_rel fuel Hraw (nodeMap t) m1 rootMarker options options
              0%nat 0 0 0 0 _ s m1 eq_refl eq_refl Ha Hs)
    as (m2 & Hrun2 & _ & Hd).
  assert (Heq : m2 = m1).
  { apply map_eq. intros j.
    destruct (Hd (conj Hp Hp) eq_refl eq_refl j) as [Heq|[_ Hr2]]; congruence. }
  subst m2. rewrite Hrun2, Done_bind. cbn [nodeMap setText setNodeMap text].
  by rewrite Hm.
Qed.

(** *** Serialising and structural equality *)

Lemma stringifyNode_keyPerm (fuel : nat) (m : gmap string Node) (k : string)
    (options : StringifyOptions) (lvl : nat) (off boff : Z) (gt : nat -> string)
    (s : string) (m' : gmap string Node) :
  rawStable ->
  stringifyNode fuel m k options lvl off boff gt = Done (s, m') ->
  keyPerm m m'.
Proof.
  intros Hraw Hrun j.
  pose proof (stringifyNode_shape _ _ _ _ _ _ _ _ _ _ Hrun j) as Hsh.
  pose proof (stringifyNode_agreeOn Node.rawValue options
                ltac:(by intros) ltac:(by intros)
                _ _ _ _ _ _ _ _ _ Hrun j) as Hrv.
  destruct Hsh as [n n' (Hid & Hty & Hkeys)|]; constructor.
  simpl in Hrv. split_and!; try done. apply Hraw; congruence.
Qed.

(** X16. Whatever the options, the tree [stringify] leaves is structurally
    equal to the tree it was called on: [isEquals] returns [true] on the
    two, in either order. *)
Theorem isEquals_after_stringify (fuel : nat) (t t' : Tree)
    (options : StringifyOptions) (s : string) :
  rawStable ->
  complete fuel (nodeMap t) rootMarker = true ->
  stringify fuel t options = Done (s, t') ->
  isEquals fuel t t' = Done true /\ isEquals fuel t' t = Done true.
Proof.
  intros Hraw Hc Hrun. unfold stringify in Hrun.
  apply bind_Done in Hrun as ([s1 m1] & Hs & Hfin). simplify_eq.
  destruct (complete_lookup _ _ _ Hc) as [r Hr].
  assert (Hperm : keyPerm (nodeMap t)
                    (alter (Node.setLength (slen s)) rootMarker m1)).
  { intros j. pose proof (stringifyNode_keyPerm _ _ _ _ _ _ _ _ _ _ Hraw Hs j) as Hj.
    rewrite lookup_alter. case_decide; [subst j|done].
    destruct Hj as [n n' (Hid & Hty & Hrv & Hkeys)|]; constructor.
    split_and!; try done. rewrite Hrv. apply Hraw; done. }
  pose proof (Hperm rootMarker) as Hroot. rewrite Hr in Hroot.
  inversion Hroot as [? r' Hrr' Heq1 Heq2|]; subst.
  assert (Htrue : doIsEquals fuel (nodeMap t)
                    (alter (Node.setLength (slen s)) rootMarker m1) r r'
                  = Done true).
  { eapply (doIsEquals_perm fuel (nodeMap t) (nodeMap t));
      [apply keyPerm_refl|exact Hperm| |exact Hrr'|].
    - by split_and!.
    - eapply doIsEquals_refl; eauto. }
  unfold isEquals, root, node. cbn [nodeMap setText setNodeMap].
  rewrite Hr, <- Heq2. split; [exact Htrue|by apply doIsEquals_sym].
Qed.

End PassFacts.

(** ** Strings: parts of a concatenation *)

Lemma append_nil_l (t : string) : EmptyString +:+ t = t.
Proof. reflexivity. Qed.

Lemma append_cons (a : ascii) (s t : string) :
  String a s +:+ t = String a (s +:+ t).
Proof. reflexivity. Qed.

Lemma append_nil_r (s : string) : s +:+ EmptyString = s.
Proof.
  induction s as [|a s IH]; [done|]. by rewrite append_cons, IH.
Qed.

Lemma append_assoc (a b c : string) : (a +:+ b) +:+ c = a +:+ (b +:+ c).
Proof.
  induction a as [|x a IH]; [done|]. by rewrite !append_cons, IH.
Qed.

Lemma length_append (a b : string) :
  String.length (a +:+ b) = (String.length a + String.length b)%nat.
Proof.
  induction a as [|x a IH]; [done|]. rewrite append_cons. simpl. by rewrite IH.
Qed.

Lemma substring_nil (n l : nat) : String.substring n l EmptyString = EmptyString.
Proof. by destruct n, l. Qed.

Lemma substring_full (s : string) : String.substring 0 (String.length s) s = s.
Proof. induction s as [|a s IH]; simpl; [done|by rewrite IH]. Qed.

Lemma substring_app_skip (a b : string) (n l : nat) :
  String.substring (String.length a + n) l (a +:+ b) = String.substring n l b.
Proof.
  induction a as [|x a IH]; [done|]. rewrite append_cons. simpl. exact IH.
Qed.

Lemma substring_app_keep (a b : string) (n l : nat) :
  (n + l <= String.length a)%nat ->
  String.substring n l (a +:+ b) = String.substring n l a.
Proof.
  revert n l. induction a as [|x a IH]; intros n l Hle.
  - simpl in Hle. assert (n = 0 /\ l = 0)%nat as [-> ->] by lia.
    rewrite append_nil_l. by destruct b.
  - rewrite append_cons. simpl in *. destruct n as [|n].
    + destruct l as [|l]; [done|]. f_equal. apply IH. lia.
    + apply IH. lia.
Qed.

Lemma substring_take (s : string) (a l L : nat) :
  (a + l <= L)%nat ->
  String.substring a l (String.substring 0 L s) = String.substring a l s.
Proof.
  revert a l L. induction s as [|x s IH]; intros a l L Hle.
  - by rewrite !substring_nil.
  - destruct L as [|L].
    + assert (a = 0 /\ l = 0)%nat as [-> ->] by lia. done.
    + simpl. destruct a as [|a].
      * destruct l as [|l]; [done|]. f_equal. apply IH. lia.
      * apply IH. lia.
Qed.

Lemma substring_substring (s : string) (a l b L : nat) :
  (a + l <= L)%nat ->
  String.substring a l (String.substring b L s) = String.substring (b + a) l s.
Proof.
  revert s. induction b as [|b IH]; intros s Hle.
  - by apply substring_take.
  - destruct s as [|x s]; [by rewrite !substring_nil|]. simpl. by apply IH.
Qed.

Lemma substring_app_mid (a c b : string) :
  String.substring (String.length a) (String.length c) (a +:+ c +:+ b) = c.
Proof.
  rewrite <- (Nat.add_0_r (String.length a)), substring_app_skip.
  rewrite substring_app_keep by lia. apply substring_full.
Qed.

Lemma prefixOf_refl (s : string) : prefixOf s s.
Proof. exists EmptyString. by rewrite append_nil_r. Qed.

Lemma prefixOf_app (s x : string) : prefixOf s (s +:+ x).
Proof. by exists x. Qed.

Lemma prefixOf_trans (a b c : string) : prefixOf a b -> prefixOf b c -> prefixOf a c.
Proof. intros [x ->] [y ->]. exists (x +:+ y). apply append_assoc. Qed.

Lemma prefixOf_slen (a s : string) : prefixOf a s -> slen a <= slen s.
Proof. intros [x ->]. apply slen_app_le. Qed.

Lemma substring_prefix (a s : string) (n l : nat) :
  prefixOf a s -> (n + l <= String.length a)%nat ->
  String.substring n l s = String.substring n l a.
Proof. intros [x ->] Hle. by apply substring_app_keep. Qed.

Lemma slen_to_nat (s : string) : Z.to_nat (slen s) = String.length s.
Proof. unfold slen. lia. Qed.

(** A slice taken with indices inside the string is a substring. *)
Lemma jsSlice_inside (s : string) (a l : Z) :
  0 <= a -> 0 <= l -> a + l <= slen s ->
  jsSlice s a (a + l) = String.substring (Z.to_nat a) (Z.to_nat l) s.
Proof.
  intros Ha Hl Hle. unfold jsSlice, sliceIndex.
  destruct (a <? 0) eqn:E1; [lia|]. destruct (a + l <? 0) eqn:E2; [lia|].
  f_equal; lia.
Qed.

Section LayoutFacts.

Context `{Helpers}.

(** *** Where the visits of a loop sit *)

Lemma placed_bound (s : string) (off : Z) (vs : list Visit) :
  forall lo, placed s off lo vs -> lo <= off + slen s.
Proof.
  induction vs as [|v vs IH]; intros lo Hp; simpl in Hp; [done|].
  destruct Hp as (H1 & H2 & _ & Hrest). apply IH in Hrest.
  pose proof (slen_nonneg (vText v)). lia.
Qed.

Lemma placed_mono (st s : string) (off : Z) (vs : list Visit) :
  prefixOf st s ->
  forall lo, off <= lo -> placed st off lo vs -> placed s off lo vs.
Proof.
  intros Hpre. pose proof (prefixOf_slen _ _ Hpre) as Hlen.
  induction vs as [|v vs IH]; intros lo Hlo Hp; simpl in *; [lia|].
  destruct Hp as (H1 & H2 & Hsub & Hrest).
  pose proof (placed_bound _ _ _ _ Hrest) as Hb.
  pose proof (slen_nonneg (vText v)).
  split_and!; [done..| |apply IH; [lia|done]].
  rewrite (substring_prefix st); [exact Hsub|done|].
  unfold slen in *. lia.
Qed.

Lemma placed_snoc (st s4 : string) (off : Z) (vs : list Visit) (v : Visit) :
  prefixOf st s4 ->
  off + slen st <= vBound v -> vBound v <= vOffset v ->
  String.substring (Z.to_nat (vOffset v - off)) (String.length (vText v)) s4
    = vText v ->
  vOffset v + slen (vText v) <= off + slen s4 ->
  forall lo, off <= lo -> placed st off lo vs -> placed s4 off lo (vs ++ [v]).
Proof.
  intros Hpre Hb1 Hb2 Hsub Hend.
  induction vs as [|v0 vs IH]; intros lo Hlo Hp; simpl in *.
  - split_and!; [lia|done..].
  - destruct Hp as (H1 & H2 & Hsub0 & Hrest).
    pose proof (placed_bound _ _ _ _ Hrest) as Hb.
    pose proof (slen_nonneg (vText v0)).
    split_and!; [done..| |apply IH; [lia|done]].
    rewrite (substring_prefix st); [exact Hsub0|done|].
    unfold slen in *. lia.
Qed.

Lemma placed_elem (s : string) (off : Z) (vs : list Visit) (v : Visit) :
  v ∈ vs ->
  forall lo, off <= lo -> placed s off lo vs ->
  lo <= vBound v /\ vBound v <= vOffset v
  /\ String.substring (Z.to_nat (vOffset v - off)) (String.length (vText v)) s
     = vText v
  /\ vOffset v + slen (vText v) <= off + slen s.
Proof.
  induction vs as [|v0 vs IH]; intros Hin lo Hlo Hp; [by apply elem_of_nil in Hin|].
  simpl in Hp. destruct Hp as (H1 & H2 & Hsub & Hrest).
  pose proof (placed_bound _ _ _ _ Hrest) as Hb.
  pose proof (slen_nonneg (vText v0)).
  apply elem_of_cons in Hin as [->|Hin]; [by split_and!|].
  destruct (IH Hin (vOffset v0 + slen (vText v0)) ltac:(lia) Hrest) as (? & ? & ? & ?).
  split_and!; [lia|done..].
Qed.

(** The children written by the visits are ordered by position. *)
Lemma placed_increasing (s : string) (off : Z) (vs : list Visit) (cs : list Node) :
  Forall2 (fun v c => Node.boundOffset c = vBound v
                      /\ boundEnd c = vOffset v + slen (vText v)) vs cs ->
  forall lo, placed s off lo vs ->
    increasing cs = true
    /\ Forall (fun c => lo <= Node.boundOffset c /\ boundEnd c <= off + slen s) cs.
Proof.
  induction 1 as [|v c vs cs [Hbo Hbe] Hall IH]; intros lo Hp; [done|].
  simpl in Hp. destruct Hp as (H1 & H2 & _ & Hrest).
  pose proof (placed_bound _ _ _ _ Hrest) as Hb.
  pose proof (slen_nonneg (vText v)) as Hnn.
  destruct (IH _ Hrest) as [Hinc Hfor].
  split.
  - cbn [increasing]. rewrite Hinc, andb_true_r. apply andb_true_iff. split.
    + apply Z.leb_le. unfold boundEnd in Hbe. lia.
    + destruct cs as [|c' cs']; [done|].
      apply Z.leb_le. apply Forall_cons in Hfor as [[Hlo' _] _]. lia.
  - constructor; [lia|].
    eapply Forall_impl; [exact Hfor|]. simpl. intros x [? ?]. lia.
Qed.

(** *** The nodes a pass visits *)

Lemma reachList_head (fuel : nat) (m : gmap string Node) (k : string) :
  k ∈ reachList fuel m k.
Proof.
  destruct fuel as [|fuel]; simpl; [by left|].
  destruct (m !! k) as [n|]; [|by left].
  destruct (isIterable n); by left.
Qed.

Lemma reachList_container (fuel : nat) (m : gmap string Node) (k : string)
    (n : Node) :
  m !! k = Some n -> isIterable n = true ->
  reachList (S fuel) m k
  = k :: concat ((fun key => reachList fuel m (getChildId n key))
                   <$> getChildrenKeys n).
Proof. intros Hk Hit. simpl. by rewrite Hk, Hit. Qed.

Lemma reachList_leaf (fuel : nat) (m : gmap string Node) (k : string) (n : Node) :
  m !! k = Some n -> isIterable n = false -> reachList fuel m k = [k].
Proof. intros Hk Hit. destruct fuel; simpl; [done|]. by rewrite Hk, Hit. Qed.

Lemma reachList_agree (fuel : nat) (m mm : gmap string Node) :
  agreeOn nonSpan m mm ->
  forall k, reachList fuel mm k = reachList fuel m k.
Proof.
  intros Ha. induction fuel as [|fuel IH]; intros k; [done|].
  simpl. pose proof (Ha k) as Hk.
  destruct (m !! k) as [n|], (mm !! k) as [n'|]; try discriminate; [|done].
  simpl in Hk. assert (Hn : nonSpan n' = nonSpan n) by congruence.
  unfold nonSpan in Hn.
  assert (Hit : isIterable n' = isIterable n)
    by (unfold isIterable; by replace (Node.type n') with (Node.type n) by congruence).
  rewrite Hit. destruct (isIterable n); [|done].
  f_equal. f_equal. unfold getChildrenKeys, getChildId.
  replace (Node.childrenKeys n') with (Node.childrenKeys n) by congruence.
  replace (Node.id n') with (Node.id n) by congruence.
  apply list_fmap_ext. intros i key _. apply IH.
Qed.

Lemma elem_of_concat_fmap (f : string -> list string) (keys : list string)
    (j : string) :
  j ∈ concat (f <$> keys) <-> exists key, key ∈ keys /\ j ∈ f key.
Proof.
  induction keys as [|key keys IH]; simpl.
  - split; [by intros ?%elem_of_nil|by intros (? & ?%elem_of_nil & _)].
  - rewrite elem_of_app, IH. split.
    + intros [Hj|(key' & Hk & Hj)]; [exists key|exists key']; split; try done;
        [by left|by right].
    + intros (key' & [->|Hk]%elem_of_cons & Hj); [by left|right; eauto].
Qed.

Lemma reachList_reachable (fuel : nat) (m : gmap string Node) :
  forall k j, j ∈ reachList fuel m k -> reachable m k j.
Proof.
  induction fuel as [|fuel IH]; intros k j Hj.
  - simpl in Hj. apply list_elem_of_singleton in Hj as ->. constructor.
  - simpl in Hj. destruct (m !! k) as [n|] eqn:Hk;
      [|apply list_elem_of_singleton in Hj as ->; constructor].
    destruct (isIterable n) eqn:Hit;
      [|apply list_elem_of_singleton in Hj as ->; constructor].
    apply elem_of_cons in Hj as [->|Hj]; [constructor|].
    apply elem_of_concat_fmap in Hj as (key & Hkey & Hj).
    eapply reach_child; eauto.
Qed.

Lemma concat_Permutation (ls ls' : list (list string)) :
  ls ≡ₚ ls' -> concat ls ≡ₚ concat ls'.
Proof.
  induction 1 as [|x l l' _ IH|x y l|l1 l2 l3 _ IH1 _ IH2]; simpl.
  - done.
  - by rewrite IH.
  - rewrite !app_assoc. f_equiv. apply Permutation_app_comm.
  - by rewrite IH1.
Qed.

Lemma NoDup_concat_elem (f : string -> list string) (keys : list string)
    (key : string) :
  NoDup (concat (f <$> keys)) -> key ∈ keys -> NoDup (f key).
Proof.
  induction keys as [|key0 keys IH]; intros Hnd Hin; [by apply elem_of_nil in Hin|].
  simpl in Hnd. apply NoDup_app in Hnd as (H1 & _ & H2).
  apply elem_of_cons in Hin as [->|Hin]; [done|]. by apply IH.
Qed.

Lemma NoDup_concat_split (f : string -> list string)
    (done : list string) (key : string) (rest : list string) (j : string) :
  NoDup (concat (f <$> (done ++ key :: rest))) ->
  (exists key0, key0 ∈ done /\ j ∈ f key0) -> j ∉ f key.
Proof.
  intros Hnd (key0 & Hk0 & Hj) Hjk.
  rewrite fmap_app, concat_app in Hnd. simpl in Hnd.
  apply NoDup_app in Hnd as (_ & Hdis & _).
  apply (Hdis j).
  - apply elem_of_concat_fmap. eauto.
  - apply elem_of_app. by left.
Qed.

Lemma Forall2_impl_elem_l {A B : Type} (P Q : A -> B -> Prop)
    (l : list A) (k : list B) :
  Forall2 P l k -> (forall x y, x ∈ l -> P x y -> Q x y) -> Forall2 Q l k.
Proof.
  induction 1 as [|x y l k HP _ IH]; intros Himp; constructor.
  - apply Himp; [by left|done].
  - apply IH. intros x' y' Hin. apply Himp. by right.
Qed.

Lemma Forall2_elem_l {A B : Type} (P : A -> B -> Prop)
    (l : list A) (k : list B) (x : A) :
  Forall2 P l k -> x ∈ l -> exists y, y ∈ k /\ P x y.
Proof.
  induction 1 as [|x0 y0 l k HP _ IH]; intros Hin; [by apply elem_of_nil in Hin|].
  apply elem_of_cons in Hin as [->|Hin].
  - exists y0. split; [by left|done].
  - destruct (IH Hin) as (y & Hy & HPy). exists y. split; [by right|done].
Qed.

Lemma complete_agree (fuel : nat) (m mm : gmap string Node) (k : string) :
  agreeOn nonSpan m mm -> complete fuel m k = true -> complete fuel mm k = true.
Proof. intros Ha. apply complete_shape. by apply agree_sameShape. Qed.

(** *** The loop of the stringifier, with the text it builds *)

Lemma stringifyChildren_steps
    (Inv : list string -> string -> gmap string Node -> Prop)
    (rec : string -> Z -> Z -> gmap string Node -> res (string * gmap string Node))
    (n : Node) (isFormat isObject : bool) (gt : nat -> string)
    (lvl : nat) (off : Z) (keys : list string) :
  (forall done key rest st s1 s2 c s4 mm mm',
      keys = done ++ key :: rest ->
      Inv done st mm ->
      prefixOf st s1 -> prefixOf s1 s2 ->
      rec (getChildId n key) (off + slen s2) (off + slen s1) mm = Done (c, mm') ->
      prefixOf (s2 +:+ c) s4 ->
      Inv (done ++ [key]) s4 mm') ->
  forall rest done st mm s' mm',
    keys = done ++ rest -> Inv done st mm ->
    stringifyChildren rec n isFormat isObject gt lvl off rest st mm
      = Done (s', mm') ->
    Inv keys s' mm'.
Proof.
  intros Hstep rest.
  induction rest as [|key rest IH]; intros done st mm s' mm' Hkeys HI Hrun.
  - simpl in Hrun. simplify_eq. by rewrite app_nil_r.
  - cbn [stringifyChildren] in Hrun.
    apply bind_Done in Hrun as ([c m1] & Hrec & Hrun).
    eapply (IH (done ++ [key])); [by rewrite <- app_assoc| |exact Hrun].
    eapply Hstep; [exact Hkeys|exact HI| | |exact Hrec|].
    + destruct isFormat; [apply prefixOf_app|apply prefixOf_refl].
    + destruct isObject; [apply prefixOf_app|apply prefixOf_refl].
    + destruct rest; [destruct isFormat|];
        [apply prefixOf_app|apply prefixOf_refl|apply prefixOf_app].
Qed.

(** *** A container pass over a tree, split into its visits *)

Lemma stringifyNode_visits (fuel : nat) (m : gmap string Node) (k : string)
    (n : Node) (options : StringifyOptions) (lvl : nat) (off boff : Z)
    (gt : nat -> string) (s : string) (m' : gmap string Node) :
  pure options = false -> keysKept options ->
  complete (S fuel) m k = true -> NoDup (reachList (S fuel) m k) ->
  m !! k = Some n -> isIterable n = true ->
  stringifyNode (S fuel) m k options lvl off boff gt = Done (s, m') ->
  exists vs,
    Forall2 (fun key v =>
               (exists mm, agreeOn nonSpan m mm
                  /\ stringifyNode fuel mm (getChildId n key) options (S lvl)
                       (vOffset v) (vBound v) gt = Done (vText v, vStore v))
               /\ forall j, j ∈ reachList fuel m (getChildId n key) ->
                            m' !! j = vStore v !! j)
            (keysOf options n) vs
    /\ placed s off off vs
    /\ exists n', m' !! k = Some n' /\ nonSpan n' = nonSpan n
         /\ Node.offset n' = off /\ Node.boundOffset n' = boff
         /\ Node.length n' = slen s
         /\ Node.boundLength n' = off + slen s - boff.
Proof.
  intros Hp Hkept Hc Hnd Hk Hit Hrun.
  rewrite (stringifyNode_container _ _ _ n) in Hrun by done.
  apply bind_Done in Hrun as ([s2 m2] & Hloop & Hfin).
  cbn zeta in Hfin. rewrite Hp in Hfin. simplify_eq.
  set (P := prepared options off boff k n m) in *.
  set (f := fun key => reachList fuel m (getChildId n key)).
  assert (Hndk : NoDup (concat (f <$> keysOf options n))).
  { rewrite (reachList_container _ _ _ n) in Hnd by done.
    apply NoDup_cons in Hnd as [_ Hnd].
    eapply NoDup_Permutation_proper; [|exact Hnd].
    apply concat_Permutation, fmap_Permutation, keysOf_Permutation. }
  assert (Hnotk : forall key, key ∈ keysOf options n -> k ∉ f key).
  { intros key Hkey Hin. apply reachList_reachable in Hin.
    eapply (complete_acyclic _ _ _ _ key Hc Hk); [|exact Hin].
    exact (proj1 (keysOf_elem options n key) Hkey). }
  assert (Hcc : forall key, key ∈ keysOf options n ->
                  complete fuel m (getChildId n key) = true).
  { intros key Hkey. eapply complete_child; [exact Hc|exact Hk|].
    exact (proj1 (keysOf_elem options n key) Hkey). }
  set (Inv := fun (done : list string) (st : string) (mm : gmap string Node) =>
    agreeOn nonSpan m mm /\ mm !! k = P !! k
    /\ exists vs,
         Forall2 (fun key v =>
                    (exists mm0, agreeOn nonSpan m mm0
                       /\ stringifyNode fuel mm0 (getChildId n key) options (S lvl)
                            (vOffset v) (vBound v) gt = Done (vText v, vStore v))
                    /\ forall j, j ∈ f key -> mm !! j = vStore v !! j)
                 done vs
         /\ placed st off off vs).
  assert (Hstep : forall done key rest st s1 sk c s4 mm mm',
             keysOf options n = done ++ key :: rest ->
             Inv done st mm ->
             prefixOf st s1 -> prefixOf s1 sk ->
             stringifyNode fuel mm (getChildId n key) options (S lvl)
               (off + slen sk) (off + slen s1) gt = Done (c, mm') ->
             prefixOf (sk +:+ c) s4 ->
             Inv (done ++ [key]) s4 mm').
  { intros done key rest st s1 sk c s4 mm mm' Hkeys (Ha & Hroot & vs & Hall & Hpl)
           Hpre1 Hpre2 Hrec Hpre4.
    assert (Hkey : key ∈ keysOf options n).
    { rewrite Hkeys. apply elem_of_app. right. by left. }
    assert (Hfr : forall j, j ∉ f key -> mm' !! j = mm !! j).
    { intros j Hj. eapply stringifyNode_frame; [exact Hrec|].
      intros Hr. apply Hj. unfold f.
      apply reachable_reachList; [|by apply Hcc].
      eapply reachable_shape; [|exact Hr].
      apply sameShape_sym. by apply agree_sameShape. }
    split_and!.
    - eapply agreeOn_trans; [exact Ha|].
      eapply stringifyNode_nonSpan; [exact Hkept|exact Hrec].
    - rewrite <- Hroot. apply Hfr. by apply Hnotk.
    - exists (vs ++ [mkVisit (off + slen sk) (off + slen s1) c mm']). split.
      + apply Forall2_app.
        * eapply Forall2_impl_elem_l; [exact Hall|].
          intros key0 v Hk0 [Hex Hper]. split; [exact Hex|].
          intros j Hj. rewrite <- (Hper j Hj). apply Hfr.
          eapply NoDup_concat_split; [rewrite <- Hkeys; exact Hndk|]. eauto.
        * constructor; [|constructor]. split; [|done].
          exists mm. split; [exact Ha|exact Hrec].
      + pose proof (prefixOf_slen _ _ Hpre1).
        pose proof (prefixOf_slen _ _ Hpre2).
        pose proof (prefixOf_slen _ _ Hpre4) as Hl4.
        rewrite slen_app in Hl4.
        pose proof (slen_nonneg c).
        apply (placed_snoc st); cbn [vBound vOffset vText]; [| | | | |lia|exact Hpl].
        * eapply prefixOf_trans; [exact Hpre1|].
          eapply prefixOf_trans; [exact Hpre2|].
          eapply prefixOf_trans; [apply prefixOf_app|exact Hpre4].
        * lia.
        * lia.
        * replace (Z.to_nat (off + slen sk - off)) with (String.length sk)
            by (unfold slen; lia).
          rewrite (substring_prefix (sk +:+ c)); [|exact Hpre4|].
          -- rewrite <- (append_nil_r (sk +:+ c)), append_assoc.
             apply substring_app_mid.
          -- rewrite length_append. lia.
        * lia. }
  assert (Hinit : Inv [] (if bool_decide (Node.type n = TObject)
                          then "{" else "[") P).
  { split_and!; [by apply prepared_nonSpan|reflexivity|].
    exists []. split; [constructor|]. simpl.
    pose proof (slen_nonneg (if bool_decide (Node.type n = TObject)
                             then "{" else "[")). lia. }
  pose proof (stringifyChildren_steps Inv _ _ _ _ _ _ _ (keysOf options n)
                Hstep (keysOf options n) [] _ _ _ _ eq_refl Hinit Hloop) as Hinv.
  destruct Hinv as (Ha & Hroot & vs & Hall & Hpl).
  set (g := fun x : Node =>
              computeAndSetBoundLength
                (Node.setLength
                   (slen (s2 +:+ (if bool_decide (Node.type n = TObject)
                                  then "}" else "]"))) x)).
  exists vs. split_and!.
  - eapply Forall2_impl_elem_l; [exact Hall|].
    intros key v Hkey [Hex Hper]. split; [exact Hex|].
    intros j Hj. rewrite <- (Hper j Hj). apply lookup_alter_ne.
    intros ->. by apply (Hnotk key).
  - eapply placed_mono; [apply prefixOf_app|reflexivity|exact Hpl].
  - destruct (prepared_eq options off boff k n m Hk) as (x & Hx & _ & Hoff & _).
    destruct (Hoff Hp) as [Ho Hb].
    destruct (agree_lookup _ _ _ _ (prepared_nonSpan options off boff k n m Hkept Hk) Hk)
      as (x' & Hx' & Hnx).
    fold P in Hx, Hx'. rewrite Hx in Hx'. injection Hx' as <-.
    exists (g x). rewrite lookup_alter_eq, Hroot, Hx. split; [done|].
    unfold g, computeAndSetBoundLength. simpl.
    split_and!; [exact Hnx|done..|lia].
Qed.

End LayoutFacts.

Section OrderFacts.

Context `{Helpers}.

(** *** A pass over a tree orders the children by position *)

Lemma leavesBare_agree (m mm : gmap string Node) :
  agreeOn nonSpan m mm -> leavesBare m -> leavesBare mm.
Proof.
  intros Ha Hl j n' Hj Hit.
  destruct (agree_lookup _ _ _ _ (agreeOn_sym _ _ _ Ha) Hj) as (n & Hn & Hns).
  unfold nonSpan in Hns.
  assert (Hty : Node.type n = Node.type n') by congruence.
  assert (Hkeys : Node.childrenKeys n = Node.childrenKeys n') by congruence.
  unfold getChildrenKeys. rewrite <- Hkeys. apply (Hl j n Hn).
  unfold isIterable in *. by rewrite Hty.
Qed.

Lemma forallb_ext_elem {A : Type} (f g : A -> bool) (l : list A) :
  (forall x, x ∈ l -> f x = g x) -> forallb f l = forallb g l.
Proof.
  induction l as [|x l IH]; intros Hfg; [done|]. simpl.
  rewrite (Hfg x) by (by left). f_equal. apply IH. intros y Hy. apply Hfg.
  by right.
Qed.

Lemma childrenOrdered_local (m1 m2 : gmap string Node) (n : Node) :
  (forall key, key ∈ getChildrenKeys n -> getChild m1 n key = getChild m2 n key) ->
  childrenOrdered m1 n = childrenOrdered m2 n.
Proof.
  intros Hloc. unfold childrenOrdered, childrenOf.
  rewrite (Forall_mapM_ext (getChild m1 n) (getChild m2 n)); [done|].
  by apply Forall_forall.
Qed.

Lemma withinParent_local (m1 m2 : gmap string Node) (n : Node) :
  (forall key, key ∈ getChildrenKeys n -> getChild m1 n key = getChild m2 n key) ->
  withinParent m1 n = withinParent m2 n.
Proof.
  intros Hloc. unfold withinParent. apply forallb_ext_elem.
  intros key Hkey. by rewrite (Hloc key Hkey).
Qed.

Lemma visits_children (m' : gmap string Node) (n' : Node)
    (keys : list string) (vs : list Visit) :
  Forall2 (fun key v =>
             exists c, getChild m' n' key = Some c
                       /\ Node.boundOffset c = vBound v
                       /\ boundEnd c = vOffset v + slen (vText v)) keys vs ->
  exists cs,
    Forall2 (fun key c => getChild m' n' key = Some c) keys cs
    /\ Forall2 (fun v c => Node.boundOffset c = vBound v
                           /\ boundEnd c = vOffset v + slen (vText v)) vs cs.
Proof.
  induction 1 as [|key v keys vs (c & Hc & Hb & He) _ (cs & H1 & H2)].
  - exists []. split; constructor.
  - exists (c :: cs). split; constructor; done.
Qed.

Lemma childrenNodes_mapM (m : gmap string Node) (n : Node) (cs : list Node) :
  childrenOf m n = Some cs <-> childrenNodes m n = Some <$> cs.
Proof.
  unfold childrenOf, childrenNodes. rewrite mapM_Some.
  generalize (getChildrenKeys n). intros keys. revert cs.
  induction keys as [|key keys IH]; intros cs.
  - split.
    + intros Hf. by apply Forall2_nil_inv_l in Hf as ->.
    + destruct cs; [constructor|discriminate].
  - split.
    + intros Hf. apply Forall2_cons_inv_l in Hf as (c & cs' & Hc & Hf & ->).
      simpl. rewrite Hc. f_equal. by apply IH.
    + destruct cs as [|c cs]; [discriminate|]. simpl. intros Heq.
      injection Heq as Hc Hrest. constructor; [done|]. by apply IH.
Qed.

Lemma stringifyNode_ordered (fuel : nat) :
  forall m k options lvl off boff gt s m',
    pure options = false -> sort options = None ->
    leavesBare m -> boff <= off ->
    complete fuel m k = true -> NoDup (reachList fuel m k) ->
    stringifyNode fuel m k options lvl off boff gt = Done (s, m') ->
    forall j n', j ∈ reachList fuel m k -> m' !! j = Some n' ->
      childrenOrdered m' n' = true /\ withinParent m' n' = true.
Proof.
  induction fuel as [|fuel IH];
    intros m k options lvl off boff gt s m' Hp Hsort Hbare Hboff Hc Hnd Hrun j n' Hj Hn';
    [discriminate|].
  assert (Hkept : keysKept options) by (by right).
  destruct (complete_lookup _ _ _ Hc) as [n Hk].
  pose proof (stringifyNode_nonSpan _ _ _ _ _ _ _ _ _ _ Hkept Hrun) as Hagree.
  destruct (isIterable n) eqn:Hit.
  - destruct (stringifyNode_visits fuel m k n options lvl off boff gt s m'
                Hp Hkept Hc Hnd Hk Hit Hrun)
      as (vs & Hall & Hpl & r & Hr & Hnr & Hro & Hrb & Hrl & Hrbl).
    rewrite (keysOf_unsorted _ _ Hsort) in Hall.
    rewrite (reachList_container _ _ _ n) in Hj, Hnd by done.
    apply NoDup_cons in Hnd as [_ Hnd].
    apply elem_of_cons in Hj as [->|Hj].
    + (* the container itself *)
      rewrite Hr in Hn'. injection Hn' as <-.
      assert (Hid : forall key, getChildId r key = getChildId n key).
      { intros key. unfold getChildId, nonSpan in *. congruence. }
      assert (Hkeys : getChildrenKeys r = getChildrenKeys n).
      { unfold getChildrenKeys, nonSpan in *. congruence. }
      destruct (visits_children m' r (getChildrenKeys n) vs) as (cs & Hcs & Hvc).
      { eapply Forall2_impl_elem_l; [exact Hall|].
        intros key v Hkey [(mm & Ha & Hchild) Hper].
        destruct (stringifyNode_root _ _ _ _ _ _ _ _ _ _ Hp Hchild)
          as (c & Hc' & Hlen & Hend & Hoffs).
        destruct Hoffs as [Hco Hcb].
        { eapply complete_agree; [exact Ha|].
          eapply complete_child; eauto. }
        exists c. split_and!.
        - unfold getChild. rewrite Hid, (Hper _ (reachList_head _ _ _)). exact Hc'.
        - exact Hcb.
        - unfold boundEnd. lia. }
      destruct (placed_increasing _ _ _ _ Hvc _ Hpl) as [Hinc Hfor].
      split.
      * unfold childrenOrdered, childrenOf. rewrite Hkeys.
        rewrite (mapM_Some_2 _ _ _ Hcs). exact Hinc.
      * unfold withinParent. rewrite Hkeys. apply forallb_forall.
        intros key Hkey%list_elem_of_In.
        destruct (Forall2_elem_l _ _ _ _ Hcs Hkey) as (c & Hcin & ->).
        rewrite Forall_forall in Hfor. destruct (Hfor c Hcin) as [Hlo Hhi].
        apply andb_true_iff. split; apply Z.leb_le; unfold boundEnd in *; lia.
    + (* a node below one of the children *)
      apply elem_of_concat_fmap in Hj as (key & Hkey & Hj).
      destruct (Forall2_elem_l _ _ _ _ Hall Hkey)
        as (v & Hv & (mm & Ha & Hchild) & Hper).
      destruct (placed_elem _ _ _ _ Hv _ ltac:(reflexivity) Hpl)
        as (_ & Hvb & _ & _).
      assert (Hcc : complete fuel m (getChildId n key) = true)
        by (eapply complete_child; eauto).
      rewrite (Hper j Hj) in Hn'.
      destruct (IH mm (getChildId n key) options (S lvl) (vOffset v) (vBound v) gt
                  (vText v) (vStore v) Hp Hsort
                  (leavesBare_agree _ _ Ha Hbare) Hvb
                  (complete_agree _ _ _ _ Ha Hcc)
                  ltac:(rewrite (reachList_agree _ _ _ Ha);
                        by apply (NoDup_concat_elem _ _ _ Hnd))
                  Hchild j n'
                  ltac:(by rewrite (reachList_agree _ _ _ Ha)) Hn')
        as [Hord Hwithin].
      assert (Hloc : forall key', key' ∈ getChildrenKeys n' ->
                getChild m' n' key' = getChild (vStore v) n' key').
      { intros key' Hkey'. unfold getChild. apply Hper.
        rewrite <- (Hper j Hj) in Hn'.
        destruct (agree_lookup _ _ _ _ (agreeOn_sym _ _ _ Hagree) Hn')
          as (nj & Hnj & Hnsj).
        assert (Hkj : getChildrenKeys n' = getChildrenKeys nj)
          by (unfold getChildrenKeys, nonSpan in *; congruence).
        assert (Hidj : getChildId n' key' = getChildId nj key')
          by (unfold getChildId, nonSpan in *; congruence).
        assert (Hitj : isIterable nj = true).
        { destruct (isIterable nj) eqn:E; [done|].
          rewrite Hkj, (Hbare j nj Hnj E) in Hkey'. by apply elem_of_nil in Hkey'. }
        rewrite Hidj. apply reachable_reachList; [|exact Hcc].
        eapply reachable_trans; [eapply reachList_reachable, Hj|].
        eapply reach_child; [exact Hnj|exact Hitj| |constructor].
        by rewrite <- Hkj. }
      rewrite (childrenOrdered_local _ _ _ Hloc), (withinParent_local _ _ _ Hloc).
      by split.
  - rewrite (reachList_leaf _ _ _ n) in Hj by done.
    apply list_elem_of_singleton in Hj as ->.
    destruct (agree_lookup _ _ _ _ Hagree Hk) as (x & Hx & Hnx).
    rewrite Hn' in Hx. injection Hx as <-.
    assert (Hkeys : getChildrenKeys n' = []).
    { unfold getChildrenKeys, nonSpan in *.
      replace (Node.childrenKeys n') with (Node.childrenKeys n) by congruence.
      by apply (Hbare k n Hk). }
    unfold childrenOrdered, childrenOf, withinParent. by rewrite Hkeys.
Qed.

Lemma valid_sameShape (t t' : Tree) :
  sameShape (nodeMap t) (nodeMap t') -> errors t' = errors t ->
  valid t' = valid t.
Proof.
  intros Hsh He. unfold valid, root, node, hasError. rewrite He.
  pose proof (sameShape_is_Some _ _ rootMarker Hsh) as Hr.
  destruct (nodeMap t' !! rootMarker), (nodeMap t !! rootMarker); try done.
  - destruct Hr as [Hr _]. destruct Hr; [eauto|discriminate].
  - destruct Hr as [_ Hr]. destruct Hr; [eauto|discriminate].
Qed.

(** What [stringify] leaves, in terms of the pass from the root. *)
Lemma stringify_inv (fuel : nat) (t t' : Tree) (options : StringifyOptions)
    (s : string) :
  pure options = false ->
  stringify fuel t options = Done (s, t') ->
  stringifyNode fuel (nodeMap t) rootMarker options 0 0 0
    (getGenTabsFn (tabWidthOrDefault options)) = Done (s, nodeMap t')
  /\ text t' = s /\ errors t' = errors t.
Proof.
  intros Hp Hrun. unfold stringify in Hrun.
  apply bind_Done in Hrun as ([s1 m1] & Hs & Hfin). simplify_eq.
  destruct (stringifyNode_root _ _ _ _ _ _ _ _ _ _ Hp Hs) as (r & Hr & Hlen & _).
  cbn [nodeMap setText setNodeMap text errors].
  rewrite (alter_fix _ _ r) by (by try apply setLength_same). done.
Qed.

(** X11. On a tree (closed, each node visited once, leaves without keys), a
    [stringify] call that assigns spans and does not sort leaves, at every
    node it visits, the children all present, their bound spans of
    non-negative length, each ending before the next starts, and each
    inside the bound span of the parent; if the node map holds nothing but
    that tree, it is ordered and nested as a whole, which is what the
    binary search of [findNodeAtOffset] relies on. *)
Theorem stringify_orders_children (fuel : nat) (t t' : Tree)
    (options : StringifyOptions) (s : string) :
  pure options = false -> sort options = None ->
  leavesBare (nodeMap t) -> treeShaped fuel (nodeMap t) rootMarker ->
  stringify fuel t options = Done (s, t') ->
  (forall j n',
      reachable (nodeMap t) rootMarker j -> nodeMap t' !! j = Some n' ->
      (exists cs, childrenNodes (nodeMap t') n' = Some <$> cs
                  /\ increasing cs = true)
      /\ withinParent (nodeMap t') n' = true)
  /\ (spanning fuel (nodeMap t) rootMarker ->
      ordered (nodeMap t') /\ nested (nodeMap t')).
Proof.
  intros Hp Hsort Hbare [Hc Hnd] Hrun.
  destruct (stringify_inv _ _ _ _ _ Hp Hrun) as (Hs & _ & _).
  pose proof (stringifyNode_ordered fuel _ _ _ _ _ _ _ _ _ Hp Hsort Hbare
                ltac:(reflexivity) Hc Hnd Hs) as Hord.
  split.
  - intros j n' Hj Hn'.
    destruct (Hord j n' (reachable_reachList _ _ _ Hj _ Hc) Hn') as [Ho Hw].
    split; [|exact Hw].
    unfold childrenOrdered in Ho.
    destruct (childrenOf (nodeMap t') n') as [cs|] eqn:Hcs; [|discriminate].
    exists cs. split; [by apply childrenNodes_mapM|exact Ho].
  - intros Hspan.
    assert (Hall : forall j n', nodeMap t' !! j = Some n' ->
              childrenOrdered (nodeMap t') n' = true
              /\ withinParent (nodeMap t') n' = true).
    { intros j n' Hn'. apply (Hord j n'); [|exact Hn'].
      apply Hspan.
      apply (proj1 (sameShape_is_Some _ _ j
                      (stringifyNode_shape _ _ _ _ _ _ _ _ _ _ Hs))). eauto. }
    split; intros j n' Hn'; by apply (Hall j n').
Qed.

(** X12. After such a [stringify] call on a valid tree whose node map holds
    nothing but the tree, [findNodeAtOffset] returns for every offset: no
    node when the offset lies outside the text (not after its first
    character position or past its end), and otherwise the innermost node
    whose bound span holds the offset, tagged as [hitType] says. *)
Theorem findNodeAtOffset_after_stringify (fuel : nat) (t t' : Tree)
    (options : StringifyOptions) (s : string) (offset : Z) :
  valid t = true ->
  pure options = false -> sort options = None ->
  leavesBare (nodeMap t) -> treeShaped fuel (nodeMap t) rootMarker ->
  spanning fuel (nodeMap t) rootMarker ->
  stringify fuel t options = Done (s, t') ->
  exists r' found,
    root t' = Some r'
    /\ findNodeAtOffset fuel t' offset = Done found
    /\ match found with
       | None => ~ (0 < offset <= slen s)
       | Some (n, ty) =>
           0 < offset <= slen s
           /\ Innermost (nodeMap t') offset r' n
           /\ ty = hitType offset n
       end.
Proof.
  intros Hvalid Hp Hsort Hbare [Hc Hnd] Hspan Hrun.
  destruct (stringify_inv _ _ _ _ _ Hp Hrun) as (Hs & _ & Herr).
  pose proof (stringifyNode_shape _ _ _ _ _ _ _ _ _ _ Hs) as Hsh.
  pose proof (stringifyNode_ordered fuel _ _ _ _ _ _ _ _ _ Hp Hsort Hbare
                ltac:(reflexivity) Hc Hnd Hs) as Hord.
  assert (Hordered : ordered (nodeMap t')).
  { intros j n' Hn'. apply (Hord j n'); [|exact Hn'].
    apply Hspan. apply (proj1 (sameShape_is_Some _ _ j Hsh)). eauto. }
  destruct (stringifyNode_root _ _ _ _ _ _ _ _ _ _ Hp Hs)
    as (r' & Hr' & Hlen & Hend & Hoffs).
  destruct (Hoffs Hc) as [Ho Hb].
  pose proof (complete_shape _ _ _ _ Hsh Hc) as Hc'.
  edestruct (doFind_spec fuel (nodeMap t') offset Hordered)
    as (found & Hfind & Hfound); [exact Hr'|exact Hc'|].
  assert (Hin : inBound offset r' = true <-> 0 < offset <= slen s).
  { unfold inBound. rewrite andb_true_iff, Z.ltb_lt, Z.leb_le. lia. }
  exists r'. unfold findNodeAtOffset.
  rewrite (valid_sameShape t t' Hsh Herr), Hvalid. cbn [negb].
  unfold root, node. rewrite Hr', Hfind, Done_bind.
  destruct found as [x|].
  - assert (Hoff : 0 < offset <= slen s) by (apply Hin; inversion Hfound; done).
    exists (Some (x, hitType offset x)).
    split; [reflexivity|]. split; [reflexivity|].
    split; [exact Hoff|]. split; [exact Hfound|reflexivity].
  - exists None. split; [reflexivity|]. split; [reflexivity|].
    intros Hoff%Hin. congruence.
Qed.

End OrderFacts.

Section TokenFacts.

Context `{Helpers}.

(** *** The token of a node is its serialisation *)

Lemma stringifyNode_tokens (fuel : nat) :
  rawStable ->
  forall m k options lvl off boff gt s m',
    pure options = false -> keysKept options ->
    complete fuel m k = true -> NoDup (reachList fuel m k) ->
    stringifyNode fuel m k options lvl off boff gt = Done (s, m') ->
    forall j n', j ∈ reachList fuel m k -> m' !! j = Some n' ->
      off <= Node.offset n' /\ 0 <= Node.length n'
      /\ Node.offset n' + Node.length n' <= off + slen s
      /\ exists f lvl',
           forall o' off' boff',
             format o' = format options -> sort o' = sort options ->
             exists m'',
               stringifyNode f m' j o' lvl' off' boff' gt
               = Done (String.substring (Z.to_nat (Node.offset n' - off))
                                        (Z.to_nat (Node.length n')) s, m'').
Proof.
  intros Hraw. induction fuel as [|fuel IH];
    intros m k options lvl off boff gt s m' Hp Hkept Hc Hnd Hrun j n' Hj Hn';
    [discriminate|].
  destruct (complete_lookup _ _ _ Hc) as [n Hk].
  pose proof (stringifyNode_nonSpan _ _ _ _ _ _ _ _ _ _ Hkept Hrun) as Hagree.
  assert (Hroot : j = k ->
            off <= Node.offset n' /\ 0 <= Node.length n'
            /\ Node.offset n' + Node.length n' <= off + slen s
            /\ exists f lvl',
                 forall o' off' boff',
                   format o' = format options -> sort o' = sort options ->
                   exists m'',
                     stringifyNode f m' j o' lvl' off' boff' gt
                     = Done (String.substring (Z.to_nat (Node.offset n' - off))
                                              (Z.to_nat (Node.length n')) s, m'')).
  { intros ->.
    destruct (stringifyNode_root _ _ _ _ _ _ _ _ _ _ Hp Hrun)
      as (r & Hr & Hlen & _ & Hoffs).
    destruct (Hoffs Hc) as [Ho _]. rewrite Hn' in Hr. injection Hr as <-.
    pose proof (slen_nonneg s). split_and!; [lia..|].
    exists (S fuel), lvl. intros o' off' boff' Hfmt Hsort.
    destruct (stringifyNode_rel (S fuel) Hraw m m' k options o' lvl off boff
                off' boff' gt s m' (eq_sym Hfmt) (eq_sym Hsort) Hagree Hrun)
      as (m'' & Hrun' & _).
    exists m''. rewrite Hrun'. do 2 f_equal.
    rewrite Ho, Hlen, Z.sub_diag, slen_to_nat. simpl Z.to_nat.
    symmetry. apply substring_full. }
  destruct (isIterable n) eqn:Hit.
  - destruct (stringifyNode_visits fuel m k n options lvl off boff gt s m'
                Hp Hkept Hc Hnd Hk Hit Hrun)
      as (vs & Hall & Hpl & _).
    rewrite (reachList_container _ _ _ n) in Hj, Hnd by done.
    apply NoDup_cons in Hnd as [_ Hnd].
    apply elem_of_cons in Hj as [->|Hj]; [by apply Hroot|].
    apply elem_of_concat_fmap in Hj as (key & Hkey & Hj).
    assert (Hkey' : key ∈ keysOf options n)
      by exact (proj2 (keysOf_elem options n key) Hkey).
    destruct (Forall2_elem_l _ _ _ _ Hall Hkey')
      as (v & Hv & (mm & Ha & Hchild) & Hper).
    destruct (placed_elem _ _ _ _ Hv _ ltac:(reflexivity) Hpl)
      as (Hlo & Hvb & Hsub & Hend).
    assert (Hcc : complete fuel m (getChildId n key) = true)
      by (eapply complete_child; eauto).
    rewrite (Hper j Hj) in Hn'.
    destruct (IH mm (getChildId n key) options (S lvl) (vOffset v) (vBound v) gt
                (vText v) (vStore v) Hp Hkept
                (complete_agree _ _ _ _ Ha Hcc)
                ltac:(rewrite (reachList_agree _ _ _ Ha);
                      by apply (NoDup_concat_elem _ _ _ Hnd))
                Hchild j n'
                ltac:(by rewrite (reachList_agree _ _ _ Ha)) Hn')
      as (Hb1 & Hb2 & Hb3 & f & lvl' & Htok).
    split_and!; [lia..|].
    exists f, lvl'. intros o' off' boff' Hfmt Hsort.
    destruct (Htok o' off' boff' Hfmt Hsort) as (m1 & Hrun1).
    assert (Hvm : agreeOn nonSpan (vStore v) m').
    { eapply agreeOn_trans; [|exact Hagree].
      apply agreeOn_sym. eapply agreeOn_trans; [exact Ha|].
      eapply stringifyNode_nonSpan; [exact Hkept|exact Hchild]. }
    destruct (stringifyNode_rel f Hraw (vStore v) m' j o' o' lvl' off' boff'
                off' boff' gt _ m1 eq_refl eq_refl Hvm Hrun1)
      as (m'' & Hrun' & _).
    exists m''. rewrite Hrun'. do 2 f_equal.
    replace (String.substring (Z.to_nat (Node.offset n' - vOffset v))
               (Z.to_nat (Node.length n')) (vText v))
      with (String.substring (Z.to_nat (Node.offset n' - vOffset v))
              (Z.to_nat (Node.length n'))
              (String.substring (Z.to_nat (vOffset v - off))
                 (String.length (vText v)) s))
      by (by rewrite Hsub).
    rewrite substring_substring by (unfold slen in *; lia).
    f_equal. lia.
  - rewrite (reachList_leaf _ _ _ n) in Hj by done.
    apply list_elem_of_singleton in Hj. by apply Hroot.
Qed.

(** X10. After a [stringify] call that assigns spans, on a tree and with
    options that leave the stored key order alone, the token of every
    visited node (the slice of the new text at the node's offset and
    length) is the node's own serialisation: [stringifyNode] on that node
    of the resulting tree, in either mode and from any offsets, returns
    exactly that token.  The token of a leaf is its raw value, the token
    of the root is the whole text. *)
Theorem getNodeToken_roundtrip (fuel : nat) (t t' : Tree)
    (options : StringifyOptions) (s : string) :
  rawStable -> keysKept options -> pure options = false ->
  treeShaped fuel (nodeMap t) rootMarker ->
  stringify fuel t options = Done (s, t') ->
  forall j n',
    reachable (nodeMap t) rootMarker j -> nodeMap t' !! j = Some n' ->
    (exists f lvl,
        forall o' off boff,
          format o' = format options -> sort o' = sort options ->
          exists m'',
            stringifyNode f (nodeMap t') j o' lvl off boff
              (getGenTabsFn (tabWidthOrDefault options))
            = Done (getNodeToken t' n', m''))
    /\ (isIterable n' = false ->
        getNodeToken t' n' = default EmptyString (getRawValue n'))
    /\ (j = rootMarker -> getNodeToken t' n' = text t').
Proof.
  intros Hraw Hkept Hp [Hc Hnd] Hrun j n' Hj Hn'.
  destruct (stringify_inv _ _ _ _ _ Hp Hrun) as (Hs & Htext & _).
  destruct (stringifyNode_tokens fuel Hraw _ _ _ _ _ _ _ _ _ Hp Hkept Hc Hnd Hs
              j n' (reachable_reachList _ _ _ Hj _ Hc) Hn')
    as (Hb1 & Hb2 & Hb3 & f & lvl & Htok).
  assert (Hget : getNodeToken t' n'
                 = String.substring (Z.to_nat (Node.offset n' - 0))
                     (Z.to_nat (Node.length n')) s).
  { unfold getNodeToken. rewrite Htext, jsSlice_inside by lia.
    by rewrite Z.sub_0_r. }
  rewrite Hget. split_and!.
  - exists f, lvl. exact Htok.
  - intros Hit.
    destruct (Htok options 0 0 eq_refl eq_refl) as (m'' & Hrun').
    destruct f as [|f]; [discriminate|].
    rewrite (stringifyNode_leaf _ _ _ n') in Hrun' by done.
    cbn zeta in Hrun'. rewrite Hp in Hrun'. by simplify_eq.
  - intros ->.
    destruct (stringifyNode_root _ _ _ _ _ _ _ _ _ _ Hp Hs)
      as (r & Hr & Hlen & _ & Hoffs).
    destruct (Hoffs Hc) as [Ho _]. rewrite Hn' in Hr. injection Hr as <-.
    rewrite Ho, Hlen, Htext, slen_to_nat. simpl Z.to_nat. apply substring_full.
Qed.

(** *** What a text looks like *)

Lemma stringifyNode_enclosed (fuel : nat) (m : gmap string Node) (k : string)
    (n : Node) (options : StringifyOptions) (lvl : nat) (off boff : Z)
    (gt : nat -> string) (s : string) (m' : gmap string Node) :
  m !! k = Some n -> isIterable n = true ->
  stringifyNode fuel m k options lvl off boff gt = Done (s, m') ->
  exists body,
    s = (if bool_decide (Node.type n = TObject) then "{" else "[")
        +:+ body
        +:+ (if bool_decide (Node.type n = TObject) then "}" else "]")
    /\ (getChildrenKeys n = [] -> body = EmptyString).
Proof.
  intros Hk Hit Hrun. destruct fuel as [|fuel]; [discriminate|].
  rewrite (stringifyNode_container _ _ _ n) in Hrun by done.
  apply bind_Done in Hrun as ([s2 m2] & Hloop & Hfin).
  assert (Hs : s = s2 +:+ (if bool_decide (Node.type n = TObject)
                           then "}" else "]")).
  { cbn zeta in Hfin. destruct (pure options); by simplify_eq. }
  destruct (keysOf options n) as [|key keys] eqn:Hkeys.
  + simpl in Hloop. simplify_eq. exists EmptyString. split; [|done].
    by rewrite append_nil_l.
  + rewrite <- Hkeys in Hloop.
    pose proof (stringifyChildren_steps
                  (fun _ st _ =>
                     prefixOf (if bool_decide (Node.type n = TObject)
                               then "{" else "[") st)
                  (fun ck co cbo mm =>
                     stringifyNode fuel mm ck options (S lvl) co cbo gt)
                  n (format options) (bool_decide (Node.type n = TObject))
                  gt lvl off (keysOf options n)) as Hsteps.
    destruct (Hsteps
                ltac:(intros ? ? ? ? ? ? ? ? ? ? _ Hi Hp1 Hp2 _ Hp4;
                      eapply prefixOf_trans; [exact Hi|];
                      eapply prefixOf_trans; [exact Hp1|];
                      eapply prefixOf_trans; [exact Hp2|];
                      eapply prefixOf_trans; [apply prefixOf_app|exact Hp4])
                (keysOf options n) [] _ _ _ _ eq_refl
                (prefixOf_refl _) Hloop) as [body Hbody].
    exists body. split.
    * by rewrite Hs, Hbody, append_assoc.
    * intros Hnone.
      assert (Hin : key ∈ getChildrenKeys n).
      { apply (keysOf_elem options). rewrite Hkeys. by left. }
      rewrite Hnone in Hin. by apply elem_of_nil in Hin.
Qed.

(** X6. The text of a leaf is its raw value (the empty string when it has
    none); the text of a container is its opening bracket, a body and its
    closing bracket, and the body is empty when the container has no
    child, also when formatting: an empty object is serialised as the two
    braces, without a line break. *)
Theorem stringifyNode_brackets (fuel : nat) (m : gmap string Node) (k : string)
    (n : Node) (options : StringifyOptions) (lvl : nat) (off boff : Z)
    (gt : nat -> string) (s : string) (m' : gmap string Node) :
  m !! k = Some n ->
  stringifyNode fuel m k options lvl off boff gt = Done (s, m') ->
  (isIterable n = false -> s = default EmptyString (getRawValue n))
  /\ (isIterable n = true ->
      exists body,
        s = (if bool_decide (Node.type n = TObject) then "{" else "[")
            +:+ body
            +:+ (if bool_decide (Node.type n = TObject) then "}" else "]")
        /\ (getChildrenKeys n = [] -> body = EmptyString)).
Proof.
  intros Hk Hrun. split; intros Hit.
  - destruct fuel as [|fuel]; [discriminate|].
    rewrite (stringifyNode_leaf _ _ _ n) in Hrun by done. cbn zeta in Hrun.
    destruct (pure options); by simplify_eq.
  - by apply (stringifyNode_enclosed fuel m k n options lvl off boff gt s m').
Qed.

End TokenFacts.

Section PatchFacts.

Context `{Helpers}.

(** *** The patch engine: the root follows the text *)






(** *** The children accessors *)

(** X19. [childrenNodes] has one entry per child key, in key order, the
    node stored under the corresponding entry of [childrenIds], or
    [undefined] where there is none; [mapChildren] hands each of these
    with its key and index to the callback; and below a closed node no
    entry is [undefined]. *)
Theorem childrenNodes_entries (m : gmap string Node) (n : Node) :
  childrenNodes m n = (fun i => m !! i) <$> childrenIds n
  /\ length (childrenNodes m n) = length (getChildrenKeys n)
  /\ (forall (T : Type) (fn : option Node -> string -> nat -> T) i key,
        getChildrenKeys n !! i = Some key ->
        mapChildren m n fn !! i = Some (fn (m !! getChildId n key) key i))
  /\ (forall fuel k,
        complete (S fuel) m k = true -> m !! k = Some n ->
        exists cs, childrenNodes m n = Some <$> cs
                   /\ length cs = length (getChildrenKeys n)).
Proof.
  unfold childrenNodes, childrenIds, mapChildren. split_and!.
  - by rewrite <- list_fmap_compose.
  - by rewrite length_fmap.
  - intros T fn i key Hi. by rewrite list_lookup_imap, Hi.
  - intros fuel k Hc Hk.
    assert (Hall : Forall (fun key => is_Some (getChild m n key)) (getChildrenKeys n)).
    { apply Forall_forall. intros key Hkey.
      eapply complete_lookup, complete_child; eauto. }
    induction Hall as [|key keys [c Hcq] _ (cs & Hcs & Hlen)].
    + exists []. done.
    + exists (c :: cs). rewrite !fmap_cons, Hcq, Hcs. simpl. by rewrite Hlen.
Qed.

End PatchFacts.

(** ** Edits that do not overlap *)

Lemma substring_length (s : string) (a l : nat) :
  (a + l <= String.length s)%nat -> String.length (String.substring a l s) = l.
Proof.
  revert a l. induction s as [|x s IH]; intros a l Hle; simpl in Hle.
  - assert (a = 0 /\ l = 0)%nat as [-> ->] by lia. done.
  - destruct a as [|a]; simpl.
    + destruct l as [|l]; [done|]. simpl. f_equal. apply IH. lia.
    + apply IH. lia.
Qed.

Lemma substring_app_from (a b : string) :
  String.substring (String.length a) (String.length b) (a +:+ b) = b.
Proof.
  rewrite <- (Nat.add_0_r (String.length a)), substring_app_skip.
  apply substring_full.
Qed.

Lemma substring_app_to (a b : string) :
  String.substring 0 (String.length a) (a +:+ b) = a.
Proof. rewrite substring_app_keep by lia. apply substring_full. Qed.

(** An edit that replaces the middle of a text. *)
Lemma applyEdit_mid (pre old post content : string) (o l : Z) :
  slen pre = o -> slen old = l ->
  applyEdit (pre +:+ old +:+ post) (Edit.mk o l content)
  = pre +:+ content +:+ post.
Proof.
  intros Ho Hl. unfold applyEdit, jsSubstringFrom, jsSubstring, clampIndex.
  cbn [Edit.offset Edit.length Edit.content].
  rewrite !slen_app. unfold slen in *.
  replace (Z.to_nat (Z.max 0 (Z.min 0 _))) with 0%nat by lia.
  replace (Z.to_nat (Z.max 0 (Z.min o _))) with (String.length pre) by lia.
  replace (Z.to_nat (Z.max 0 (Z.min (o + l) _)))
    with (String.length (pre +:+ old)) by (rewrite length_append; lia).
  replace (Z.to_nat (Z.max 0 (Z.min (Z.of_nat (String.length pre)
             + (Z.of_nat (String.length old) + Z.of_nat (String.length post))) _)))
    with (String.length (pre +:+ old) + String.length post)%nat
    by (rewrite length_append; lia).
  rewrite Nat.min_l, Nat.max_r, Nat.sub_0_r by lia.
  rewrite Nat.min_l, Nat.max_r by lia.
  replace (String.length (pre +:+ old) + String.length post
           - String.length (pre +:+ old))%nat
    with (String.length post) by lia.
  rewrite substring_app_to.
  rewrite <- (append_assoc pre old post), substring_app_from. reflexivity.
Qed.

Lemma editsWithin_le (es : list Edit.t) :
  forall lo hi, editsWithin lo hi es -> lo <= hi.
Proof.
  induction es as [|e es IH]; intros lo hi Hw; [exact Hw|].
  destruct Hw as (Hlo & Hlen & Hw). apply IH in Hw. lia.
Qed.

Lemma editsWithin_weaken (es : list Edit.t) :
  forall lo hi lo' hi',
    lo' <= lo -> hi <= hi' -> editsWithin lo hi es -> editsWithin lo' hi' es.
Proof.
  induction es as [|e es IH]; intros lo hi lo' hi' Hlo Hhi Hw; simpl in *; [lia|].
  destruct Hw as (H1 & H2 & Hw). split_and!; [lia..|].
  apply (IH (Edit.offset e + Edit.length e) hi); [lia|done|done].
Qed.

Lemma editsWithin_app (es1 es2 : list Edit.t) :
  forall lo mid hi,
    editsWithin lo mid es1 -> editsWithin mid hi es2 ->
    editsWithin lo hi (es1 ++ es2).
Proof.
  induction es1 as [|e es1 IH]; intros lo mid hi Hw1 Hw2; simpl in *.
  - apply (editsWithin_weaken _ mid hi); [done|lia|done].
  - destruct Hw1 as (H1 & H2 & Hw1). split_and!; [done..|].
    by apply (IH _ mid).
Qed.

Lemma editsWithin_snoc (es : list Edit.t) (e : Edit.t) :
  forall lo hi,
    editsWithin lo hi (es ++ [e]) ->
    editsWithin lo (Edit.offset e) es
    /\ 0 <= Edit.length e /\ Edit.offset e + Edit.length e <= hi.
Proof.
  induction es as [|x es IH]; intros lo hi Hw; simpl in *.
  - lia.
  - destruct Hw as (H1 & H2 & Hw). apply IH in Hw as (Hw & H3 & H4).
    by split_and!.
Qed.

Lemma editsWithin_before (es : list Edit.t) :
  forall lo hi, editsWithin lo hi es ->
    Forall (fun x => Edit.offset x + Edit.length x <= hi /\ 0 <= Edit.length x) es.
Proof.
  induction es as [|e es IH]; intros lo hi Hw; [constructor|].
  destruct Hw as (H1 & H2 & Hw). constructor.
  - apply editsWithin_le in Hw. lia.
  - by apply (IH _ _ Hw).
Qed.

Lemma sortEdits_snoc (es : list Edit.t) (e : Edit.t) :
  sortEdits (es ++ [e]) = insertEdit e (sortEdits es).
Proof. unfold sortEdits. by rewrite reverse_app. Qed.

Lemma insertEdit_last (e : Edit.t) (es : list Edit.t) :
  Forall (fun x => editLe x e = true) es -> insertEdit e es = es ++ [e].
Proof.
  induction 1 as [|x es Hx _ IH]; [done|]. simpl. by rewrite Hx, IH.
Qed.

(** Edits that come in order are left in their order by the sort of
    [applyEdits]. *)
Lemma sortEdits_within (es : list Edit.t) :
  forall lo hi, editsWithin lo hi es -> sortEdits es = es.
Proof.
  induction es as [|e es IH] using rev_ind; intros lo hi Hw; [done|].
  apply editsWithin_snoc in Hw as (Hw & Hlen & _).
  rewrite sortEdits_snoc, (IH _ _ Hw). apply insertEdit_last.
  eapply Forall_impl; [exact (editsWithin_before _ _ _ Hw)|].
  intros x [Hx Hx0]. unfold editLe.
  destruct (Edit.offset x - Edit.offset e =? 0) eqn:E.
  - apply Z.eqb_eq in E. apply Z.leb_le. lia.
  - apply Z.eqb_neq in E. apply Z.leb_le. lia.
Qed.

Lemma applyEditsRev_within (es : list Edit.t) :
  forall txt lo hi,
    editsWithin lo hi es ->
    applyEditsRev txt hi (reverse es) = Done (applyAll txt es).
Proof.
  induction es as [|e es IH] using rev_ind; intros txt lo hi Hw; [done|].
  apply editsWithin_snoc in Hw as (Hw & Hlen & Hhi).
  rewrite reverse_app. simpl.
  replace (Edit.offset e + Edit.length e <=? hi) with true
    by (symmetry; by apply Z.leb_le).
  rewrite (IH _ _ _ Hw). unfold applyAll. by rewrite foldr_app.
Qed.

(** [applyEdits] on edits that come in order inside the text does not
    throw: it applies them one by one from the last. *)
Lemma applyEdits_within (txt : string) (es : list Edit.t) (lo : Z) :
  editsWithin lo (slen txt) es -> applyEdits txt es = Done (applyAll txt es).
Proof.
  intros Hw. unfold applyEdits. rewrite (sortEdits_within _ _ _ Hw).
  by apply (applyEditsRev_within _ _ lo).
Qed.

Lemma applyAll_app (txt : string) (es1 es2 : list Edit.t) :
  applyAll txt (es1 ++ es2) = applyAll (applyAll txt es2) es1.
Proof. unfold applyAll. by rewrite foldr_app. Qed.

(** ** Trimming a bracketed text *)

Lemma rev_app_app (a b acc : string) :
  String.rev_app (a +:+ b) acc = String.rev_app b (String.rev_app a acc).
Proof.
  revert acc. induction a as [|x a IH]; intros acc; [done|].
  rewrite append_cons. simpl. apply IH.
Qed.

Lemma rev_app_rev_app (x y z : string) :
  String.rev_app (String.rev_app x y) z = String.rev_app y (x +:+ z).
Proof.
  revert y z. induction x as [|a x IH]; intros y z; [done|].
  simpl. rewrite IH. simpl. by rewrite append_cons.
Qed.

Lemma trim_enclosed (c1 c2 : ascii) (body : string) :
  isWhiteSpace c1 = false -> isWhiteSpace c2 = false ->
  trim (String c1 (body +:+ String c2 EmptyString))
  = String c1 (body +:+ String c2 EmptyString).
Proof.
  intros H1 H2. unfold trim. cbn [trimStart]. rewrite H1.
  unfold trimEnd, String.rev. cbn [String.rev_app].
  rewrite rev_app_app. cbn [String.rev_app trimStart]. rewrite H2.
  cbn [String.rev_app]. rewrite rev_app_rev_app. simpl. reflexivity.
Qed.

Section ReindexFacts.

Context `{Helpers}.

(** *** The patch pass against a pass from scratch *)

Lemma kidsLaid_local (m M : gmap string Node) (n : Node) (isObject : bool) :
  forall keys pos,
    (forall key, key ∈ keys -> M !! getChildId n key = m !! getChildId n key) ->
    kidsLaid M n isObject pos keys = kidsLaid m n isObject pos keys.
Proof.
  induction keys as [|key rest IH]; intros pos Hag; [reflexivity|].
  cbn [kidsLaid]. unfold getChild. rewrite (Hag key) by (by left).
  destruct (m !! getChildId n key) as [c|]; [|reflexivity]. simpl.
  destruct (_ && _); [|reflexivity].
  destruct rest as [|key' rest']; [reflexivity|].
  apply IH. intros key0 Hkey0. apply Hag. by right.
Qed.

Lemma laid_local (fuel : nat) (nest : option (gmap string Node))
    (m M : gmap string Node) :
  forall k,
    (forall j, j ∈ reachList fuel m k -> M !! j = m !! j) ->
    laid fuel nest M k = laid fuel nest m k.
Proof.
  induction fuel as [|fuel IH]; intros k Hag; [reflexivity|].
  cbn [laid]. rewrite (Hag k (reachList_head _ _ _)).
  destruct (m !! k) as [n|] eqn:Hk; [|reflexivity].
  destruct (isIterable n) eqn:Hit; [|reflexivity].
  rewrite (reachList_container _ _ _ n) in Hag by done.
  assert (Hkids : forall key j,
             key ∈ getChildrenKeys n ->
             j ∈ reachList fuel m (getChildId n key) -> M !! j = m !! j).
  { intros key j Hkey Hj. apply Hag. right.
    apply elem_of_concat_fmap. by exists key. }
  f_equal. f_equal. f_equal.
  - apply forallb_ext_elem. intros key Hkey. apply IH.
    intros j Hj. by apply (Hkids key).
  - rewrite (kidsLaid_local m M); [reflexivity|].
    intros key Hkey. apply (Hkids key); [done|apply reachList_head].
Qed.

Lemma slen_keyPart (st key : string) (isObject : bool) :
  slen (if isObject
        then st +:+ DQ +:+ key +:+ DQ +:+ ":" +:+ EmptyString
        else st)
  = slen st + keyWidth isObject key.
Proof.
  unfold keyWidth. destruct isObject; [|lia].
  rewrite !slen_app. change (slen DQ) with 1. change (slen ":") with 1.
  change (slen EmptyString) with 0. lia.
Qed.

Lemma prepared_shiftStart (options : StringifyOptions) (k : string) (n : Node)
    (m : gmap string Node) (a : Z) :
  pure options = false -> sort options = None ->
  prepared options (Node.offset n + a) (Node.boundOffset n + a) k n m
  = <[k := shiftStart a n]> m.
Proof.
  intros Hp Hs. unfold prepared. rewrite Hp, (keysOf_unsorted _ _ Hs).
  destruct keysShared.
  - rewrite <- (insert_as_alter _ k _ (<[k:=_]> m)) by apply lookup_insert_eq.
    rewrite insert_insert_eq. f_equal.
  - reflexivity.
Qed.

Lemma slen_keyPart_only (isObject : bool) (key : string) :
  slen (keyPart isObject key) = keyWidth isObject key.
Proof.
  unfold keyPart, keyWidth. destruct isObject; [|done].
  rewrite !slen_app. change (slen DQ) with 1. change (slen ":") with 1. lia.
Qed.

Lemma append_keyPart (st key : string) (isObject : bool) :
  (if isObject
   then st +:+ DQ +:+ key +:+ DQ +:+ ":" +:+ EmptyString
   else st)
  = st +:+ keyPart isObject key.
Proof.
  unfold keyPart. destruct isObject; [|by rewrite append_nil_r].
  by rewrite (append_nil_r ":").
Qed.

Lemma kidsText_ext (rec1 rec2 : string -> option string) (n : Node)
    (isObject : bool) (keys : list string) :
  (forall key, key ∈ keys -> rec1 (getChildId n key) = rec2 (getChildId n key)) ->
  kidsText rec1 n isObject keys = kidsText rec2 n isObject keys.
Proof.
  induction keys as [|key rest IH]; intros Hrec; [reflexivity|].
  cbn [kidsText]. rewrite (Hrec key) by (by left).
  rewrite IH; [reflexivity|]. intros key0 Hkey0. apply Hrec. by right.
Qed.

Lemma textBefore_local (fuel : nat) (nest : option (gmap string Node))
    (m M : gmap string Node) (txt : string) :
  forall k,
    (forall j, j ∈ reachList fuel m k -> M !! j = m !! j) ->
    textBefore fuel nest M txt k = textBefore fuel nest m txt k.
Proof.
  induction fuel as [|fuel IH]; intros k Hag; [reflexivity|].
  cbn [textBefore]. rewrite (Hag k (reachList_head _ _ _)).
  destruct (m !! k) as [n|] eqn:Hk; [|reflexivity].
  destruct (isNest nest n); [reflexivity|].
  destruct (isIterable n) eqn:Hit; [|reflexivity].
  rewrite (reachList_container _ _ _ n) in Hag by done.
  cbn zeta.
  rewrite (kidsText_ext (textBefore fuel nest M txt) (textBefore fuel nest m txt));
    [reflexivity|].
  intros key Hkey. apply IH. intros j Hj. apply Hag. right.
  apply elem_of_concat_fmap. by exists key.
Qed.

(** The loop of the patch pass over the children of a node that is not
    pending, against the loop of [stringifyNode] over them: from the same
    store both come to the same store, and the delta the patch pass has
    accumulated is how far the new text has moved off the old spans. *)
Lemma fixChildren_restringify (f : nat) (nest : option (gmap string Node))
    (options : StringifyOptions) (m0 : gmap string Node) (n : Node)
    (lvl : nat) (gt : nat -> string) (off : Z) :
  sort options = None ->
  (forall m k x a e lvl gt,
      complete f m k = true -> NoDup (reachList f m k) ->
      laid f nest m k = true -> m !! k = Some x ->
      exists s m',
        stringifyNode f m k options lvl (Node.offset x + a)
          (Node.boundOffset x + a) gt = Done (s, m')
        /\ exists es,
             fixOffset (S f) nest options k (mkPatch m a e)
             = Done (mkPatch m' (a + (slen s - Node.length x)) (e ++ es))
             /\ forall txt old,
                  textBefore f nest m txt k = Some old ->
                  slen old = Node.length x
                  /\ editsWithin (Node.offset x)
                       (Node.offset x + Node.length x) es
                  /\ forall pre post,
                       slen pre = Node.offset x ->
                       applyAll (pre +:+ old +:+ post) es
                       = pre +:+ s +:+ post) ->
  forall rest st M a e pos endpos,
    (forall key, key ∈ rest -> complete f m0 (getChildId n key) = true) ->
    NoDup (concat ((fun key => reachList f m0 (getChildId n key)) <$> rest)) ->
    agreeOn nonSpan m0 M ->
    (forall key j, key ∈ rest -> j ∈ reachList f m0 (getChildId n key) ->
                   M !! j = m0 !! j) ->
    forallb (fun key => laid f nest m0 (getChildId n key)) rest = true ->
    kidsLaid m0 n (bool_decide (Node.type n = TObject)) pos rest = Some endpos ->
    off + slen st = pos + a ->
    exists s2 M' a' es,
      stringifyChildren
        (fun ck co cbo mm => stringifyNode f mm ck options (S lvl) co cbo gt)
        n false (bool_decide (Node.type n = TObject)) gt lvl off rest st M
      = Done (s2, M')
      /\ fixChildren (fixOffset (S f) nest options) n rest (mkPatch M a e)
         = Done (mkPatch M' a' (e ++ es))
      /\ off + slen s2 = endpos + a'
      /\ agreeOn nonSpan m0 M'
      /\ (forall j, (forall key, key ∈ rest ->
                       j ∉ reachList f m0 (getChildId n key)) ->
                    M' !! j = M !! j)
      /\ (forall txt olds,
            kidsText (textBefore f nest m0 txt) n
              (bool_decide (Node.type n = TObject)) rest = Some olds ->
            exists news,
              s2 = st +:+ news
              /\ pos + slen olds = endpos
              /\ editsWithin pos endpos es
              /\ forall pre post,
                   slen pre = pos ->
                   applyAll (pre +:+ olds +:+ post) es
                   = pre +:+ news +:+ post).
Proof.
  intros Hsort Hrec.
  induction rest as [|key rest IH];
    intros st M a e pos endpos Hc Hnd Hag Hsame Hlaid Hkids Hpos.
  - simpl in Hkids. injection Hkids as <-.
    exists st, M, a, []. rewrite app_nil_r. split_and!; try done.
    intros txt olds Holds. simpl in Holds. injection Holds as <-.
    exists EmptyString. rewrite append_nil_r.
    change (slen EmptyString) with 0. simpl. split_and!; [done|lia|lia|done].
  - cbn [kidsLaid] in Hkids.
    destruct (getChild m0 n key) as [c|] eqn:Hchild; [|discriminate].
    simpl in Hkids.
    destruct (_ && _) eqn:Hfit in Hkids; [|discriminate].
    apply andb_prop in Hfit as [Hbo Ho].
    apply Z.eqb_eq in Hbo. apply Z.eqb_eq in Ho.
    simpl in Hlaid. apply andb_prop in Hlaid as [Hlaidc Hlaid].
    rewrite fmap_cons in Hnd. simpl in Hnd.
    apply NoDup_app in Hnd as (Hndc & Hdisj & Hnd).
    set (cid := getChildId n key) in *.
    assert (Hcc : complete f m0 cid = true) by (apply Hc; by left).
    assert (Hsub : forall j, j ∈ reachList f m0 cid -> M !! j = m0 !! j)
      by (intros j Hj; apply (Hsame key); [by left|done]).
    assert (HMc : M !! cid = Some c).
    { rewrite Hsub by apply reachList_head. exact Hchild. }
    destruct (Hrec M cid c a e (S lvl) gt)
      as (sc & M1 & Hrun & es1 & Hfix & Htextc).
    { by apply (complete_agree _ m0). }
    { by rewrite (reachList_agree _ _ _ Hag). }
    { by rewrite (laid_local _ _ m0). }
    { exact HMc. }
    assert (Hkept : keysKept options) by (by right).
    pose proof (stringifyNode_nonSpan _ _ _ _ _ _ _ _ _ _ Hkept Hrun) as Hag1.
    assert (Hframe : forall j, j ∉ reachList f m0 cid -> M1 !! j = M !! j).
    { intros j Hj.
      apply (stringifyNode_frame _ _ _ _ _ _ _ _ _ _ _ Hrun).
      intros Hr. apply Hj. rewrite <- (reachList_agree _ _ _ Hag).
      apply reachable_reachList; [done|]. by apply (complete_agree _ m0). }
    set (pos' := match rest with
                 | [] => Node.offset c + Node.length c
                 | _ :: _ => Node.offset c + Node.length c + 1
                 end).
    set (s3 := (if bool_decide (Node.type n = TObject)
                then st +:+ DQ +:+ key +:+ DQ +:+ ":" +:+ EmptyString
                else st) +:+ sc).
    set (st' := match rest with
                | [] => s3
                | _ :: _ => s3 +:+ ","
                end).
    destruct (IH st' M1 (a + (slen sc - Node.length c)) (e ++ es1) pos' endpos)
      as (s2 & M' & a' & es2 & Hloop & Hfixes & Hend & Hag' & Hfr & Htexts).
    { intros key0 Hkey0. apply Hc. by right. }
    { exact Hnd. }
    { eapply agreeOn_trans; [exact Hag|exact Hag1]. }
    { intros key0 j Hkey0 Hj. rewrite Hframe.
      - apply (Hsame key0); [by right|done].
      - intros Hjc. apply (Hdisj j Hjc).
        apply elem_of_concat_fmap. by exists key0. }
    { exact Hlaid. }
    { unfold pos'. by destruct rest. }
    { unfold st', pos', s3.
      pose proof (slen_keyPart st key (bool_decide (Node.type n = TObject))) as Hw.
      destruct rest; rewrite ?slen_app, Hw; change (slen ",") with 1; lia. }
    exists s2, M', a', (es1 ++ es2). split_and!.
    + cbn [stringifyChildren]. fold cid.
      pose proof (slen_keyPart st key (bool_decide (Node.type n = TObject))) as Hw.
      replace (off + slen (if bool_decide (Node.type n = TObject)
                           then st +:+ DQ +:+ key +:+ DQ +:+ ":" +:+ EmptyString
                           else st))
        with (Node.offset c + a) by lia.
      replace (off + slen st) with (Node.boundOffset c + a) by lia.
      rewrite Hrun, Done_bind. exact Hloop.
    + cbn [fixChildren]. fold cid. rewrite Hfix, Done_bind.
      by rewrite app_assoc.
    + exact Hend.
    + exact Hag'.
    + intros j Hj. rewrite Hfr.
      * apply Hframe. apply Hj. by left.
      * intros key0 Hkey0. apply Hj. by right.
    + intros txt olds Holds. cbn [kidsText] in Holds. fold cid in Holds.
      destruct (textBefore f nest m0 txt cid) as [cold|] eqn:Hcold;
        [|discriminate].
      simpl in Holds.
      destruct (kidsText (textBefore f nest m0 txt) n
                  (bool_decide (Node.type n = TObject)) rest)
        as [r|] eqn:Hr; [|discriminate].
      simpl in Holds. injection Holds as <-.
      destruct (Htextc txt cold) as (Hlc & Hwc & Hstarc).
      { by rewrite (textBefore_local _ _ m0). }
      destruct (Htexts txt r Hr) as (news & Hs2 & Hposr & Hw2 & Hstars).
      set (isObject := bool_decide (Node.type n = TObject)) in *.
      set (sep := match rest with
                  | [] => EmptyString
                  | _ :: _ => ","
                  end).
      pose proof (slen_keyPart_only isObject key) as Hkw.
      assert (Hpos' : pos' = Node.offset c + Node.length c + slen sep)
        by (unfold pos', sep; destruct rest;
            [change (slen EmptyString) with 0|change (slen ",") with 1]; lia).
      assert (Holds : keyPart isObject key +:+ cold
                      +:+ match rest with
                          | [] => r
                          | _ :: _ => "," +:+ r
                          end
                      = keyPart isObject key +:+ cold +:+ sep +:+ r)
        by (unfold sep; by destruct rest).
      rewrite Holds.
      exists (keyPart isObject key +:+ sc +:+ sep +:+ news). split_and!.
      * rewrite Hs2. unfold st', s3, sep. rewrite append_keyPart.
        destruct rest; rewrite ?append_assoc; reflexivity.
      * rewrite !slen_app, Hkw. lia.
      * apply (editsWithin_app _ _ _ (Node.offset c + Node.length c)).
        -- apply (editsWithin_weaken _ (Node.offset c)
                    (Node.offset c + Node.length c)); [|lia|done].
           unfold keyWidth in Ho. pose proof (slen_nonneg key).
           destruct isObject; lia.
        -- apply (editsWithin_weaken _ pos' endpos); [|lia|done].
           pose proof (slen_nonneg sep). lia.
      * intros pre post Hpre. rewrite applyAll_app.
        replace (pre +:+ (keyPart isObject key +:+ cold +:+ sep +:+ r) +:+ post)
          with ((pre +:+ keyPart isObject key +:+ cold +:+ sep) +:+ r +:+ post)
          by (rewrite !append_assoc; reflexivity).
        rewrite Hstars by (rewrite !slen_app, Hkw; lia).
        replace ((pre +:+ keyPart isObject key +:+ cold +:+ sep) +:+ news +:+ post)
          with ((pre +:+ keyPart isObject key) +:+ cold
                +:+ (sep +:+ news +:+ post))
          by (rewrite !append_assoc; reflexivity).
        rewrite Hstarc by (rewrite !slen_app, Hkw; lia).
        rewrite !append_assoc. reflexivity.
Qed.

(** Over a subtree laid out compactly, the patch pass and [stringifyNode]
    started where the patch pass moves the node to come to the same store;
    the delta grows by what the new text is longer than the old span. *)
Lemma fixOffset_restringify (fuel : nat) (nest : option (gmap string Node))
    (options : StringifyOptions) :
  format options = false -> sort options = None -> pure options = false ->
  forall m k n a e lvl gt,
    complete fuel m k = true -> NoDup (reachList fuel m k) ->
    laid fuel nest m k = true -> m !! k = Some n ->
    exists s m',
      stringifyNode fuel m k options lvl (Node.offset n + a)
        (Node.boundOffset n + a) gt = Done (s, m')
      /\ exists es,
           fixOffset (S fuel) nest options k (mkPatch m a e)
           = Done (mkPatch m' (a + (slen s - Node.length n)) (e ++ es))
           /\ forall txt old,
                textBefore fuel nest m txt k = Some old ->
                slen old = Node.length n
                /\ editsWithin (Node.offset n) (Node.offset n + Node.length n) es
                /\ forall pre post,
                     slen pre = Node.offset n ->
                     applyAll (pre +:+ old +:+ post) es = pre +:+ s +:+ post.
Proof.
  intros Hfmt Hsort Hp.
  induction fuel as [|fuel IH]; intros m k n a e lvl gt Hc Hnd Hlaid Hk;
    [discriminate|].
  rewrite fixOffset_S. cbn [store acc edits]. rewrite Hk.
  cbn [laid] in Hlaid. rewrite Hk in Hlaid.
  destruct (isNest nest n) eqn:Hnest.
  - destruct (stringifyNode_total (S fuel) m k options lvl (Node.offset n + a)
                (Node.boundOffset n + a) gt Hc) as (s & m' & Hrun).
    exists s, m'. split; [exact Hrun|].
    rewrite (stringifyNode_compact_any (S fuel) options options Hfmt Hfmt
               eq_refl eq_refl m k 0%nat lvl _ _ _ gt), Hrun, Done_bind.
    eexists. split; [reflexivity|].
    intros txt old Hold. cbn [textBefore] in Hold. rewrite Hk, Hnest in Hold.
    destruct (_ && _) eqn:Hin in Hold; [|discriminate].
    injection Hold as <-.
    apply andb_prop in Hin as [Hin Hhi]. apply andb_prop in Hin as [Hlo Hlen].
    apply Z.leb_le in Hlo, Hlen, Hhi.
    rewrite jsSlice_inside by done.
    assert (Hl : slen (String.substring (Z.to_nat (Node.offset n))
                         (Z.to_nat (Node.length n)) txt) = Node.length n).
    { unfold slen in *. rewrite substring_length; lia. }
    split_and!; [exact Hl|simpl; lia|].
    intros pre post Hpre. simpl. by apply applyEdit_mid.
  - simpl in Hlaid. apply andb_prop in Hlaid as [Hok Hlaid].
    apply spanOkb_spec in Hok. destruct Hok as [_ Hspan].
    destruct (isIterable n) eqn:Hit.
    + apply andb_prop in Hlaid as [Hkidsl Hlay].
      destruct (kidsLaid m n (bool_decide (Node.type n = TObject))
                  (Node.offset n + 1) (getChildrenKeys n))
        as [endpos|] eqn:Hkids; [|discriminate].
      apply Z.eqb_eq in Hlay.
      rewrite (reachList_container _ _ _ n) in Hnd by done.
      apply NoDup_cons in Hnd as [Hnk Hnd].
      set (m1 := <[k := shiftStart a n]> m).
      assert (Hag : agreeOn nonSpan m m1) by (by apply (agreeOn_insert _ _ _ n)).
      assert (Hnotk : forall key, key ∈ getChildrenKeys n ->
                        k ∉ reachList fuel m (getChildId n key)).
      { intros key Hkey Hin. apply Hnk, elem_of_concat_fmap. by exists key. }
      destruct (fixChildren_restringify fuel nest options m n lvl gt
                  (Node.offset n + a) Hsort IH (getChildrenKeys n)
                  (if bool_decide (Node.type n = TObject) then "{" else "[")
                  m1 a e (Node.offset n + 1) endpos)
        as (s2 & M' & a' & es & Hloop & Hfix & Hend & _ & Hfr & Htexts).
      { intros key Hkey. by apply (complete_child _ _ k n). }
      { exact Hnd. }
      { exact Hag. }
      { intros key j Hkey Hj. unfold m1. apply lookup_insert_ne.
        intros ->. by apply (Hnotk key). }
      { exact Hkidsl. }
      { exact Hkids. }
      { destruct (bool_decide (Node.type n = TObject));
          [change (slen "{") with 1|change (slen "[") with 1]; lia. }
      assert (HMk : M' !! k = Some (shiftStart a n)).
      { rewrite Hfr by (intros key Hkey; by apply Hnotk).
        apply lookup_insert_eq. }
      set (s := s2 +:+ (if bool_decide (Node.type n = TObject) then "}" else "]")).
      assert (Hs : slen s = slen s2 + 1).
      { unfold s. rewrite slen_app.
        by destruct (bool_decide (Node.type n = TObject)). }
      exists s, (alter (fun x => computeAndSetBoundLength
                                   (Node.setLength (slen s) x)) k M').
      split.
      * rewrite (stringifyNode_container _ _ _ n) by done.
        rewrite Hfmt, Hp, (keysOf_unsorted _ _ Hsort),
          (prepared_shiftStart _ _ _ _ _ Hp Hsort).
        fold m1. by rewrite Hloop, Done_bind.
      * exists es. fold m1. rewrite Hfix, Done_bind. cbn [store acc edits].
        split.
        { f_equal. f_equal; [|lia].
          apply (alter_ext _ _ _ k). intros x Hx. rewrite HMk in Hx.
          injection Hx as <-.
          unfold growLength, computeAndSetBoundLength, shiftStart,
            Node.setLength, Node.setBoundLength, Node.setOffset,
            Node.setBoundOffset. simpl. f_equal; lia. }
        intros txt old Hold. cbn [textBefore] in Hold.
        rewrite Hk, Hnest, Hit in Hold. cbn zeta in Hold.
        destruct (kidsText (textBefore fuel nest m txt) n
                    (bool_decide (Node.type n = TObject)) (getChildrenKeys n))
          as [body|] eqn:Hbody; [|discriminate].
        simpl in Hold. injection Hold as <-.
        destruct (Htexts txt body Hbody) as (news & Hs2 & Hposb & Hw & Hstar).
        assert (Hopen : slen (if bool_decide (Node.type n = TObject)
                              then "{" else "[") = 1)
          by (by destruct (bool_decide (Node.type n = TObject))).
        assert (Hclose : slen (if bool_decide (Node.type n = TObject)
                               then "}" else "]") = 1)
          by (by destruct (bool_decide (Node.type n = TObject))).
        split_and!.
        { rewrite !slen_app, Hopen, Hclose. lia. }
        { apply (editsWithin_weaken _ (Node.offset n + 1) endpos); [lia..|done]. }
        intros pre post Hpre. unfold s. rewrite Hs2.
        replace (pre +:+ ((if bool_decide (Node.type n = TObject)
                           then "{" else "[") +:+ body
                          +:+ (if bool_decide (Node.type n = TObject)
                               then "}" else "]")) +:+ post)
          with ((pre +:+ (if bool_decide (Node.type n = TObject)
                          then "{" else "[")) +:+ body
                +:+ ((if bool_decide (Node.type n = TObject)
                      then "}" else "]") +:+ post))
          by (rewrite !append_assoc; reflexivity).
        rewrite Hstar by (rewrite slen_app, Hopen; lia).
        rewrite !append_assoc. reflexivity.
    + apply andb_prop in Hlaid as [Hnokeys Hlen].
      apply bool_decide_eq_true in Hnokeys. apply Z.eqb_eq in Hlen.
      exists (default EmptyString (getRawValue n)),
             (<[k := shiftStart a n]> m).
      split.
      * rewrite (stringifyNode_leaf _ _ _ n) by done. cbn zeta. rewrite Hp.
        do 3 f_equal.
        unfold computeAndSetBoundLength, shiftStart, Node.setLength,
          Node.setBoundLength, Node.setOffset, Node.setBoundOffset.
        simpl. destruct n; simpl in *. f_equal; lia.
      * exists []. rewrite Hnokeys. cbn [fixChildren]. rewrite Done_bind.
        cbn [store acc edits]. rewrite app_nil_r. split.
        { f_equal. f_equal; [|lia].
          rewrite <- (insert_as_alter _ k (shiftStart a n))
            by apply lookup_insert_eq.
          rewrite insert_insert_eq. f_equal. rewrite Z.sub_diag.
          apply growLength_zero. }
        intros txt old Hold. cbn [textBefore] in Hold.
        rewrite Hk, Hnest, Hit in Hold. injection Hold as <-.
        pose proof (slen_nonneg (default EmptyString (getRawValue n))).
        split_and!; [lia|simpl; lia|done].
Qed.

(** X20. On a tree laid out compactly, whose root starts at 0, the patch
    pass in compact mode leaves exactly the spans a [stringify] call from
    scratch would assign, however many nodes are pending: the node map
    after [stringifyNestNodes] is the node map after [stringify], and its
    root is as long as the text [stringify] returns. *)
Theorem stringifyNestNodes_reindexes (fuel : nat) (t : Tree)
    (options : StringifyOptions) (r : Node) :
  format options = false -> sort options = None -> pure options = false ->
  treeShaped fuel (nodeMap t) rootMarker ->
  laid fuel (nestNodeMap t) (nodeMap t) rootMarker = true ->
  root t = Some r -> Node.offset r = 0 -> Node.boundOffset r = 0 ->
  exists s t1,
    stringify fuel t options = Done (s, t1)
    /\ forall t2,
         stringifyNestNodes (S fuel) t options = Done t2 ->
         nodeMap t2 = nodeMap t1
         /\ exists r2, root t2 = Some r2 /\ Node.length r2 = slen s.
Proof.
  intros Hfmt Hsort Hp [Hc Hnd] Hlaid Hr Ho Hbo.
  destruct (fixOffset_restringify fuel (nestNodeMap t) options Hfmt Hsort Hp
              (nodeMap t) rootMarker r 0 [] 0%nat
              (getGenTabsFn (tabWidthOrDefault options)) Hc Hnd Hlaid Hr)
    as (s & m' & Hrun & es & Hfix & _).
  rewrite Ho, Hbo, !Z.add_0_l in Hrun.
  destruct (stringifyNode_root _ _ _ _ _ _ _ _ _ _ Hp Hrun)
    as (r' & Hr' & Hlen & _).
  assert (Hm : alter (Node.setLength (slen s)) rootMarker m' = m')
    by (apply (alter_fix _ _ r'); [done|by apply setLength_same]).
  exists s, (setText s (setNodeMap m' t)). split.
  - unfold stringify. by rewrite Hrun, Done_bind, Hm.
  - intros t2 Hpatch. unfold stringifyNestNodes in Hpatch.
    rewrite Hfix, Done_bind in Hpatch. cbn [store acc edits] in Hpatch.
    apply bind_Done in Hpatch as (txt & _ & Hfin). simpl in Hfin.
    injection Hfin as <-. split; [reflexivity|].
    exists r'. by split.
Qed.

(** X21. On a tree laid out compactly whose text is the text its spans
    stand for, with a container as its root that starts at 0, the patch
    pass in compact mode returns, and it leaves the very tree a
    [stringify] call from scratch leaves: the same node map and the same
    text, however many nodes are pending. *)
Theorem stringifyNestNodes_is_stringify (fuel : nat) (t : Tree)
    (options : StringifyOptions) (r : Node) :
  format options = false -> sort options = None -> pure options = false ->
  treeShaped fuel (nodeMap t) rootMarker ->
  laid fuel (nestNodeMap t) (nodeMap t) rootMarker = true ->
  textBefore fuel (nestNodeMap t) (nodeMap t) (text t) rootMarker
  = Some (text t) ->
  root t = Some r -> isIterable r = true ->
  Node.offset r = 0 -> Node.boundOffset r = 0 ->
  exists s t',
    stringify fuel t options = Done (s, t')
    /\ stringifyNestNodes (S fuel) t options = Done t'.
Proof.
  intros Hfmt Hsort Hp [Hc Hnd] Hlaid Htext Hr Hit Ho Hbo.
  destruct (fixOffset_restringify fuel (nestNodeMap t) options Hfmt Hsort Hp
              (nodeMap t) rootMarker r 0 [] 0%nat
              (getGenTabsFn (tabWidthOrDefault options)) Hc Hnd Hlaid Hr)
    as (s & m' & Hrun & es & Hfix & Htexts).
  destruct (Htexts _ _ Htext) as (Hlen & Hw & Hstar).
  rewrite Ho, Hbo, !Z.add_0_l in Hrun. rewrite Ho, Z.add_0_l, <- Hlen in Hw.
  specialize (Hstar EmptyString EmptyString (eq_sym Ho)).
  rewrite !append_nil_l, !append_nil_r in Hstar.
  destruct (stringifyNode_root _ _ _ _ _ _ _ _ _ _ Hp Hrun)
    as (r' & Hr' & Hlen' & _).
  assert (Hm : alter (Node.setLength (slen s)) rootMarker m' = m')
    by (apply (alter_fix _ _ r'); [done|by apply setLength_same]).
  destruct (stringifyNode_enclosed _ _ _ r _ _ _ _ _ _ _ Hr Hit Hrun)
    as (body & Hs & _).
  assert (Htrim : trim s = s).
  { rewrite Hs. destruct (bool_decide (Node.type r = TObject));
      by apply trim_enclosed. }
  exists s, (setText s (setNodeMap m' t)). split.
  - unfold stringify. by rewrite Hrun, Done_bind, Hm.
  - unfold stringifyNestNodes. rewrite Hfix, Done_bind. cbn [store acc edits app].
    rewrite (applyEdits_within _ _ 0 Hw), Done_bind, Hstar, Htrim. reflexivity.
Qed.

(** *** A compact pass lays the nodes out back to back *)

Lemma kidsLaid_node (m : gmap string Node) (n n' : Node) (isObject : bool) :
  Node.id n' = Node.id n ->
  forall keys pos, kidsLaid m n' isObject pos keys = kidsLaid m n isObject pos keys.
Proof.
  intros Hid. induction keys as [|key rest IH]; intros pos; [reflexivity|].
  cbn [kidsLaid]. unfold getChild, getChildId. rewrite Hid.
  destruct (m !! genChildId (Node.id n) key) as [c|]; [|reflexivity]. simpl.
  destruct (_ && _); [|reflexivity]. destruct rest; [reflexivity|apply IH].
Qed.

Lemma kidsText_node (rec : string -> option string) (n n' : Node)
    (isObject : bool) (keys : list string) :
  Node.id n' = Node.id n ->
  kidsText rec n' isObject keys = kidsText rec n isObject keys.
Proof.
  intros Hid. induction keys as [|key rest IH]; [reflexivity|].
  cbn [kidsText]. unfold getChildId. by rewrite Hid, IH.
Qed.

Lemma prepared_unsorted (options : StringifyOptions) (off boff : Z) (k : string)
    (n : Node) (m : gmap string Node) :
  pure options = false -> sort options = None ->
  prepared options off boff k n m
  = <[k := Node.setOffset off (Node.setBoundOffset boff n)]> m.
Proof.
  intros Hp Hs. unfold prepared. rewrite Hp, (keysOf_unsorted _ _ Hs).
  destruct keysShared; [|reflexivity].
  rewrite <- (insert_as_alter _ k _ (<[k:=_]> m)) by apply lookup_insert_eq.
  rewrite insert_insert_eq. f_equal.
Qed.

Lemma stringifyChildren_laid (f : nat) (nest : option (gmap string Node))
    (options : StringifyOptions) (m0 : gmap string Node) (n : Node)
    (lvl : nat) (gt : nat -> string) (off : Z) :
  sort options = None -> pure options = false ->
  (forall m k lvl off boff gt s m',
      leavesBare m -> complete f m k = true -> NoDup (reachList f m k) ->
      boff <= off ->
      stringifyNode f m k options lvl off boff gt = Done (s, m') ->
      laid f nest m' k = true
      /\ forall txt pre post,
           txt = pre +:+ s +:+ post -> slen pre = off ->
           textBefore f nest m' txt k = Some s) ->
  leavesBare m0 ->
  forall rest st M s2 M',
    (forall key, key ∈ rest -> complete f m0 (getChildId n key) = true) ->
    NoDup (concat ((fun key => reachList f m0 (getChildId n key)) <$> rest)) ->
    agreeOn nonSpan m0 M ->
    stringifyChildren
      (fun ck co cbo mm => stringifyNode f mm ck options (S lvl) co cbo gt)
      n false (bool_decide (Node.type n = TObject)) gt lvl off rest st M
    = Done (s2, M') ->
    kidsLaid M' n (bool_decide (Node.type n = TObject)) (off + slen st) rest
    = Some (off + slen s2)
    /\ forallb (fun key => laid f nest M' (getChildId n key)) rest = true
    /\ agreeOn nonSpan m0 M'
    /\ (forall j, (forall key, key ∈ rest ->
                     j ∉ reachList f m0 (getChildId n key)) ->
                  M' !! j = M !! j)
    /\ exists news,
         s2 = st +:+ news
         /\ forall Mf txt pre post,
              (forall key j, key ∈ rest ->
                 j ∈ reachList f m0 (getChildId n key) -> Mf !! j = M' !! j) ->
              txt = pre +:+ st +:+ news +:+ post -> slen pre = off ->
              kidsText (textBefore f nest Mf txt) n
                (bool_decide (Node.type n = TObject)) rest = Some news.
Proof.
  intros Hsort Hp Hrec Hbare.
  assert (Hkept : keysKept options) by (by right).
  induction rest as [|key rest IH]; intros st M s2 M' Hc Hnd Hag Hrun.
  - simpl in Hrun. injection Hrun as <- <-. split_and!; try done.
    exists EmptyString. by rewrite append_nil_r.
  - cbn [stringifyChildren] in Hrun.
    apply bind_Done in Hrun as ([sc M1] & Hchild & Hloop).
    rewrite fmap_cons in Hnd. simpl in Hnd.
    apply NoDup_app in Hnd as (Hndc & Hdisj & Hnd).
    set (cid := getChildId n key) in *.
    pose proof (slen_keyPart st key (bool_decide (Node.type n = TObject))) as Hw.
    set (s2k := if bool_decide (Node.type n = TObject)
                then st +:+ DQ +:+ key +:+ DQ +:+ ":" +:+ EmptyString
                else st) in *.
    assert (Hkw : 0 <= keyWidth (bool_decide (Node.type n = TObject)) key).
    { unfold keyWidth. pose proof (slen_nonneg key).
      destruct (bool_decide _); lia. }
    assert (Hcc : complete f M cid = true).
    { apply (complete_agree _ m0); [done|]. apply Hc. by left. }
    destruct (Hrec M cid (S lvl) (off + slen s2k) (off + slen st) gt sc M1)
      as [HlaidM1 HtextM1].
    { by apply (leavesBare_agree m0). }
    { exact Hcc. }
    { by rewrite (reachList_agree _ _ _ Hag). }
    { lia. }
    { exact Hchild. }
    destruct (stringifyNode_root _ _ _ _ _ _ _ _ _ _ Hp Hchild)
      as (c1 & Hc1 & Hlen & _ & Hoffs).
    destruct (Hoffs Hcc) as [Hco Hcbo].
    pose proof (stringifyNode_nonSpan _ _ _ _ _ _ _ _ _ _ Hkept Hchild) as Hag1.
    assert (HagM1 : agreeOn nonSpan m0 M1)
      by (eapply agreeOn_trans; [exact Hag|exact Hag1]).
    assert (Hframe : forall j, j ∉ reachList f m0 cid -> M1 !! j = M !! j).
    { intros j Hj.
      apply (stringifyNode_frame _ _ _ _ _ _ _ _ _ _ _ Hchild).
      intros Hr. apply Hj. rewrite <- (reachList_agree _ _ _ Hag).
      by apply reachable_reachList. }
    destruct (IH _ M1 s2 M' ltac:(intros key0 Hkey0; apply Hc; by right)
                Hnd HagM1 Hloop)
      as (Hkids & Hlaid & Hag' & Hfr & news & Hs2 & Htexts).
    assert (Hkeep : forall j, j ∈ reachList f m0 cid -> M' !! j = M1 !! j).
    { intros j Hj. apply Hfr. intros key0 Hkey0 Hj0.
      apply (Hdisj j Hj). apply elem_of_concat_fmap. by exists key0. }
    split_and!.
    + cbn [kidsLaid]. unfold getChild. fold cid.
      rewrite (Hkeep cid) by apply reachList_head. rewrite Hc1. simpl.
      rewrite Hcbo, Hco, Z.eqb_refl. simpl.
      replace (off + slen s2k =? off + slen st
                 + keyWidth (bool_decide (Node.type n = TObject)) key)
        with true by (symmetry; apply Z.eqb_eq; lia).
      destruct rest as [|key' rest'].
      * simpl in Hloop. injection Hloop as <- <-.
        rewrite Hlen, slen_app. fold s2k. f_equal. lia.
      * rewrite <- Hkids. f_equal.
        rewrite Hlen, !slen_app. fold s2k. change (slen ",") with 1. lia.
    + simpl. fold cid. rewrite Hlaid, andb_true_r.
      rewrite (laid_local _ _ M1); [exact HlaidM1|].
      intros j Hj. apply Hkeep. by rewrite <- (reachList_agree _ _ _ HagM1).
    + exact Hag'.
    + intros j Hj. rewrite Hfr.
      * apply Hframe. apply Hj. by left.
      * intros key0 Hkey0. apply Hj. by right.
    + set (isObject := bool_decide (Node.type n = TObject)) in *.
      set (sep := match rest with
                  | [] => EmptyString
                  | _ :: _ => ","
                  end).
      assert (Hs2k : s2k = st +:+ keyPart isObject key)
        by apply append_keyPart.
      assert (Hst' : match rest with
                     | [] => s2k +:+ sc
                     | _ :: _ => (s2k +:+ sc) +:+ ","
                     end = st +:+ keyPart isObject key +:+ sc +:+ sep).
      { rewrite Hs2k. unfold sep.
        destruct rest; rewrite ?append_assoc, ?append_nil_r; reflexivity. }
      rewrite Hst' in Hs2, Htexts.
      exists (keyPart isObject key +:+ sc +:+ sep +:+ news). split.
      { rewrite Hs2, !append_assoc. reflexivity. }
      intros Mf txt pre post HMf Htxt Hpre. cbn [kidsText]. fold cid.
      rewrite (textBefore_local _ _ M1 Mf).
      2:{ intros j Hj. rewrite (reachList_agree _ _ _ HagM1) in Hj.
          rewrite (HMf key j) by (done || by left). by apply Hkeep. }
      rewrite (HtextM1 txt (pre +:+ st +:+ keyPart isObject key)
                 (sep +:+ news +:+ post)).
      2:{ rewrite Htxt, !append_assoc. reflexivity. }
      2:{ rewrite !slen_app, slen_keyPart_only. lia. }
      simpl.
      rewrite (Htexts Mf txt pre post).
      2:{ intros key0 j Hkey0 Hj. apply (HMf key0); [by right|done]. }
      2:{ rewrite Htxt, !append_assoc. reflexivity. }
      2:{ exact Hpre. }
      simpl. unfold sep. by destruct rest.
Qed.

Lemma stringifyNode_laid (fuel : nat) (nest : option (gmap string Node))
    (options : StringifyOptions) :
  rawStable ->
  format options = false -> sort options = None -> pure options = false ->
  forall m k lvl off boff gt s m',
    leavesBare m -> complete fuel m k = true -> NoDup (reachList fuel m k) ->
    boff <= off ->
    stringifyNode fuel m k options lvl off boff gt = Done (s, m') ->
    laid fuel nest m' k = true
    /\ forall txt pre post,
         txt = pre +:+ s +:+ post -> slen pre = off ->
         textBefore fuel nest m' txt k = Some s.
Proof.
  intros Hraw Hfmt Hsort Hp.
  induction fuel as [|fuel IH];
    intros m k lvl off boff gt s m' Hbare Hc Hnd Hle Hrun; [discriminate|].
  destruct (complete_lookup _ _ _ Hc) as [n Hk].
  destruct (stringifyNode_root _ _ _ _ _ _ _ _ _ _ Hp Hrun)
    as (r & Hr & Hrlen & _ & Hroffs).
  destruct (Hroffs Hc) as [Hro _].
  assert (Hpending : isNest nest r = true ->
            forall txt pre post,
              txt = pre +:+ s +:+ post -> slen pre = off ->
              textBefore (S fuel) nest m' txt k = Some s).
  { intros Hnest txt pre post Htxt Hpre. cbn [textBefore].
    rewrite Hr, Hnest, Hro, Hrlen.
    pose proof (slen_nonneg pre). pose proof (slen_nonneg s).
    pose proof (slen_nonneg post).
    assert (Hin : (0 <=? off) && (0 <=? slen s) && (off + slen s <=? slen txt)
                  = true).
    { rewrite Htxt, !slen_app, !andb_true_iff, !Z.leb_le. lia. }
    rewrite Hin, jsSlice_inside by (rewrite ?Htxt, ?slen_app; lia).
    f_equal. rewrite Htxt, <- Hpre. unfold slen. rewrite !Nat2Z.id.
    apply substring_app_mid. }
  destruct (isIterable n) eqn:Hit.
  - rewrite (stringifyNode_container _ _ _ n) in Hrun by done.
    rewrite Hfmt, (keysOf_unsorted _ _ Hsort),
      (prepared_unsorted _ _ _ _ _ _ Hp Hsort) in Hrun.
    apply bind_Done in Hrun as ([s2 M'] & Hloop & Hfin).
    cbn zeta in Hfin. rewrite Hp in Hfin. injection Hfin as <- <-.
    rewrite (reachList_container _ _ _ n) in Hnd by done.
    apply NoDup_cons in Hnd as [Hnk Hnd].
    set (x := Node.setOffset off (Node.setBoundOffset boff n)) in *.
    assert (Hag : agreeOn nonSpan m (<[k := x]> m))
      by (by apply (agreeOn_insert _ _ _ n)).
    assert (Hnotk : forall key, key ∈ getChildrenKeys n ->
                      k ∉ reachList fuel m (getChildId n key)).
    { intros key Hkey Hin. apply Hnk, elem_of_concat_fmap. by exists key. }
    destruct (stringifyChildren_laid fuel nest options m n lvl gt off Hsort Hp
                IH Hbare (getChildrenKeys n) _ _ _ _
                ltac:(intros key Hkey; by apply (complete_child _ _ k n))
                Hnd Hag Hloop)
      as (Hkids & Hlaid & Hag' & Hfr & news & Hs2 & Htexts).
    assert (HMk : M' !! k = Some x).
    { rewrite Hfr by (intros key Hkey; by apply Hnotk).
      apply lookup_insert_eq. }
    set (s := s2 +:+ (if bool_decide (Node.type n = TObject) then "}" else "]"))
      in *.
    assert (Hs : slen s = slen s2 + 1).
    { unfold s. rewrite slen_app.
      by destruct (bool_decide (Node.type n = TObject)). }
    set (m' := alter (fun y => computeAndSetBoundLength
                                 (Node.setLength (slen s) y)) k M') in *.
    assert (Hm'k : m' !! k
                   = Some (computeAndSetBoundLength (Node.setLength (slen s) x))).
    { unfold m'. by rewrite lookup_alter_eq, HMk. }
    assert (Hoff : forall j, j <> k -> m' !! j = M' !! j)
      by (intros j Hj; unfold m'; by rewrite lookup_alter_ne).
    assert (Hsub : forall key j, key ∈ getChildrenKeys n ->
                     j ∈ reachList fuel m (getChildId n key) ->
                     m' !! j = M' !! j).
    { intros key j Hkey Hj. apply Hoff. intros ->. by apply (Hnotk key). }
    rewrite Hm'k in Hr. injection Hr as <-.
    split.
    + cbn [laid]. rewrite Hm'k.
      apply orb_true_iff. right. apply andb_true_iff. split.
      { unfold spanOkb, computeAndSetBoundLength, x. simpl.
        apply andb_true_iff. split; [apply Z.leb_le; lia|apply Z.eqb_eq; lia]. }
      replace (isIterable (computeAndSetBoundLength (Node.setLength (slen s) x)))
        with true by (symmetry; exact Hit).
      change (getChildrenKeys (computeAndSetBoundLength (Node.setLength (slen s) x)))
        with (getChildrenKeys n).
      change (Node.type (computeAndSetBoundLength (Node.setLength (slen s) x)))
        with (Node.type n).
      apply andb_true_iff. split.
      * rewrite <- Hlaid. apply forallb_ext_elem. intros key Hkey.
        change (getChildId (computeAndSetBoundLength (Node.setLength (slen s) x)) key)
          with (getChildId n key).
        apply laid_local. intros j Hj. apply (Hsub key); [done|].
        by rewrite <- (reachList_agree _ _ _ Hag').
      * rewrite (kidsLaid_node _ n) by reflexivity.
        rewrite (kidsLaid_local M').
        2:{ intros key Hkey. apply (Hsub key); [done|apply reachList_head]. }
        replace (Node.offset (computeAndSetBoundLength (Node.setLength (slen s) x)) + 1)
          with (off + slen (if bool_decide (Node.type n = TObject)
                            then "{" else "[")).
        2:{ simpl. by destruct (bool_decide (Node.type n = TObject)). }
        rewrite Hkids. apply Z.eqb_eq. simpl. lia.
    + destruct (isNest nest (computeAndSetBoundLength (Node.setLength (slen s) x)))
        eqn:Hnest; [by apply Hpending|].
      intros txt pre post Htxt Hpre. cbn [textBefore].
      rewrite Hm'k, Hnest.
      replace (isIterable (computeAndSetBoundLength (Node.setLength (slen s) x)))
        with true by (symmetry; exact Hit).
      cbn zeta.
      change (getChildrenKeys (computeAndSetBoundLength (Node.setLength (slen s) x)))
        with (getChildrenKeys n).
      change (Node.type (computeAndSetBoundLength (Node.setLength (slen s) x)))
        with (Node.type n).
      rewrite (kidsText_node _ n) by reflexivity.
      rewrite (Htexts m' txt pre
                 ((if bool_decide (Node.type n = TObject) then "}" else "]")
                  +:+ post)).
      2:{ exact Hsub. }
      2:{ rewrite Htxt. unfold s. rewrite Hs2, !append_assoc. reflexivity. }
      2:{ exact Hpre. }
      simpl. unfold s. rewrite Hs2, !append_assoc. reflexivity.
  - rewrite (stringifyNode_leaf _ _ _ n) in Hrun by done.
    cbn zeta in Hrun. rewrite Hp in Hrun. injection Hrun as <- <-.
    rewrite lookup_insert_eq in Hr. injection Hr as <-.
    match goal with |- context [<[k := ?y]> m] => set (n' := y) in * end.
    assert (Hraw' : getRawValue n' = getRawValue n)
      by (by apply Hraw).
    split.
    + cbn [laid]. rewrite lookup_insert_eq.
      apply orb_true_iff. right. apply andb_true_iff. split.
      { unfold spanOkb, n', computeAndSetBoundLength. simpl.
        apply andb_true_iff. split; [apply Z.leb_le; lia|apply Z.eqb_eq; lia]. }
      replace (isIterable n') with false by (symmetry; exact Hit).
      change (getChildrenKeys n') with (getChildrenKeys n).
      rewrite Hraw'.
      apply andb_true_iff. split.
      * apply bool_decide_eq_true. by apply (Hbare k n).
      * by apply Z.eqb_eq.
    + destruct (isNest nest n') eqn:Hnest; [by apply Hpending|].
      intros txt pre post Htxt Hpre. cbn [textBefore].
      rewrite lookup_insert_eq, Hnest.
      replace (isIterable n') with false by (symmetry; exact Hit).
      by rewrite Hraw'.
Qed.

(** X22. A compact [stringify] call on a tree lays the nodes out back to
    back: the root starts at 0 and is as long as the text, a leaf is as
    long as its raw value, the first child of a container starts right
    behind the opening bracket, each further child one character (the
    comma) behind the end of the one before, the value of a child behind
    its quoted key and the colon, and the container ends one character
    behind its last child.  The text is the text these spans stand for,
    whichever nodes are marked pending. *)
Theorem stringify_compact_layout (fuel : nat) (t t' : Tree)
    (options : StringifyOptions) (s : string)
    (nest : option (gmap string Node)) :
  rawStable ->
  format options = false -> sort options = None -> pure options = false ->
  leavesBare (nodeMap t) -> treeShaped fuel (nodeMap t) rootMarker ->
  stringify fuel t options = Done (s, t') ->
  laid fuel nest (nodeMap t') rootMarker = true
  /\ textBefore fuel nest (nodeMap t') (text t') rootMarker = Some (text t')
  /\ treeShaped fuel (nodeMap t') rootMarker
  /\ exists r, root t' = Some r /\ Node.offset r = 0 /\ Node.boundOffset r = 0
               /\ Node.length r = slen (text t').
Proof.
  intros Hraw Hfmt Hsort Hp Hbare [Hc Hnd] Hrun.
  destruct (stringify_inv _ _ _ _ _ Hp Hrun) as (Hs & Htext & _).
  destruct (stringifyNode_laid fuel nest options Hraw Hfmt Hsort Hp _ _ _ _ _ _
              _ _ Hbare Hc Hnd (Z.le_refl 0) Hs) as [Hlaid Htb].
  assert (Hag : agreeOn nonSpan (nodeMap t) (nodeMap t'))
    by (eapply stringifyNode_nonSpan; [by right|exact Hs]).
  destruct (stringifyNode_root _ _ _ _ _ _ _ _ _ _ Hp Hs)
    as (r & Hr & Hlen & _ & Hoffs).
  destruct (Hoffs Hc) as [Ho Hbo].
  split_and!.
  - exact Hlaid.
  - rewrite Htext. apply (Htb s EmptyString EmptyString); [|done].
    by rewrite append_nil_l, append_nil_r.
  - split; [by apply (complete_agree _ (nodeMap t))|].
    by rewrite (reachList_agree _ _ _ Hag).
  - exists r. by rewrite Htext.
Qed.

Lemma walk_complete (fuel : nat) (m : gmap string Node) :
  forall k, complete fuel m k = true -> is_Some (walk fuel None m k).
Proof.
  induction fuel as [|fuel IH]; intros k Hc; [discriminate|].
  simpl in *. destruct (m !! k) as [n|]; [|discriminate].
  assert (Hkids : is_Some (mapM (fun key => walk fuel None m (getChildId n key))
                             (getChildrenKeys n))).
  { apply mapM_is_Some. apply Forall_forall. intros key Hkey. apply IH.
    rewrite forallb_forall in Hc. apply Hc. by apply list_elem_of_In. }
  destruct Hkids as [kids ->]. by eexists.
Qed.

(** X23. Marking nodes pending without changing anything and running the
    patch pass is the identity: on the tree a compact [stringify] call on
    a tree with a container as its root has left, [stringifyNestNodes]
    returns that very tree, text and spans, whichever nodes are marked
    pending. *)
Theorem stringifyNestNodes_unchanged (fuel : nat) (t t' : Tree)
    (options : StringifyOptions) (s : string) (r : Node)
    (nest : option (gmap string Node)) :
  rawStable ->
  format options = false -> sort options = None -> pure options = false ->
  leavesBare (nodeMap t) -> treeShaped fuel (nodeMap t) rootMarker ->
  root t = Some r -> isIterable r = true ->
  stringify fuel t options = Done (s, t') ->
  stringifyNestNodes (S fuel) (setNestNodeMap nest t') options
  = Done (setNestNodeMap nest t').
Proof.
  intros Hraw Hfmt Hsort Hp Hbare [Hc Hnd] Hroot Hit Hrun.
  destruct (stringify_inv _ _ _ _ _ Hp Hrun) as (Hs & Htext & _).
  assert (Hag : agreeOn nonSpan (nodeMap t) (nodeMap t'))
    by (eapply stringifyNode_nonSpan; [by right|exact Hs]).
  assert (Hc' : complete fuel (nodeMap t') rootMarker = true)
    by (by apply (complete_agree _ (nodeMap t))).
  assert (Hnd' : NoDup (reachList fuel (nodeMap t') rootMarker))
    by (by rewrite (reachList_agree _ _ _ Hag)).
  destruct (stringifyNode_root _ _ _ _ _ _ _ _ _ _ Hp Hs)
    as (r' & Hr' & Hlen & _ & Hoffs).
  destruct (Hoffs Hc) as [Ho Hbo].
  assert (Hlaid : forall ne,
            laid fuel ne (nodeMap t') rootMarker = true
            /\ textBefore fuel ne (nodeMap t') s rootMarker = Some s).
  { intros ne.
    destruct (stringifyNode_laid fuel ne options Hraw Hfmt Hsort Hp _ _ _ _ _ _
                _ _ Hbare Hc Hnd (Z.le_refl 0) Hs) as [Hl Htb].
    split; [exact Hl|]. apply (Htb s EmptyString EmptyString); [|done].
    by rewrite append_nil_l, append_nil_r. }
  (* a second pass from scratch changes nothing *)
  destruct (fixOffset_restringify fuel None options Hfmt Hsort Hp
              (nodeMap t') rootMarker r' 0 [] 0%nat
              (getGenTabsFn (tabWidthOrDefault options)) Hc' Hnd'
              (proj1 (Hlaid None)) Hr')
    as (s2 & m2 & Hrun2 & es0 & Hfix0 & Htexts0).
  destruct (walk_complete _ _ _ Hc') as [L HL].
  rewrite (fixOffset_shift fuel None options rootMarker (nodeMap t') 0 [] L HL)
    in Hfix0 by (by intros j n _ _).
  rewrite shiftAll_zero in Hfix0. injection Hfix0 as Hm2 _ Hes0.
  destruct es0; [|discriminate]. subst m2.
  destruct (Htexts0 _ _ (proj2 (Hlaid None))) as (_ & _ & Hstar0).
  specialize (Hstar0 EmptyString EmptyString (eq_sym Ho)).
  rewrite !append_nil_l, !append_nil_r in Hstar0. simpl in Hstar0. subst s2.
  (* the patch pass comes to the same *)
  destruct (fixOffset_restringify fuel nest options Hfmt Hsort Hp
              (nodeMap t') rootMarker r' 0 [] 0%nat
              (getGenTabsFn (tabWidthOrDefault options)) Hc' Hnd'
              (proj1 (Hlaid nest)) Hr')
    as (s3 & m3 & Hrun3 & es & Hfix & Htexts).
  rewrite Hrun2 in Hrun3. injection Hrun3 as <- <-.
  destruct (Htexts _ _ (proj2 (Hlaid nest))) as (Hl & Hw & Hstar).
  rewrite Ho, Z.add_0_l, <- Hl in Hw.
  specialize (Hstar EmptyString EmptyString (eq_sym Ho)).
  rewrite !append_nil_l, !append_nil_r in Hstar.
  assert (Hit' : isIterable r' = true).
  { pose proof (Hag rootMarker) as Hn. unfold root, node in Hroot.
    rewrite Hroot, Hr' in Hn. simpl in Hn. injection Hn as _ Hty _ _.
    unfold isIterable. by rewrite Hty. }
  rewrite Ho, Hbo, !Z.add_0_l in Hrun2.
  destruct (stringifyNode_enclosed _ _ _ r' _ _ _ _ _ _ _ Hr' Hit' Hrun2)
    as (body & Hbody & _).
  assert (Htrim : trim s = s).
  { rewrite Hbody. destruct (bool_decide (Node.type r' = TObject));
      by apply trim_enclosed. }
  unfold stringifyNestNodes. cbn [nestNodeMap nodeMap text setNestNodeMap].
  rewrite Hfix, Done_bind. cbn [store acc edits app]. rewrite Htext.
  rewrite (applyEdits_within _ _ 0 Hw), Done_bind, Hstar, Htrim.
  f_equal. destruct t'; simpl in *. by subst.
Qed.

End ReindexFacts.

Section CanonicalFacts.

Context `{Helpers}.

(** *** The sorted text does not depend on the stored key order *)

Lemma sortKeys_Permutation_eq (o : SortOrder) (l1 l2 : list string) :
  l1 ≡ₚ l2 -> sortKeys (Some o) l1 = sortKeys (Some o) l2.
Proof.
  intros Hperm.
  assert (Heq : merge_sort String.le l1 = merge_sort String.le l2).
  { apply (Sorted_unique String.le); try apply Sorted_merge_sort; try apply _.
    by rewrite !merge_sort_Permutation. }
  destruct o; simpl; by rewrite Heq.
Qed.

Lemma keysOf_reordered (options : StringifyOptions) (n1 n2 : Node) :
  sort options <> None -> reorderedNode n1 n2 ->
  keysOf options n1 = keysOf options n2.
Proof.
  intros Hsort (_ & Hty & _ & Hkeys). unfold keysOf, getChildrenKeys.
  rewrite <- Hty. destruct (bool_decide (Node.type n1 = TObject)).
  - destruct (sort options) as [o|]; [|done]. by apply sortKeys_Permutation_eq.
  - exact Hkeys.
Qed.

Lemma reorderedNode_refl (n : Node) : reorderedNode n n.
Proof. split_and!; try done. by destruct (bool_decide _). Qed.

Lemma reordered_refl (m : gmap string Node) : reordered m m.
Proof. intros j. destruct (m !! j); constructor. apply reorderedNode_refl. Qed.

Lemma reordered_lookup (m1 m2 : gmap string Node) (k : string) (n1 : Node) :
  reordered m1 m2 -> m1 !! k = Some n1 ->
  exists n2, m2 !! k = Some n2 /\ reorderedNode n1 n2.
Proof.
  intros Hr Hk. specialize (Hr k). rewrite Hk in Hr.
  inversion Hr as [? n2 Hn|]; subst. by exists n2.
Qed.

Lemma reordered_update (m1 m2 : gmap string Node) (k : string) (x1 x2 : Node) :
  reordered m1 m2 -> reorderedNode x1 x2 ->
  reordered (<[k := x1]> m1) (<[k := x2]> m2).
Proof.
  intros Hr Hx j. destruct (decide (j = k)) as [->|Hne].
  - rewrite !lookup_insert_eq. by constructor.
  - rewrite !lookup_insert_ne by done. apply Hr.
Qed.

Lemma reordered_alter (m1 m2 : gmap string Node) (k : string)
    (f1 f2 : Node -> Node) :
  reordered m1 m2 ->
  (forall x1 x2, reorderedNode x1 x2 -> reorderedNode (f1 x1) (f2 x2)) ->
  reordered (alter f1 k m1) (alter f2 k m2).
Proof.
  intros Hr Hf j. destruct (decide (j = k)) as [->|Hne].
  - rewrite !lookup_alter_eq. specialize (Hr k).
    destruct Hr; constructor. by apply Hf.
  - rewrite !lookup_alter_ne by done. apply Hr.
Qed.

Lemma prepared_reordered (options : StringifyOptions)
    (off1 boff1 off2 boff2 : Z) (k : string) (n1 n2 : Node)
    (m1 m2 : gmap string Node) :
  sort options <> None -> reordered m1 m2 -> reorderedNode n1 n2 ->
  reordered (prepared options off1 boff1 k n1 m1)
            (prepared options off2 boff2 k n2 m2).
Proof.
  intros Hsort Hr Hn. unfold prepared.
  rewrite (keysOf_reordered options n1 n2 Hsort Hn).
  assert (Hm0 : reordered
                  (if pure options then m1
                   else <[k := Node.setOffset off1 (Node.setBoundOffset boff1 n1)]> m1)
                  (if pure options then m2
                   else <[k := Node.setOffset off2 (Node.setBoundOffset boff2 n2)]> m2)).
  { destruct (pure options); [done|]. apply reordered_update; [done|].
    exact Hn. }
  destruct keysShared; [|done].
  apply reordered_alter; [done|]. intros x1 x2 (Hid & Hty & Hrv & _).
  split_and!; try done. simpl. by destruct (bool_decide _).
Qed.

Lemma stringifyChildren_sim (R : gmap string Node -> gmap string Node -> Prop)
    (rec1 rec2 : string -> Z -> Z -> gmap string Node -> res (string * gmap string Node))
    (n1 n2 : Node) (isFormat isObject : bool) (gt : nat -> string)
    (lvl : nat) (off1 off2 : Z) :
  Node.id n1 = Node.id n2 ->
  (forall ck co1 cbo1 co2 cbo2 mm1 mm2 c mm1',
      R mm1 mm2 ->
      rec1 ck co1 cbo1 mm1 = Done (c, mm1') ->
      exists mm2', rec2 ck co2 cbo2 mm2 = Done (c, mm2') /\ R mm1' mm2') ->
  forall keys st mm1 mm2 s' mm1',
    R mm1 mm2 ->
    stringifyChildren rec1 n1 isFormat isObject gt lvl off1 keys st mm1
      = Done (s', mm1') ->
    exists mm2',
      stringifyChildren rec2 n2 isFormat isObject gt lvl off2 keys st mm2
        = Done (s', mm2')
      /\ R mm1' mm2'.
Proof.
  intros Hid Hrec. induction keys as [|key rest IH];
    intros st mm1 mm2 s' mm1' HR Hrun.
  - simpl in Hrun. injection Hrun as <- <-. by exists mm2.
  - cbn [stringifyChildren] in *.
    apply bind_Done in Hrun as ([c ma] & Hchild & Hrest).
    unfold getChildId in *. rewrite <- Hid.
    destruct (Hrec _ _ _
                (off2 + slen (if isObject
                              then (if isFormat
                                    then st +:+ LF +:+ gt (S lvl) else st)
                                   +:+ DQ +:+ key +:+ DQ +:+ ":"
                                   +:+ (if isFormat then " " else EmptyString)
                              else if isFormat
                                   then st +:+ LF +:+ gt (S lvl) else st))
                (off2 + slen (if isFormat then st +:+ LF +:+ gt (S lvl) else st))
                _ mm2 _ _ HR Hchild) as (mb & Hchild2 & HR').
    rewrite Hchild2, Done_bind. by apply (IH _ ma).
Qed.

Lemma stringifyNode_reordered (fuel : nat) (options : StringifyOptions) :
  rawStable -> sort options <> None ->
  forall m1 m2 k lvl off1 boff1 off2 boff2 gt s m1',
    reordered m1 m2 ->
    stringifyNode fuel m1 k options lvl off1 boff1 gt = Done (s, m1') ->
    exists m2',
      stringifyNode fuel m2 k options lvl off2 boff2 gt = Done (s, m2')
      /\ reordered m1' m2'.
Proof.
  intros Hraw Hsort. induction fuel as [|fuel IH];
    intros m1 m2 k lvl off1 boff1 off2 boff2 gt s m1' Hr Hrun; [discriminate|].
  destruct (m1 !! k) as [n1|] eqn:Hk1; [|simpl in Hrun; by rewrite Hk1 in Hrun].
  destruct (reordered_lookup _ _ _ _ Hr Hk1) as (n2 & Hk2 & Hn).
  pose proof Hn as (Hid & Hty & Hrv & Hkeys).
  assert (Hit2 : isIterable n2 = isIterable n1)
    by (unfold isIterable; by rewrite Hty).
  destruct (isIterable n1) eqn:Hit.
  - rewrite (stringifyNode_container _ _ _ n1) in Hrun by done.
    apply bind_Done in Hrun as ([s2 ma] & Hloop & Hfin).
    rewrite (stringifyNode_container _ _ _ n2) by done.
    rewrite <- Hty, <- (keysOf_reordered options n1 n2 Hsort Hn).
    destruct (stringifyChildren_sim reordered
                (fun ck co cbo mm =>
                   stringifyNode fuel mm ck options (S lvl) co cbo gt)
                (fun ck co cbo mm =>
                   stringifyNode fuel mm ck options (S lvl) co cbo gt)
                n1 n2 (format options) (bool_decide (Node.type n1 = TObject))
                gt lvl off1 off2 Hid
                ltac:(intros ck co1 cbo1 co2 cbo2 mm1 mm2 c mm1' HR Hc;
                      by apply (IH mm1 mm2 ck (S lvl) co1 cbo1))
                _ _ _ (prepared options off2 boff2 k n2 m2) _ _
                (prepared_reordered options _ _ _ _ k n1 n2 m1 m2 Hsort Hr Hn)
                Hloop) as (mb & Hloop2 & HR).
    rewrite Hloop2, Done_bind. cbn zeta in *.
    destruct (pure options); injection Hfin as <- <-.
    + by exists mb.
    + eexists. split; [reflexivity|]. apply reordered_alter; [done|].
      intros x1 x2 (Hi & Ht & Hv & Hk). by split_and!.
  - rewrite (stringifyNode_leaf _ _ _ n1) in Hrun by done.
    rewrite (stringifyNode_leaf _ _ _ n2) by done. cbn zeta in *.
    rewrite <- (Hraw n1 n2 Hid Hty Hrv).
    destruct (pure options); injection Hrun as <- <-.
    + by exists m2.
    + eexists. split; [reflexivity|]. apply reordered_update; [done|].
      by split_and!.
Qed.

(** X24. With a sort order, the text [stringify] returns does not depend
    on the order in which the keys of objects are stored: on two trees
    that hold the same value, the keys of their objects stored in
    whatever order, it returns the same text, and it leaves two trees
    that again differ in that order only. *)
Theorem stringify_sorted_canonical (fuel : nat) (t1 t2 t1' : Tree)
    (options : StringifyOptions) (s : string) :
  rawStable -> sort options <> None ->
  reordered (nodeMap t1) (nodeMap t2) ->
  stringify fuel t1 options = Done (s, t1') ->
  exists t2',
    stringify fuel t2 options = Done (s, t2')
    /\ text t2' = text t1'
    /\ reordered (nodeMap t1') (nodeMap t2').
Proof.
  intros Hraw Hsort Hr Hrun. unfold stringify in *.
  apply bind_Done in Hrun as ([s1 m1] & Hs & Hfin). injection Hfin as <- <-.
  destruct (stringifyNode_reordered fuel options Hraw Hsort _ _ _ _ _ _ 0 0 _ _ _
              Hr Hs) as (m2 & Hs2 & Hr').
  rewrite Hs2, Done_bind. eexists. split; [reflexivity|]. split; [done|].
  cbn [nodeMap setText setNodeMap]. apply reordered_alter; [done|].
  intros x1 x2 (Hi & Ht & Hv & Hk). by split_and!.
Qed.

Lemma reorderedNodeb_spec (n n' : Node) :
  reorderedNodeb n n' = true -> reorderedNode n n'.
Proof.
  unfold reorderedNodeb. rewrite !andb_true_iff, !bool_decide_eq_true.
  intros [[[Hid Hty] Hrv] Hkeys]. split_and!; try done.
  destruct (bool_decide (Node.type n = TObject)).
  - apply bool_decide_eq_true in Hkeys.
    by rewrite <- (merge_sort_Permutation String.le (Node.childrenKeys n)),
      Hkeys, merge_sort_Permutation.
  - by apply bool_decide_eq_true in Hkeys.
Qed.

Lemma reorderedb_spec (m m' : gmap string Node) :
  reorderedb m m' = true -> reordered m m'.
Proof.
  unfold reorderedb. rewrite andb_true_iff, !forallb_forall.
  intros [Hfwd Hbwd] j.
  destruct (m !! j) as [n|] eqn:Hj.
  - specialize (Hfwd (j, n)). simpl in Hfwd.
    destruct (m' !! j) as [n'|].
    + constructor. apply reorderedNodeb_spec, Hfwd.
      apply list_elem_of_In. by apply elem_of_map_to_list.
    + discriminate Hfwd. apply list_elem_of_In. by apply elem_of_map_to_list.
  - destruct (m' !! j) as [n'|] eqn:Hj'; [|constructor].
    specialize (Hbwd (j, n')). simpl in Hbwd.
    rewrite bool_decide_eq_true, Hj in Hbwd.
    destruct Hbwd as [? ?]; [|done].
    apply list_elem_of_In. by apply elem_of_map_to_list.
Qed.

End CanonicalFacts.

Section EquivalenceFacts.

Context `{Helpers}.

(** *** Structural equality is transitive *)

Lemma doIsEquals_trans (fuel : nat) :
  forall m1 m2 m3 j1 j2 n1 n2 n3,
    keysExact m1 -> keysExact m2 ->
    m1 !! j1 = Some n1 -> m2 !! j2 = Some n2 ->
    doIsEquals fuel m1 m2 n1 n2 = Done true ->
    doIsEquals fuel m2 m3 n2 n3 = Done true ->
    doIsEquals fuel m1 m3 n1 n3 = Done true.
Proof.
  induction fuel as [|fuel IH];
    intros m1 m2 m3 j1 j2 n1 n2 n3 Hx1 Hx2 Hj1 Hj2 H12 H23; [discriminate|].
  apply doIsEquals_true in H12 as (Hty12 & Hraw12 & Hkids12).
  apply doIsEquals_true in H23 as (Hty23 & Hraw23 & Hkids23).
  apply doIsEquals_true. split_and!.
  - congruence.
  - intros He1 He3.
    assert (He2 : getChildrenKeys n2 = []).
    { destruct (getChildrenKeys n2) as [|key l] eqn:Hk2; [done|].
      destruct (Hkids12 key) as (c1 & _ & Hc1 & _); [right; by left|].
      pose proof (Hx1 j1 n1 key Hj1 (mk_is_Some _ _ Hc1)) as Hin.
      rewrite He1 in Hin. by apply elem_of_nil in Hin. }
    rewrite (Hraw12 He1 He2). by apply Hraw23.
  - intros key Hkey.
    assert (Hin2 : key ∈ getChildrenKeys n2).
    { destruct Hkey as [Hin|Hin].
      - destruct (Hkids12 key) as (_ & c2 & _ & Hc2 & _); [by left|].
        exact (Hx2 j2 n2 key Hj2 (mk_is_Some _ _ Hc2)).
      - destruct (Hkids23 key) as (c2 & _ & Hc2 & _); [by right|].
        exact (Hx2 j2 n2 key Hj2 (mk_is_Some _ _ Hc2)). }
    destruct (Hkids12 key) as (c1 & c2 & Hc1 & Hc2 & He12); [by right|].
    destruct (Hkids23 key) as (c2' & c3 & Hc2' & Hc3 & He23); [by left|].
    rewrite Hc2 in Hc2'. injection Hc2' as <-.
    exists c1, c3. split_and!; [done..|].
    by apply (IH m1 m2 m3 (getChildId n1 key) (getChildId n2 key) c1 c2 c3).
Qed.

(** X25. [isEquals] is transitive on trees that list the children they
    hold: if a first tree equals a second one whose nodes, like its own,
    list every child the node map holds for them, and the second equals a
    third, the first equals the third. *)
Theorem isEquals_transitive (fuel : nat) (t1 t2 t3 : Tree) :
  keysExact (nodeMap t1) -> keysExact (nodeMap t2) ->
  isEquals fuel t1 t2 = Done true -> isEquals fuel t2 t3 = Done true ->
  isEquals fuel t1 t3 = Done true.
Proof.
  intros Hx1 Hx2. unfold isEquals, root, node.
  destruct (nodeMap t1 !! rootMarker) as [r1|] eqn:Hr1; [|discriminate].
  destruct (nodeMap t2 !! rootMarker) as [r2|] eqn:Hr2; [|discriminate].
  destruct (nodeMap t3 !! rootMarker) as [r3|]; [|discriminate].
  by apply (doIsEquals_trans fuel _ (nodeMap t2) _ rootMarker rootMarker).
Qed.

End EquivalenceFacts.

Section CheckFacts.

Context `{Helpers}.

(** *** More executable checks *)

Lemma leavesBareb_spec (m : gmap string Node) :
  leavesBareb m = true -> leavesBare m.
Proof.
  unfold leavesBareb. rewrite forallb_forall. intros Hall j n Hj Hit.
  assert (Hin : In (j, n) (map_to_list m))
    by (apply list_elem_of_In; by apply elem_of_map_to_list).
  apply Hall in Hin. simpl in Hin. rewrite Hit in Hin.
  by apply bool_decide_eq_true in Hin.
Qed.

Lemma treeShapedb_spec (fuel : nat) (m : gmap string Node) (k : string) :
  treeShapedb fuel m k = true -> treeShaped fuel m k.
Proof.
  unfold treeShapedb, treeShaped. rewrite andb_true_iff, bool_decide_eq_true.
  done.
Qed.

Lemma spanningb_spec (fuel : nat) (m : gmap string Node) (k : string) :
  spanningb fuel m k = true -> spanning fuel m k.
Proof.
  unfold spanningb. rewrite forallb_forall. intros Hall j [n Hn].
  specialize (Hall (j, n)). rewrite bool_decide_eq_true in Hall.
  apply Hall. apply list_elem_of_In. by apply elem_of_map_to_list.
Qed.

End CheckFacts.

(** ** The further properties at the sample trees *)

Section SampleBehaviour.

#[local] Existing Instance Sample.helpers.

Import Sample.

Lemma sample_rawStable : rawStable.
Proof. intros n n' _ _ Hraw. exact Hraw. Qed.

Lemma toObject_fromObject_witness :
  toObject (fromObject bareObject None) = bareObject.
Proof.
  apply (proj1 (toObject_fromObject bareObject None)). split; eexists; reflexivity.
Defined.

Lemma stringifyNode_compact_ignores_indent_witness :
  stringifyNode 100 (nodeMap (unindexed mixed)) "root" compact 0 0 0 (tabs compact)
  = stringifyNode 100 (nodeMap (unindexed mixed)) "root" compact 3 0 0
      (getGenTabsFn 8)
  /\ stringify 100 (unindexed mixed) (withTabWidth (Some 8%nat) compact)
     = stringify 100 (unindexed mixed) compact.
Proof.
  destruct (stringifyNode_compact_ignores_indent 100 compact) as [Hnode Htree].
  - reflexivity.
  - split; [apply Hnode|apply Htree].
Defined.

Lemma stringifyNode_needs_children_witness :
  is_Some (nodeMap (unindexed mixed) !! "root/a/x").
Proof.
  apply (stringifyNode_needs_children 100 (nodeMap (unindexed mixed)) "root"
           compact 0 0 0 (tabs compact)
           (stringifiedNode (nodeMap (unindexed mixed)) "root" compact 0 0).1
           (stringifiedNode (nodeMap (unindexed mixed)) "root" compact 0 0).2).
  - vm_compute. reflexivity.
  - apply (reachList_reachable 10). apply (bool_decide_unpack _).
    vm_compute. exact I.
Defined.

Lemma stringifyNode_brackets_witness :
  (stringifiedNode (nodeMap (unindexed holed)) "root/1" pretty 0 0).1 = EmptyString
  /\ exists body,
       (stringifiedNode (nodeMap (unindexed mixed)) "root/b" pretty 0 0).1
       = "[" +:+ body +:+ "]".
Proof.
  split.
  - apply (proj1 (stringifyNode_brackets 100 (nodeMap (unindexed holed)) "root/1"
                    (nodeAt (nodeMap (unindexed holed)) "root/1") pretty 0 0 0
                    (tabs pretty) _
                    (stringifiedNode (nodeMap (unindexed holed)) "root/1" pretty 0 0).2
                    ltac:(vm_compute; reflexivity) ltac:(vm_compute; reflexivity))).
    reflexivity.
  - destruct (proj2 (stringifyNode_brackets 100 (nodeMap (unindexed mixed)) "root/b"
                       (nodeAt (nodeMap (unindexed mixed)) "root/b") pretty 0 0 0
                       (tabs pretty) _
                       (stringifiedNode (nodeMap (unindexed mixed)) "root/b" pretty 0 0).2
                       ltac:(vm_compute; reflexivity) ltac:(vm_compute; reflexivity))
                eq_refl) as (body & Hbody & _).
    exists body. exact Hbody.
Defined.

Lemma stringifyNestNodes_keeps_shape_witness :
  sameShape (nodeMap patched) (nodeMap (patchedBy patched compact))
  /\ nestNodeMap (patchedBy patched compact) = nestNodeMap patched
  /\ valid (patchedBy patched compact) = valid patched.
Proof.
  destruct (stringifyNestNodes_keeps_shape 11 patched (patchedBy patched compact)
              compact) as (H1 & _ & H3 & _ & _ & H6).
  - vm_compute. reflexivity.
  - split_and!; [exact H1|exact H3|exact H6].
Defined.

Lemma stringify_keeps_shape_witness :
  text mixedPretty = (stringified (unindexed mixed) pretty).1
  /\ sameShape (nodeMap (unindexed mixed)) (nodeMap mixedPretty)
  /\ valid mixedPretty = valid (unindexed mixed).
Proof.
  destruct (stringify_keeps_shape 100 (unindexed mixed) mixedPretty pretty
              (stringified (unindexed mixed) pretty).1)
    as (H1 & H2 & _ & _ & _ & _ & H7).
  - vm_compute. reflexivity.
  - split_and!; [exact H1|exact H2|exact H7].
Defined.

Lemma isEquals_reflexive_witness :
  isEquals 10 (treeOf mixed) (treeOf mixed) = Done true.
Proof. apply isEquals_reflexive. vm_compute. reflexivity. Defined.

Lemma isEquals_symmetric_witness :
  isEquals 100 (treeOf ab) (treeOf a1) = isEquals 100 (treeOf a1) (treeOf ab).
Proof.
  apply (proj2 (isEquals_symmetric 100 (treeOf ab) (treeOf a1))
           sampleRank sampleRank).
  - apply sample_ranked. vm_compute. reflexivity.
  - apply sample_ranked. vm_compute. reflexivity.
  - intros r Hr. vm_compute in Hr. injection Hr as <-. vm_compute. lia.
  - intros r Hr. vm_compute in Hr. injection Hr as <-. vm_compute. lia.
Defined.

Lemma findNodeAtOffset_sound_witness :
  (exists found, findNodeAtOffset 10 (treeOf mixed) 23 = Done found)
  /\ inBound 23 (nodeAt (nodeMap (treeOf mixed)) "root/a/x") = true.
Proof.
  split.
  - apply (proj1 (findNodeAtOffset_sound 10 (treeOf mixed) 23)).
    vm_compute. reflexivity.
  - apply (proj2 (findNodeAtOffset_sound 10 (treeOf mixed) 23)
             (nodeAt (nodeMap (treeOf mixed)) "root/a/x") HitValue).
    vm_compute. reflexivity.
Defined.

Lemma stringifyNode_text_independent_witness :
  exists m'',
    stringifyNode 100 (nodeMap (unindexed mixed)) "root" prettyPurely 0 7 3
      (tabs pretty)
    = Done ((stringifiedNode (nodeMap (unindexed mixed)) "root" pretty 0 0).1, m'')
    /\ m'' = nodeMap (unindexed mixed).
Proof.
  destruct (stringifyNode_text_independent 100 (nodeMap (unindexed mixed)) "root"
              pretty prettyPurely 0 0 0 7 3 (tabs pretty)
              (stringifiedNode (nodeMap (unindexed mixed)) "root" pretty 0 0).1
              (stringifiedNode (nodeMap (unindexed mixed)) "root" pretty 0 0).2
              sample_rawStable eq_refl eq_refl)
    as (m'' & Hrun & Hid).
  - vm_compute. reflexivity.
  - exists m''. split; [exact Hrun|]. apply Hid; reflexivity.
Defined.

Lemma stringify_idempotent_witness :
  stringify 100 mixedPretty pretty
  = Done ((stringified (unindexed mixed) pretty).1, mixedPretty).
Proof.
  apply (stringify_idempotent 100 (unindexed mixed) mixedPretty pretty
           (stringified (unindexed mixed) pretty).1 sample_rawStable
           eq_refl eq_refl).
  vm_compute. reflexivity.
Defined.

Lemma isEquals_after_stringify_witness :
  isEquals 100 (unindexed mixed) (stringified (unindexed mixed) sortedAsc).2
  = Done true
  /\ isEquals 100 (stringified (unindexed mixed) sortedAsc).2 (unindexed mixed)
     = Done true.
Proof.
  apply (isEquals_after_stringify 100 (unindexed mixed)
           (stringified (unindexed mixed) sortedAsc).2 sortedAsc
           (stringified (unindexed mixed) sortedAsc).1 sample_rawStable).
  - vm_compute. reflexivity.
  - vm_compute. reflexivity.
Defined.

Lemma getNodeToken_roundtrip_witness :
  (exists f lvl m'',
      stringifyNode f (nodeMap mixedPretty) "root/b" prettyPurely lvl 0 0
        (tabs pretty)
      = Done (getNodeToken mixedPretty (nodeAt (nodeMap mixedPretty) "root/b"), m''))
  /\ getNodeToken mixedPretty (nodeAt (nodeMap mixedPretty) "root/a/x")
     = default EmptyString (getRawValue (nodeAt (nodeMap mixedPretty) "root/a/x")).
Proof.
  assert (Hrun : stringify 100 (unindexed mixed) pretty
                 = Done ((stringified (unindexed mixed) pretty).1, mixedPretty))
    by (vm_compute; reflexivity).
  assert (Htree : treeShaped 100 (nodeMap (unindexed mixed)) rootMarker)
    by (apply treeShapedb_spec; vm_compute; reflexivity).
  split.
  - destruct (getNodeToken_roundtrip 100 (unindexed mixed) mixedPretty pretty _
                sample_rawStable (or_introl eq_refl) eq_refl Htree Hrun
                "root/b" (nodeAt (nodeMap mixedPretty) "root/b"))
      as ((f & lvl & Htok) & _ & _).
    + apply (reachList_reachable 10). apply (bool_decide_unpack _).
      vm_compute. exact I.
    + vm_compute. reflexivity.
    + destruct (Htok prettyPurely 0 0 eq_refl eq_refl) as (m'' & Hm).
      exists f, lvl, m''. exact Hm.
  - apply (getNodeToken_roundtrip 100 (unindexed mixed) mixedPretty pretty _
             sample_rawStable (or_introl eq_refl) eq_refl Htree Hrun
             "root/a/x" (nodeAt (nodeMap mixedPretty) "root/a/x")).
    + apply (reachList_reachable 10). apply (bool_decide_unpack _).
      vm_compute. exact I.
    + vm_compute. reflexivity.
    + reflexivity.
Defined.

Lemma stringify_orders_children_witness :
  ordered (nodeMap mixedPretty) /\ nested (nodeMap mixedPretty).
Proof.
  apply (stringify_orders_children 100 (unindexed mixed) mixedPretty pretty
           (stringified (unindexed mixed) pretty).1 eq_refl eq_refl).
  - apply leavesBareb_spec. vm_compute. reflexivity.
  - apply treeShapedb_spec. vm_compute. reflexivity.
  - vm_compute. reflexivity.
  - apply spanningb_spec. vm_compute. reflexivity.
Defined.

Lemma findNodeAtOffset_after_stringify_witness :
  exists r' found,
    root mixedPretty = Some r'
    /\ findNodeAtOffset 100 mixedPretty 9 = Done found
    /\ match found with
       | None => ~ (0 < 9 <= slen (stringified (unindexed mixed) pretty).1)
       | Some (n, ty) =>
           0 < 9 <= slen (stringified (unindexed mixed) pretty).1
           /\ Innermost (nodeMap mixedPretty) 9 r' n
           /\ ty = hitType 9 n
       end.
Proof.
  apply (findNodeAtOffset_after_stringify 100 (unindexed mixed) mixedPretty pretty
           (stringified (unindexed mixed) pretty).1 9).
  - vm_compute. reflexivity.
  - reflexivity.
  - reflexivity.
  - apply leavesBareb_spec. vm_compute. reflexivity.
  - apply treeShapedb_spec. vm_compute. reflexivity.
  - apply spanningb_spec. vm_compute. reflexivity.
  - vm_compute. reflexivity.
Defined.


Lemma childrenNodes_entries_witness :
  exists cs,
    childrenNodes (nodeMap (treeOf mixed)) (nodeAt (nodeMap (treeOf mixed)) "root")
    = Some <$> cs
    /\ length cs
       = length (getChildrenKeys (nodeAt (nodeMap (treeOf mixed)) "root")).
Proof.
  apply (proj2 (proj2 (proj2 (childrenNodes_entries (nodeMap (treeOf mixed))
                                (nodeAt (nodeMap (treeOf mixed)) "root"))))
           9%nat "root").
  - vm_compute. reflexivity.
  - vm_compute. reflexivity.
Defined.

Lemma stringifyNestNodes_reindexes_witness :
  exists s t1,
    stringify 10 patchedTwice compact = Done (s, t1)
    /\ forall t2,
         stringifyNestNodes 11 patchedTwice compact = Done t2 ->
         nodeMap t2 = nodeMap t1
         /\ exists r2, root t2 = Some r2 /\ Node.length r2 = slen s.
Proof.
  apply (stringifyNestNodes_reindexes 10 patchedTwice compact
           (nodeAt (nodeMap patchedTwice) "root")).
  - reflexivity.
  - reflexivity.
  - reflexivity.
  - apply treeShapedb_spec. vm_compute. reflexivity.
  - vm_compute. reflexivity.
  - vm_compute. reflexivity.
  - vm_compute. reflexivity.
  - vm_compute. reflexivity.
Defined.

Lemma stringifyNestNodes_is_stringify_witness :
  exists s t',
    stringify 10 patchedTwice compact = Done (s, t')
    /\ stringifyNestNodes 11 patchedTwice compact = Done t'.
Proof.
  apply (stringifyNestNodes_is_stringify 10 patchedTwice compact
           (nodeAt (nodeMap patchedTwice) "root")).
  - reflexivity.
  - reflexivity.
  - reflexivity.
  - apply treeShapedb_spec. vm_compute. reflexivity.
  - vm_compute. reflexivity.
  - vm_compute. reflexivity.
  - vm_compute. reflexivity.
  - vm_compute. reflexivity.
  - vm_compute. reflexivity.
  - vm_compute. reflexivity.
Defined.

Lemma stringify_compact_layout_witness :
  laid 100 (nestNodeMap patched) (nodeMap mixedCompact) rootMarker = true
  /\ textBefore 100 (nestNodeMap patched) (nodeMap mixedCompact)
       (text mixedCompact) rootMarker = Some (text mixedCompact)
  /\ treeShaped 100 (nodeMap mixedCompact) rootMarker
  /\ exists r, root mixedCompact = Some r /\ Node.offset r = 0
               /\ Node.boundOffset r = 0
               /\ Node.length r = slen (text mixedCompact).
Proof.
  apply (stringify_compact_layout 100 (unindexed mixed) mixedCompact compact
           (stringified (unindexed mixed) compact).1 (nestNodeMap patched)).
  - exact sample_rawStable.
  - reflexivity.
  - reflexivity.
  - reflexivity.
  - apply leavesBareb_spec. vm_compute. reflexivity.
  - apply treeShapedb_spec. vm_compute. reflexivity.
  - vm_compute. reflexivity.
Defined.

Lemma stringifyNestNodes_unchanged_witness :
  stringifyNestNodes 101 (setNestNodeMap (nestNodeMap patchedTwice) mixedCompact)
    compact
  = Done (setNestNodeMap (nestNodeMap patchedTwice) mixedCompact).
Proof.
  apply (stringifyNestNodes_unchanged 100 (unindexed mixed) mixedCompact compact
           (stringified (unindexed mixed) compact).1
           (nodeAt (nodeMap (unindexed mixed)) "root")).
  - exact sample_rawStable.
  - reflexivity.
  - reflexivity.
  - reflexivity.
  - apply leavesBareb_spec. vm_compute. reflexivity.
  - apply treeShapedb_spec. vm_compute. reflexivity.
  - vm_compute. reflexivity.
  - vm_compute. reflexivity.
  - vm_compute. reflexivity.
Defined.

Lemma stringify_sorted_canonical_witness :
  exists t2',
    stringify 100 (unindexed ba) sortedAsc
    = Done ((stringified (unindexed ab) sortedAsc).1, t2')
    /\ text t2' = text (stringified (unindexed ab) sortedAsc).2
    /\ reordered (nodeMap (stringified (unindexed ab) sortedAsc).2) (nodeMap t2').
Proof.
  apply (stringify_sorted_canonical 100 (unindexed ab) (unindexed ba)
           (stringified (unindexed ab) sortedAsc).2 sortedAsc
           (stringified (unindexed ab) sortedAsc).1).
  - exact sample_rawStable.
  - discriminate.
  - apply reorderedb_spec. vm_compute. reflexivity.
  - vm_compute. reflexivity.
Defined.

Lemma stripPrefix_app (p k : string) : stripPrefix p (p +:+ k) = Some k.
Proof.
  induction p as [|a p IH]; [by destruct k|].
  rewrite append_cons. simpl. by rewrite bool_decide_true.
Qed.

Lemma sample_keysExact (m : gmap string Node) :
  keysExactb m = true -> keysExact m.
Proof.
  unfold keysExactb. rewrite forallb_forall. intros Hall j n key Hj [c Hc].
  assert (Hin : In (j, n) (map_to_list m))
    by (apply list_elem_of_In; by apply elem_of_map_to_list).
  specialize (Hall (j, n) Hin). rewrite forallb_forall in Hall.
  assert (Hin' : In (getChildId n key, c) (map_to_list m))
    by (apply list_elem_of_In; by apply elem_of_map_to_list).
  specialize (Hall (getChildId n key, c) Hin').
  cbn [fst snd] in Hall.
  change (getChildId n key) with (Node.id n +:+ "/" +:+ key) in Hall.
  rewrite <- (append_assoc (Node.id n) "/" key) in Hall.
  rewrite stripPrefix_app in Hall.
  exact (proj1 (bool_decide_eq_true _) Hall).
Qed.

Lemma isEquals_transitive_witness :
  isEquals 100 (treeOf ab) (treeOf ba) = Done true
  /\ isEquals 100 (treeOf ba) (unindexed ab) = Done true
  /\ isEquals 100 (treeOf ab) (unindexed ab) = Done true.
Proof.
  assert (H12 : isEquals 100 (treeOf ab) (treeOf ba) = Done true)
    by (vm_compute; reflexivity).
  assert (H23 : isEquals 100 (treeOf ba) (unindexed ab) = Done true)
    by (vm_compute; reflexivity).
  split_and!; [exact H12|exact H23|].
  apply (isEquals_transitive 100 (treeOf ab) (treeOf ba) (unindexed ab)).
  - apply sample_keysExact. vm_compute. reflexivity.
  - apply sample_keysExact. vm_compute. reflexivity.
  - exact H12.
  - exact H23.
Defined.

End SampleBehaviour.
